(** * HrSort: the list-processing engine of the browser toolkit

    Shallow embedding of the TypeScript sources
      - the Analyzer component   (handleAnalyze)
      - the Batcher component    (getAlphaLabel, processedData, copySet,
                                  getFormattedCount, the set labels)
      - the Comparator component (handleCompare, the similarity index)
      - services/geminiService.ts (categorizeTitles)
    followed by the properties the design document states about them.

    Conventions of the embedding.
    - A JavaScript string is a sequence of UTF-16 code units: [list N].
      [js "abc"] turns a literal into its code units.
    - The integers the programs compute with (lengths, counts, indices, the
      slider value) are JavaScript numbers that hold integers far below 2^53;
      they are modelled by [Z], on which +, -, comparison, Math.max and
      Math.floor/Math.ceil of a quotient are exact.
    - [while] and [for] loops are functions with a fuel argument; [None]
      means that the fuel ran out before the loop ended.
    - The one effect that leaves the page, the request to the generative
      backend, is a node of a computation tree; running the tree against a
      backend lists the requests sent. *)

From Stdlib Require Import ZArith QArith Qcanon Ascii DecimalString.
From Stdlib Require DecimalPos DecimalZ.
From stdpp Require Import strings list sorting sets.

Local Open Scope Z_scope.

Set Warnings "-register-all,-clear-no-such-hyp".

(** ** JavaScript values and built-ins used by the sources *)

Module JS.

Abbreviation jsstring := (list N).

Fixpoint js (s : string) : jsstring :=
  match s with
  | EmptyString => []
  | String a s' => N_of_ascii a :: js s'
  end.

(** Line feed, the separator of [split(/\n/)] and of [join('\n')]. *)
Definition LF : N := 10%N.

(** ECMAScript WhiteSpace and LineTerminator code units, the ones
    [String.prototype.trim] removes. *)
Definition is_white (c : N) : bool :=
  ((9 <=? c) && (c <=? 13) || (c =? 32) || (c =? 160) || (c =? 5760)
   || (8192 <=? c) && (c <=? 8202) || (c =? 8232) || (c =? 8233)
   || (c =? 8239) || (c =? 8287) || (c =? 12288) || (c =? 65279))%N.

Fixpoint drop_white (s : jsstring) : jsstring :=
  match s with
  | c :: s' => if is_white c then drop_white s' else s
  | [] => []
  end.

(** [s.trim()] *)
Definition trim (s : jsstring) : jsstring :=
  reverse (drop_white (reverse (drop_white s))).

(** [s.split(/\n/)]: the pieces between line feeds; the empty string gives
    one empty piece. *)
Fixpoint split_lf (s : jsstring) : list jsstring :=
  match s with
  | [] => [[]]
  | c :: s' =>
      if (c =? LF)%N then [] :: split_lf s'
      else match split_lf s' with
           | piece :: pieces => (c :: piece) :: pieces
           | [] => [[c]]
           end
  end.

(** [pieces.join('\n')] *)
Fixpoint join_lf (pieces : list jsstring) : jsstring :=
  match pieces with
  | [] => []
  | [piece] => piece
  | piece :: rest => piece ++ LF :: join_lf rest
  end.

(** The expression every component starts with:
    [text.split(/\n/).map(l => l.trim()).filter(l => l !== '')]. *)
Definition lines_of (text : jsstring) : list jsstring :=
  filter (λ l, l ≠ []) (trim <$> split_lf text).

(** [!text.trim()]: the guard of the buttons and handlers. *)
Definition blank (text : jsstring) : bool := bool_decide (trim text = []).

(** [arr.slice(start, end)] with its relative (negative) indices. *)
Definition relative_index (len k : Z) : Z :=
  if k <? 0 then Z.max (len + k) 0 else Z.min k len.

Definition slice {A} (arr : list A) (start final : Z) : list A :=
  let len := Z.of_nat (length arr) in
  let k := relative_index len start in
  let f := relative_index len final in
  take (Z.to_nat (Z.max (f - k) 0)) (drop (Z.to_nat k) arr).

(** [String(n)] and template interpolation of an integer number. *)
Definition number_to_string (n : Z) : jsstring :=
  js (NilZero.string_of_int (Z.to_int n)).

(** [String.fromCharCode(n)]: one code unit, [n] modulo 2^16. *)
Definition fromCharCode (n : Z) : jsstring := [Z.to_N (n mod 65536)].

(** Comparison of two strings by code units, the order of [<] on strings and
    of [Array.prototype.sort] without a comparator. *)
Fixpoint compare_strings (a b : jsstring) : comparison :=
  match a, b with
  | [], [] => Eq
  | [], _ :: _ => Lt
  | _ :: _, [] => Gt
  | x :: a', y :: b' =>
      match (x ?= y)%N with
      | Eq => compare_strings a' b'
      | c => c
      end
  end.

Definition string_le (a b : jsstring) : bool :=
  match compare_strings a b with Gt => false | _ => true end.

(** [Array.prototype.sort]: a stable sort (ECMAScript 2019). [before x y]
    says that the comparator does not put [y] strictly before [x]
    (its result on [(x, y)] is <= 0, NaN counting as 0). For a consistent
    comparator every stable sort returns the same array; this one is
    insertion sort. *)
Section Sort.
Context {A : Type} (before : A → A → bool).

Fixpoint insert_sorted (x : A) (l : list A) : list A :=
  match l with
  | [] => [x]
  | y :: l' => if before x y then x :: l else y :: insert_sorted x l'
  end.

Fixpoint Array_sort (l : list A) : list A :=
  match l with
  | [] => []
  | x :: l' => insert_sorted x (Array_sort l')
  end.
End Sort.

(** [arr.sort()] on strings. *)
Definition sort_strings : list jsstring → list jsstring := Array_sort string_le.

(** [new Set(arr)]: the distinct elements in order of first insertion. *)
Definition Set_add (s : list jsstring) (x : jsstring) : list jsstring :=
  if bool_decide (x ∈ s) then s else s ++ [x].

Definition new_Set (arr : list jsstring) : list jsstring := foldl Set_add [] arr.

Definition Set_has (s : list jsstring) (x : jsstring) : bool := bool_decide (x ∈ s).

End JS.

Import JS.

(** ** The Batcher component *)

Module Batcher.

Inductive SplitMode := size | count.
Inductive NamingScheme := numeric | alpha.

Record BatchSet := { id : Z; items : list jsstring }.

Record Processed := { sets : list BatchSet; totalItems : Z }.

(** The [while (i > 0)] loop of [getAlphaLabel]. *)
Fixpoint getAlphaLabel_loop (fuel : nat) (i : Z) (label : jsstring) : option jsstring :=
  match fuel with
  | O => None
  | S fuel' =>
      if i >? 0 then
        let remainder := Z.rem (i - 1) 26 in
        getAlphaLabel_loop fuel' ((i - 1) / 26) (fromCharCode (65 + remainder) ++ label)
      else Some label
  end.

Definition getAlphaLabel (fuel : nat) (index : Z) : option jsstring :=
  getAlphaLabel_loop fuel (index + 1) [].

(** [Math.ceil(a / b)] for integers [a] and [b > 0]. For an array length
    [a] the double [a / b] lies on the same side of every integer as the
    exact quotient, so its ceiling is the ceiling of the exact quotient. *)
Definition ceil_div (a b : Z) : Z := - ((- a) / b).

(** The [for (let i = 0; i < lines.length; i += setSize)] loop of
    [processedData]. *)
Fixpoint batch_loop (fuel : nat) (lines : list jsstring) (setSize i : Z)
    (sets : list BatchSet) : option (list BatchSet) :=
  match fuel with
  | O => None
  | S fuel' =>
      if i <? Z.of_nat (length lines) then
        batch_loop fuel' lines setSize (i + setSize)
          (sets ++ [{| id := Z.of_nat (length sets);
                       items := slice lines i (i + setSize) |}])
      else Some sets
  end.

Definition setSize_of (mode : SplitMode) (inputValue : Z) (lines : list jsstring) : Z :=
  match mode with
  | size => Z.max 1 inputValue
  | count =>
      let targetSets := Z.max 1 inputValue in
      ceil_div (Z.of_nat (length lines)) targetSets
  end.

Definition processedData (fuel : nat) (inputText : jsstring) (mode : SplitMode)
    (inputValue : Z) : option Processed :=
  let lines := lines_of inputText in
  if bool_decide (length lines = 0%nat) then Some {| sets := []; totalItems := 0 |}
  else
    let setSize := setSize_of mode inputValue lines in
    sets ← batch_loop fuel lines setSize 0 [];
    Some {| sets := sets; totalItems := Z.of_nat (length lines) |}.

(** The strings [copySet] maps the items to, before [join('\n')]. *)
Definition formatItem (useIndexing : bool) (prefix : jsstring) (offset : Z)
    (idx : nat) (item : jsstring) : jsstring :=
  let indexStr :=
    if useIndexing then number_to_string (offset + Z.of_nat idx + 1) ++ js ". " else [] in
  let prefixStr := if bool_decide (prefix ≠ []) then prefix ++ js " " else [] in
  indexStr ++ prefixStr ++ item.

(** [copySet]: the text handed to [navigator.clipboard.writeText]. *)
Definition copySet (useIndexing : bool) (prefix : jsstring) (items : list jsstring)
    (offset : Z) : jsstring :=
  join_lf (imap (formatItem useIndexing prefix offset) items).

(** [getFormattedCount]; [None] is the TypeError of reading [.items] of a
    set that does not exist. *)
Definition getFormattedCount (setIndex : nat) (sets : list BatchSet) : option Z :=
  foldl (λ acc i, prevCount ← acc; s ← sets !! i;
                  Some (prevCount + Z.of_nat (length (items s))))
        (Some 0) (seq 0 setIndex).

(** The label shown on a set and on its copy button. *)
Definition setLabel (fuel : nat) (namingScheme : NamingScheme) (set : BatchSet)
    : option jsstring :=
  match namingScheme with
  | numeric => Some (js "Set " ++ number_to_string (id set + 1))
  | alpha => label ← getAlphaLabel fuel (id set); Some (js "Set " ++ label)
  end.

End Batcher.

(** ** The Analyzer component *)

Module Analyzer.

(** What a slot of [freqMap] can hold. The annotation [Record<string, number>]
    promises numbers; at run time the slot holds the value of
    [(freqMap[line] || 0) + 1], which is a string as soon as the lookup
    reached something that is not a number. *)
Inductive prim := Num (n : Z) | NaN | Str (s : jsstring).

(** What the lookup [freqMap[line]] can return: an own slot, a function or
    the accessor result inherited from [Object.prototype], or [undefined]. *)
Inductive value :=
  | Undefined
  | Prim (p : prim)
  | NativeFunction (name : jsstring)
  | ObjectPrototype.

(** The properties every object literal inherits from [Object.prototype]:
    eleven functions and the accessor [__proto__], whose getter returns
    [Object.prototype] itself. *)
Definition Object_prototype (k : jsstring) : option value :=
  if bool_decide (k = js "__proto__") then Some ObjectPrototype
  else if bool_decide (k = js "constructor") then Some (NativeFunction (js "Object"))
  else if bool_decide (k ∈ js <$> ["toString"; "toLocaleString"; "valueOf";
            "hasOwnProperty"; "isPrototypeOf"; "propertyIsEnumerable";
            "__defineGetter__"; "__defineSetter__"; "__lookupGetter__";
            "__lookupSetter__"]%string)
       then Some (NativeFunction k)
  else None.

(** [Function.prototype.toString] of a built-in function. *)
Definition native_source (name : jsstring) : jsstring :=
  js "function " ++ name ++ js "() { [native code] }".

(** The own properties of an object, in creation order. *)
Abbreviation object := (list (jsstring * prim)).

Fixpoint own_get (o : object) (k : jsstring) : option prim :=
  match o with
  | [] => None
  | (k', v) :: o' => if bool_decide (k' = k) then Some v else own_get o' k
  end.

Fixpoint own_put (o : object) (k : jsstring) (v : prim) : object :=
  match o with
  | [] => [(k, v)]
  | (k', v') :: o' =>
      if bool_decide (k' = k) then (k, v) :: o' else (k', v') :: own_put o' k v
  end.

(** [o[k]] *)
Definition Get (o : object) (k : jsstring) : value :=
  match own_get o k with
  | Some p => Prim p
  | None => default Undefined (Object_prototype k)
  end.

(** [o[k] = v] for a primitive [v]. Assigning to [__proto__] runs the
    inherited setter, which ignores a value that is not an object; any other
    key becomes or stays an own property. *)
Definition Put (o : object) (k : jsstring) (v : prim) : object :=
  if bool_decide (k = js "__proto__") then o else own_put o k v.

Definition truthy (v : value) : bool :=
  match v with
  | Undefined | Prim NaN => false
  | Prim (Num n) => negb (n =? 0)
  | Prim (Str s) => bool_decide (s ≠ [])
  | NativeFunction _ | ObjectPrototype => true
  end.

(** [v || w] *)
Definition or_else (v w : value) : value := if truthy v then v else w.

(** [v + 1]: addition on numbers, concatenation once [v] is a string or an
    object that converts to one. *)
Definition plus_one (v : value) : prim :=
  match v with
  | Prim (Num n) => Num (n + 1)
  | Undefined | Prim NaN => NaN
  | Prim (Str s) => Str (s ++ js "1")
  | NativeFunction name => Str (native_source name ++ js "1")
  | ObjectPrototype => Str (js "[object Object]1")
  end.

(** [ToNumber] on a slot; [None] is NaN. The strings this program puts in a
    slot begin with the word function ([freqMap_slots] below); none of them
    is a numeric literal. *)
Definition ToNumber (p : prim) : option Z :=
  match p with
  | Num n => Some n
  | NaN | Str _ => None
  end.

(** An array index: the canonical decimal form of an integer below 2^32 - 1. *)
Fixpoint digits_value (acc : N) (k : jsstring) : option N :=
  match k with
  | [] => Some acc
  | c :: k' =>
      if ((48 <=? c) && (c <=? 57))%N then digits_value (10 * acc + (c - 48))%N k'
      else None
  end.

Definition array_index (k : jsstring) : option N :=
  match k with
  | [] => None
  | _ :: _ =>
      n ← digits_value 0 k;
      if bool_decide (number_to_string (Z.of_N n) = k) && (n <? 4294967295)%N
      then Some n else None
  end.

Definition index_before (e1 e2 : jsstring * prim) : bool :=
  match array_index e1.1, array_index e2.1 with
  | Some a, Some b => (a <=? b)%N
  | _, _ => true
  end.

(** [Object.entries(o)]: own properties whose key is an array index come
    first, in ascending numeric order; the other keys follow in creation
    order. *)
Definition Object_entries (o : object) : list (jsstring * prim) :=
  Array_sort index_before (filter (λ e, is_Some (array_index e.1)) o)
  ++ filter (λ e, array_index e.1 = None) o.

(** Modelled from the spec: types.ts is not among the sources; the records
    below follow the object literals the components build and the data model
    of the design document. *)
Record FrequencyItem := { title : jsstring; count : prim }.

Record Stats := { total : Z; unique : Z; duplicates : Z; processedAt : jsstring }.

Record AnalysisResult := {
  stats : Stats;
  uniqueList : list jsstring;
  duplicateList : list jsstring;
  frequencyMap : list FrequencyItem
}.

(** The body of [lines.forEach]: [freqMap[line] = (freqMap[line] || 0) + 1]. *)
Definition increment (freqMap : object) (line : jsstring) : object :=
  Put freqMap line (plus_one (or_else (Get freqMap line) (Prim (Num 0)))).

(** The comparator [(a, b) => b.count - a.count]; [None] is NaN. *)
Definition by_count (a b : FrequencyItem) : option Z :=
  cb ← ToNumber (count b); ca ← ToNumber (count a); Some (cb - ca).

Definition count_before (a b : FrequencyItem) : bool :=
  match by_count a b with
  | Some v => v <=? 0
  | None => true
  end.

(** [item.count > 1] *)
Definition more_than_once (item : FrequencyItem) : bool :=
  match ToNumber (count item) with
  | Some n => n >? 1
  | None => false
  end.

(** [handleAnalyze]; [now] is the reading of the clock,
    [new Date().toLocaleTimeString()]. [None]: the handler returned without
    calling [setResult]. *)
Definition handleAnalyze (now inputText : jsstring) : option AnalysisResult :=
  if blank inputText then None
  else
    let lines := lines_of inputText in
    let total := Z.of_nat (length lines) in
    let uniqueSet := new_Set lines in
    let unique := Z.of_nat (length uniqueSet) in
    let freqMap := foldl increment [] lines in
    let frequencyList :=
      Array_sort count_before
        ((λ e, {| title := e.1; count := e.2 |}) <$> Object_entries freqMap) in
    let duplicateList := title <$> filter (λ item, more_than_once item = true) frequencyList in
    Some {| stats := {| total := total; unique := unique;
                        duplicates := total - unique; processedAt := now |};
            uniqueList := sort_strings uniqueSet;
            duplicateList := duplicateList;
            frequencyMap := frequencyList |}.

(** [downloadUnique]: the text of the blob offered for download as
    horizon_unique_data.txt; [None]: there is no result and nothing is
    offered. *)
Definition downloadUnique (result : option AnalysisResult) : option jsstring :=
  match result with
  | None => None
  | Some r => Some (join_lf (uniqueList r))
  end.

(** [chartData]: the bars of the chart, as name, value and colour. *)
Definition chartData (result : option AnalysisResult) : list (jsstring * Z * jsstring) :=
  match result with
  | None => []
  | Some r => [ (js "Unique", unique (stats r), js "#0d9488");
                (js "Duplicates", duplicates (stats r), js "#64748b") ]
  end.

(** The state [result] after a click on Analyze: what [setResult] was called
    with, or the previous state when the handler returned before. *)
Definition result_after_click (result : option AnalysisResult) (now inputText : jsstring)
    : option AnalysisResult :=
  match handleAnalyze now inputText with
  | Some r => Some r
  | None => result
  end.

End Analyzer.

(** ** The Comparator component *)

Module Comparator.

(** Modelled from the spec: types.ts is not among the sources; the records
    follow the object literal [handleCompare] builds. *)
Record Stats := { inBoth : Z; inAOnly : Z; inBOnly : Z; totalA : Z; totalB : Z }.

Record ComparisonResult := {
  intersection : list jsstring;
  aOnly : list jsstring;
  bOnly : list jsstring;
  stats : Stats
}.

(** The body of [setA.forEach], on the pair of arrays it pushes to. *)
Definition classifyA (setB : list jsstring) (acc : list jsstring * list jsstring)
    (item : jsstring) : list jsstring * list jsstring :=
  if Set_has setB item then (acc.1 ++ [item], acc.2) else (acc.1, acc.2 ++ [item]).

(** The body of [setB.forEach]. *)
Definition classifyB (setA : list jsstring) (bOnly : list jsstring) (item : jsstring)
    : list jsstring :=
  if negb (Set_has setA item) then bOnly ++ [item] else bOnly.

Definition handleCompare (listA listB : jsstring) : ComparisonResult :=
  let setA := new_Set (lines_of listA) in
  let setB := new_Set (lines_of listB) in
  let both := foldl (classifyA setB) ([], []) setA in
  let intersection := both.1 in
  let aOnly := both.2 in
  let bOnly := foldl (classifyB setA) [] setB in
  {| intersection := sort_strings intersection;
     aOnly := sort_strings aOnly;
     bOnly := sort_strings bOnly;
     stats := {| inBoth := Z.of_nat (length intersection);
                 inAOnly := Z.of_nat (length aOnly);
                 inBOnly := Z.of_nat (length bOnly);
                 totalA := Z.of_nat (length setA);
                 totalB := Z.of_nat (length setB) |} |}.

(** The value of a division of two integer numbers. The source divides
    doubles; the model keeps the exact quotient, which the double rounds
    (and equals at 0 and at 1), and keeps the three values a zero divisor
    produces. *)
Inductive number := Real (q : Qc) | NaN | Infinity | MinusInfinity.

Definition divide (a b : Z) : number :=
  if b =? 0 then
    if a =? 0 then NaN else if a >? 0 then Infinity else MinusInfinity
  else Real (Q2Qc (inject_Z a) / Q2Qc (inject_Z b))%Qc.

(** [x * k] for an integer [k > 0]. *)
Definition times (x : number) (k : Z) : number :=
  match x with
  | Real q => Real (q * Q2Qc (inject_Z k))%Qc
  | other => other
  end.

(** [x || 1] on an integer number: 0 is the falsy one. *)
Definition or_one (x : Z) : Z := if x =? 0 then 1 else x.

(** The number under "Similarity Index", before [.toFixed(1)]:
    [(inBoth / (totalA + totalB - inBoth || 1)) * 100]. *)
Definition similarity (s : Stats) : number :=
  times (divide (inBoth s) (or_one (totalA s + totalB s - inBoth s))) 100.

(** The counter under each text area:
    [list.split(/\n/).filter(l => l.trim()).length]. *)
Definition lineCount (list : jsstring) : Z :=
  Z.of_nat (length (filter (λ l, trim l ≠ []) (split_lf list))).

(** [disabled] of the Compare button: [!listA.trim() || !listB.trim()]. *)
Definition compareDisabled (listA listB : jsstring) : bool :=
  blank listA || blank listB.

(** [data]: the slices of the pie chart, as name, value and colour. *)
Definition data (result : option ComparisonResult) : list (jsstring * Z * jsstring) :=
  match result with
  | None => []
  | Some r => [ (js "Only in List A", inAOnly (stats r), js "#0d9488");
                (js "Common", inBoth (stats r), js "#64748b");
                (js "Only in List B", inBOnly (stats r), js "#e11d48") ]
  end.

End Comparator.

(** ** JSON: the values, [JSON.stringify] on an array of strings and
    [JSON.parse] *)

Module JSON.

(** A number keeps its literal: nothing here computes with it. An object
    keeps its members as written; reading a key takes its last binding. *)
Inductive json :=
  | JNull
  | JBool (b : bool)
  | JNumber (literal : jsstring)
  | JString (s : jsstring)
  | JArray (elements : list json)
  | JObject (members : list (jsstring * json)).

Definition member (k : jsstring) (members : list (jsstring * json)) : option json :=
  snd <$> last (filter (λ m, m.1 = k) members).

Definition hex_digit (n : N) : N := if (n <? 10)%N then (48 + n)%N else (87 + n)%N.

(** [\uXXXX] with lower-case digits. *)
Definition unicode_escape (c : N) : jsstring :=
  js "\u" ++ [hex_digit (c / 4096 mod 16); hex_digit (c / 256 mod 16);
              hex_digit (c / 16 mod 16); hex_digit (c mod 16)]%N.

Definition high_surrogate (c : N) : bool := ((55296 <=? c) && (c <=? 56319))%N.
Definition low_surrogate (c : N) : bool := ((56320 <=? c) && (c <=? 57343))%N.

(** QuoteJSONString without the enclosing quotes. *)
Fixpoint quote_units (s : jsstring) : jsstring :=
  match s with
  | [] => []
  | c :: s' =>
      if (c =? 8)%N then js "\b" ++ quote_units s'
      else if (c =? 9)%N then js "\t" ++ quote_units s'
      else if (c =? 10)%N then js "\n" ++ quote_units s'
      else if (c =? 12)%N then js "\f" ++ quote_units s'
      else if (c =? 13)%N then js "\r" ++ quote_units s'
      else if (c =? 34)%N then [92; 34]%N ++ quote_units s'
      else if (c =? 92)%N then [92; 92]%N ++ quote_units s'
      else if (c <? 32)%N then unicode_escape c ++ quote_units s'
      else if high_surrogate c then
        match s' with
        | d :: s'' =>
            if low_surrogate d then c :: d :: quote_units s''
            else unicode_escape c ++ quote_units s'
        | [] => unicode_escape c
        end
      else if low_surrogate c then unicode_escape c ++ quote_units s'
      else c :: quote_units s'
  end.

Definition quote (s : jsstring) : jsstring := [34%N] ++ quote_units s ++ [34%N].

Fixpoint join_comma (pieces : list jsstring) : jsstring :=
  match pieces with
  | [] => []
  | [piece] => piece
  | piece :: rest => piece ++ 44%N :: join_comma rest
  end.

(** [JSON.stringify(arr)] for an array of strings. *)
Definition stringify (arr : list jsstring) : jsstring :=
  js "[" ++ join_comma (quote <$> arr) ++ js "]".

(** *** [JSON.parse]: a scanner over the code units, then a stack machine
    over the tokens. *)

Inductive token :=
  | TBeginArray | TEndArray | TBeginObject | TEndObject | TColon | TComma
  | TScalar (v : json).

Inductive numstate :=
  NMinus | NZero | NInt | NDot | NFrac | NExp | NExpSign | NExpDigits.

Inductive scanning :=
  | Idle
  | InString (acc : jsstring)
  | InEscape (acc : jsstring)
  | InUnicode (acc : jsstring) (seen : nat) (code : N)
  | InNumber (st : numstate) (acc : jsstring)
  | InWord (rest : jsstring) (v : json).

Definition is_digit (c : N) : bool := ((48 <=? c) && (c <=? 57))%N.

Definition hex_value (c : N) : option N :=
  if is_digit c then Some (c - 48)%N
  else if ((97 <=? c) && (c <=? 102))%N then Some (c - 87)%N
  else if ((65 <=? c) && (c <=? 70))%N then Some (c - 55)%N
  else None.

(** The scanner between tokens. Tokens are collected in reverse. *)
Definition scan_idle (out : list token) (c : N) : option (scanning * list token) :=
  if ((c =? 32) || (c =? 9) || (c =? 10) || (c =? 13))%N then Some (Idle, out)
  else if (c =? 91)%N then Some (Idle, TBeginArray :: out)
  else if (c =? 93)%N then Some (Idle, TEndArray :: out)
  else if (c =? 123)%N then Some (Idle, TBeginObject :: out)
  else if (c =? 125)%N then Some (Idle, TEndObject :: out)
  else if (c =? 58)%N then Some (Idle, TColon :: out)
  else if (c =? 44)%N then Some (Idle, TComma :: out)
  else if (c =? 34)%N then Some (InString [], out)
  else if (c =? 45)%N then Some (InNumber NMinus [c], out)
  else if (c =? 48)%N then Some (InNumber NZero [c], out)
  else if is_digit c then Some (InNumber NInt [c], out)
  else if (c =? 116)%N then Some (InWord (js "rue") (JBool true), out)
  else if (c =? 102)%N then Some (InWord (js "alse") (JBool false), out)
  else if (c =? 110)%N then Some (InWord (js "ull") JNull, out)
  else None.

Definition is_e (c : N) : bool := ((c =? 101) || (c =? 69))%N.

(** One step inside a number literal: the next state, [Some None] when the
    literal ends before [c], [None] when [c] makes it ill-formed. *)
Definition number_step (st : numstate) (c : N) : option (option numstate) :=
  match st with
  | NMinus => if (c =? 48)%N then Some (Some NZero)
              else if is_digit c then Some (Some NInt) else None
  | NZero => if (c =? 46)%N then Some (Some NDot)
             else if is_e c then Some (Some NExp) else Some None
  | NInt => if is_digit c then Some (Some NInt)
            else if (c =? 46)%N then Some (Some NDot)
            else if is_e c then Some (Some NExp) else Some None
  | NDot => if is_digit c then Some (Some NFrac) else None
  | NFrac => if is_digit c then Some (Some NFrac)
             else if is_e c then Some (Some NExp) else Some None
  | NExp => if ((c =? 43) || (c =? 45))%N then Some (Some NExpSign)
            else if is_digit c then Some (Some NExpDigits) else None
  | NExpSign => if is_digit c then Some (Some NExpDigits) else None
  | NExpDigits => if is_digit c then Some (Some NExpDigits) else Some None
  end.

Definition number_complete (st : numstate) : bool :=
  match st with
  | NZero | NInt | NFrac | NExpDigits => true
  | NMinus | NDot | NExp | NExpSign => false
  end.

Definition scan_step (state : scanning * list token) (c : N)
    : option (scanning * list token) :=
  let out := state.2 in
  match state.1 with
  | Idle => scan_idle out c
  | InString acc =>
      if (c =? 34)%N then Some (Idle, TScalar (JString (reverse acc)) :: out)
      else if (c =? 92)%N then Some (InEscape acc, out)
      else if (c <? 32)%N then None
      else Some (InString (c :: acc), out)
  | InEscape acc =>
      if ((c =? 34) || (c =? 92) || (c =? 47))%N then Some (InString (c :: acc), out)
      else if (c =? 98)%N then Some (InString (8%N :: acc), out)
      else if (c =? 102)%N then Some (InString (12%N :: acc), out)
      else if (c =? 110)%N then Some (InString (10%N :: acc), out)
      else if (c =? 114)%N then Some (InString (13%N :: acc), out)
      else if (c =? 116)%N then Some (InString (9%N :: acc), out)
      else if (c =? 117)%N then Some (InUnicode acc 0 0%N, out)
      else None
  | InUnicode acc seen code =>
      h ← hex_value c;
      let code' := (16 * code + h)%N in
      if bool_decide (seen = 3%nat) then Some (InString (code' :: acc), out)
      else Some (InUnicode acc (S seen) code', out)
  | InNumber st acc =>
      next ← number_step st c;
      match next with
      | Some st' => Some (InNumber st' (c :: acc), out)
      | None => scan_idle (TScalar (JNumber (reverse acc)) :: out) c
      end
  | InWord rest v =>
      match rest with
      | r :: rest' =>
          if (c =? r)%N then
            match rest' with
            | [] => Some (Idle, TScalar v :: out)
            | _ :: _ => Some (InWord rest' v, out)
            end
          else None
      | [] => None
      end
  end.

Definition scan (text : jsstring) : option (list token) :=
  state ← foldl (λ st c, st ≫= λ st, scan_step st c) (Some (Idle, [])) text;
  match state.1 with
  | Idle => Some (reverse state.2)
  | InNumber st acc =>
      if number_complete st then Some (reverse (TScalar (JNumber (reverse acc)) :: state.2))
      else None
  | _ => None
  end.

(** The containers that are open, innermost first, with what they hold so
    far (in reverse) and, in an object, the key that awaits its value. *)
Inductive frame :=
  | FArray (elements : list json)
  | FObject (members : list (jsstring * json)) (key : option jsstring).

Inductive expecting :=
  | Value          (** a value *)
  | ValueOrEnd     (** a value or the bracket that closes an empty array *)
  | KeyOrEnd       (** a key or the brace that closes an empty object *)
  | Key            (** a key *)
  | Colon
  | Next           (** a comma or the closer of the innermost container *)
  | Finished (v : json).

(** A value is complete: it goes into the innermost container or is the
    result. *)
Definition deliver (v : json) (stack : list frame) : option (list frame * expecting) :=
  match stack with
  | [] => Some ([], Finished v)
  | FArray els :: stack' => Some (FArray (v :: els) :: stack', Next)
  | FObject ms (Some k) :: stack' => Some (FObject ((k, v) :: ms) None :: stack', Next)
  | FObject _ None :: _ => None
  end.

Definition begin_value (t : token) (stack : list frame)
    : option (list frame * expecting) :=
  match t with
  | TScalar v => deliver v stack
  | TBeginArray => Some (FArray [] :: stack, ValueOrEnd)
  | TBeginObject => Some (FObject [] None :: stack, KeyOrEnd)
  | _ => None
  end.

Definition take_key (t : token) (stack : list frame) : option (list frame * expecting) :=
  match t, stack with
  | TScalar (JString k), FObject ms None :: stack' =>
      Some (FObject ms (Some k) :: stack', Colon)
  | _, _ => None
  end.

Definition close (t : token) (stack : list frame) : option (list frame * expecting) :=
  match t, stack with
  | TEndArray, FArray els :: stack' => deliver (JArray (reverse els)) stack'
  | TEndObject, FObject ms None :: stack' => deliver (JObject (reverse ms)) stack'
  | _, _ => None
  end.

Definition parse_step (state : list frame * expecting) (t : token)
    : option (list frame * expecting) :=
  let stack := state.1 in
  match state.2 with
  | Value => begin_value t stack
  | ValueOrEnd =>
      match t with TEndArray => close t stack | _ => begin_value t stack end
  | KeyOrEnd =>
      match t with TEndObject => close t stack | _ => take_key t stack end
  | Key => take_key t stack
  | Colon => match t with TColon => Some (stack, Value) | _ => None end
  | Next =>
      match t, stack with
      | TComma, FArray _ :: _ => Some (stack, Value)
      | TComma, FObject _ None :: _ => Some (stack, Key)
      | _, _ => close t stack
      end
  | Finished _ => None
  end.

(** [JSON.parse(text)]; [None] is the SyntaxError. *)
Definition parse (text : jsstring) : option json :=
  tokens ← scan text;
  state ← foldl (λ st t, st ≫= λ st, parse_step st t) (Some ([], Value)) tokens;
  match state with
  | ([], Finished v) => Some v
  | _ => None
  end.

End JSON.

(** ** services/geminiService.ts *)

Module GeminiService.

Import JSON.

(** The schema objects of the SDK ([Type.OBJECT], [Type.ARRAY],
    [Type.STRING]). *)
Inductive Schema :=
  | OBJECT (properties : list (jsstring * Schema)) (required : list jsstring)
  | ARRAY (items : Schema) (description : option jsstring)
  | STRING (description : option jsstring).

Record Config := { responseMimeType : jsstring; responseSchema : Schema }.

Record Request := { model : jsstring; contents : jsstring; config : Config }.

(** What the code can throw or be rejected with. *)
Inductive exn :=
  | Error (message : jsstring)
  | SyntaxError
  | ServiceError (message : jsstring).

(** How the promise of [ai.models.generateContent] settles; [text] is
    [response.text], which may be [undefined]. *)
Inductive settled :=
  | Fulfilled (text : option jsstring)
  | Rejected (reason : exn).

(** An asynchronous computation: its result, the exception it throws, or one
    of the two effects of this file followed by the rest. *)
Inductive Async (A : Type) :=
  | Return (a : A)
  | Throw (e : exn)
  | GenerateContent (request : Request) (k : settled → Async A)
  | ConsoleError (e : exn) (k : Async A).

Arguments Return {A} a.
Arguments Throw {A} e.
Arguments GenerateContent {A} request k.
Arguments ConsoleError {A} e k.

(** [try { body } catch (error) { handler }] *)
Fixpoint try_catch {A} (body : Async A) (handler : exn → Async A) : Async A :=
  match body with
  | Return a => Return a
  | Throw e => handler e
  | GenerateContent request k => GenerateContent request (λ s, try_catch (k s) handler)
  | ConsoleError e k => ConsoleError e (try_catch k handler)
  end.

Definition responseSchema_of_request : Schema :=
  OBJECT
    [(js "categories",
      ARRAY
        (OBJECT
           [(js "name", STRING (Some (js "The name of the category/topic")));
            (js "items",
             ARRAY (STRING None)
                   (Some (js "The list of titles belonging to this category")))]
           [js "name"; js "items"])
        None)]
    [js "categories"].

Definition prompt_of (processedTitles : list jsstring) : jsstring :=
  [LF] ++ js "    You are an expert content organizer. " ++
  [LF] ++ js "    Analyze the following list of titles and group them into distinct, logical topics or categories." ++
  [LF] ++ js "    " ++
  [LF] ++ js "    Titles to categorize:" ++
  [LF] ++ js "    " ++ stringify processedTitles ++
  [LF] ++ js "  ".

Definition request_of (prompt : jsstring) : Request :=
  {| model := js "gemini-2.5-flash";
     contents := prompt;
     config := {| responseMimeType := js "application/json";
                  responseSchema := responseSchema_of_request |} |}.

(** [{ categories: [] }] *)
Definition no_categories : json := JObject [(js "categories", JArray [])].

(** [categorizeTitles]. The result is what [JSON.parse] returned: the cast
    [as AIAnalysisResult] exists for the type checker only. Constructing the
    client, [new GoogleGenAI({ apiKey })], sends nothing. *)
Definition categorizeTitles (titles : list jsstring) (apiKey : jsstring) : Async json :=
  if bool_decide (apiKey = []) then
    Throw (Error (js "API Key is missing. Please configure it in the settings."))
  else if bool_decide (length titles = 0%nat) then Return no_categories
  else
    let processedTitles := slice titles 0 500 in
    let prompt := prompt_of processedTitles in
    try_catch
      (GenerateContent (request_of prompt) (λ response,
         match response with
         | Rejected reason => Throw reason
         | Fulfilled text =>
             match text with
             | None | Some [] => Throw (Error (js "No response from AI"))
             | Some text =>
                 match parse text with
                 | Some result => Return result
                 | None => Throw SyntaxError
                 end
             end
         end))
      (λ error, ConsoleError error (Throw error)).

(** Running a computation against a backend: the requests sent, the errors
    logged, and the result or the exception. *)
Record Run (A : Type) := {
  sent : list Request;
  logged : list exn;
  outcome : A + exn
}.

Arguments sent {A} r.
Arguments logged {A} r.
Arguments outcome {A} r.

Fixpoint run {A} (backend : Request → settled) (p : Async A) : Run A :=
  match p with
  | Return a => {| sent := []; logged := []; outcome := inl a |}
  | Throw e => {| sent := []; logged := []; outcome := inr e |}
  | GenerateContent request k =>
      let r := run backend (k (backend request)) in
      {| sent := request :: sent r; logged := logged r; outcome := outcome r |}
  | ConsoleError e k =>
      let r := run backend k in
      {| sent := sent r; logged := e :: logged r; outcome := outcome r |}
  end.

(** The shape [responseSchema_of_request] asks the backend for: an object
    whose [categories] is an array of objects, each with a string [name] and
    an array of strings [items]. *)
Definition is_string (j : json) : bool :=
  match j with JString _ => true | _ => false end.

Definition is_category (j : json) : bool :=
  match j with
  | JObject ms =>
      match member (js "name") ms, member (js "items") ms with
      | Some (JString _), Some (JArray titles) => forallb is_string titles
      | _, _ => false
      end
  | _ => false
  end.

Definition matches_schema (j : json) : bool :=
  match j with
  | JObject ms =>
      match member (js "categories") ms with
      | Some (JArray categories) => forallb is_category categories
      | _ => false
      end
  | _ => false
  end.

End GeminiService.

(** ** components/TopicSorter.tsx *)

Module TopicSorter.

Import JSON GeminiService.

(** What the state [categories] can hold at run time: the annotation says an
    array of categories; the handler stores [result.categories] as it finds
    it, which is [undefined] when the result has no such member. *)
Inductive stored := Undefined | Value (j : json).

Record State := {
  inputText : jsstring;
  categories : stored;
  loading : bool;
  error : option jsstring
}.

(** What the [catch] of [handleSort] can receive: what the service threw, or
    the TypeError of reading [.categories] of [null]. *)
Inductive caught := Thrown (e : exn) | TypeError.

(** The texts the engine gives the errors it raises itself. *)
Record Engine := { syntax_error_message : jsstring; type_error_message : jsstring }.

(** [err.message] *)
Definition message (engine : Engine) (err : caught) : jsstring :=
  match err with
  | Thrown (Error m) | Thrown (ServiceError m) => m
  | Thrown SyntaxError => syntax_error_message engine
  | TypeError => type_error_message engine
  end.

(** [result.categories] *)
Definition get_categories (result : json) : caught + stored :=
  match result with
  | JNull => inl TypeError
  | JObject ms =>
      inr (match member (js "categories") ms with
           | Some v => Value v
           | None => Undefined
           end)
  | JBool _ | JNumber _ | JString _ | JArray _ => inr Undefined
  end.

(** What a run of [handleSort] leaves behind: the state after it, the state
    while the request was awaited (when one was sent), the requests sent,
    the errors logged, and whether [onOpenSettings] was called. *)
Record Effects := {
  final : State;
  waiting : option State;
  requests : list Request;
  console : list exn;
  settingsOpened : bool
}.

(** The body of the [try] block: the effects of the service call and what
    the block ends with. *)
Definition attempt (backend : Request → settled) (apiKey : jsstring)
    (titles : list jsstring) : list Request * list exn * (caught + stored) :=
  if bool_decide (length titles < 2)%nat then
    ([], [], inl (Thrown (Error (js "Please enter at least 2 titles to categorize."))))
  else
    let r := run backend (categorizeTitles titles apiKey) in
    (sent r, logged r,
     match outcome r with
     | inr e => inl (Thrown e)
     | inl result => get_categories result
     end).

(** [handleSort] *)
Definition handleSort (engine : Engine) (backend : Request → settled)
    (apiKey : jsstring) (st : State) : Effects :=
  if blank (inputText st) then
    {| final := st; waiting := None; requests := []; console := [];
       settingsOpened := false |}
  else if bool_decide (apiKey = []) then
    {| final := {| inputText := inputText st; categories := categories st;
                   loading := loading st;
                   error := Some (js "Please add your Gemini API Key in settings first.") |};
       waiting := None; requests := []; console := []; settingsOpened := true |}
  else
    let started := {| inputText := inputText st; categories := Value (JArray []);
                      loading := true; error := None |} in
    let titles := lines_of (inputText st) in
    let tried := attempt backend apiKey titles in
    let settled_state :=
      match tried.2 with
      | inr found =>
          {| inputText := inputText st; categories := found;
             loading := false; error := None |}
      | inl err =>
          {| inputText := inputText st; categories := Value (JArray []);
             loading := false;
             error := Some (if bool_decide (message engine err ≠ [])
                            then message engine err
                            else js "Failed to categorize titles.") |}
      end in
    {| final := settled_state;
       waiting := match tried.1.1 with [] => None | _ :: _ => Some started end;
       requests := tried.1.1; console := tried.1.2; settingsOpened := false |}.

(** [copyCategory]: the text handed to the clipboard. *)
Definition copyCategory (items : list jsstring) : jsstring := join_lf items.

End TopicSorter.

(** ** App.tsx *)

Module App.

(** Modelled from the spec: types.ts is not among the sources; the enum
    follows the four members the App uses. *)
Inductive ViewMode := ANALYZER | COMPARATOR | TOPICS | BATCHER.

Definition ADMIN_PASSWORD : jsstring := js "hc1".

Record State := {
  currentView : ViewMode;
  mobileMenuOpen : bool;
  apiKey : jsstring;
  isKeyModalOpen : bool;
  tempKey : jsstring;
  showKey : bool;
  isAIUnlocked : bool;
  isPasswordModalOpen : bool;
  passwordInput : jsstring;
  passwordError : bool
}.

(** The component state together with the item horizon_gemini_key of
    [localStorage]. *)
Record World := { ui : State; storage : option jsstring }.

(** The state of the first render. *)
Definition initial : State :=
  {| currentView := ANALYZER; mobileMenuOpen := false; apiKey := [];
     isKeyModalOpen := false; tempKey := []; showKey := false;
     isAIUnlocked := false; isPasswordModalOpen := false; passwordInput := [];
     passwordError := false |}.

Definition setCurrentView (v : ViewMode) (s : State) : State :=
  {| currentView := v; mobileMenuOpen := mobileMenuOpen s; apiKey := apiKey s;
     isKeyModalOpen := isKeyModalOpen s; tempKey := tempKey s; showKey := showKey s;
     isAIUnlocked := isAIUnlocked s; isPasswordModalOpen := isPasswordModalOpen s;
     passwordInput := passwordInput s; passwordError := passwordError s |}.

Definition setMobileMenuOpen (v : bool) (s : State) : State :=
  {| currentView := currentView s; mobileMenuOpen := v; apiKey := apiKey s;
     isKeyModalOpen := isKeyModalOpen s; tempKey := tempKey s; showKey := showKey s;
     isAIUnlocked := isAIUnlocked s; isPasswordModalOpen := isPasswordModalOpen s;
     passwordInput := passwordInput s; passwordError := passwordError s |}.

Definition setApiKey (v : jsstring) (s : State) : State :=
  {| currentView := currentView s; mobileMenuOpen := mobileMenuOpen s; apiKey := v;
     isKeyModalOpen := isKeyModalOpen s; tempKey := tempKey s; showKey := showKey s;
     isAIUnlocked := isAIUnlocked s; isPasswordModalOpen := isPasswordModalOpen s;
     passwordInput := passwordInput s; passwordError := passwordError s |}.

Definition setIsKeyModalOpen (v : bool) (s : State) : State :=
  {| currentView := currentView s; mobileMenuOpen := mobileMenuOpen s; apiKey := apiKey s;
     isKeyModalOpen := v; tempKey := tempKey s; showKey := showKey s;
     isAIUnlocked := isAIUnlocked s; isPasswordModalOpen := isPasswordModalOpen s;
     passwordInput := passwordInput s; passwordError := passwordError s |}.

Definition setTempKey (v : jsstring) (s : State) : State :=
  {| currentView := currentView s; mobileMenuOpen := mobileMenuOpen s; apiKey := apiKey s;
     isKeyModalOpen := isKeyModalOpen s; tempKey := v; showKey := showKey s;
     isAIUnlocked := isAIUnlocked s; isPasswordModalOpen := isPasswordModalOpen s;
     passwordInput := passwordInput s; passwordError := passwordError s |}.

Definition setShowKey (v : bool) (s : State) : State :=
  {| currentView := currentView s; mobileMenuOpen := mobileMenuOpen s; apiKey := apiKey s;
     isKeyModalOpen := isKeyModalOpen s; tempKey := tempKey s; showKey := v;
     isAIUnlocked := isAIUnlocked s; isPasswordModalOpen := isPasswordModalOpen s;
     passwordInput := passwordInput s; passwordError := passwordError s |}.

Definition setIsAIUnlocked (v : bool) (s : State) : State :=
  {| currentView := currentView s; mobileMenuOpen := mobileMenuOpen s; apiKey := apiKey s;
     isKeyModalOpen := isKeyModalOpen s; tempKey := tempKey s; showKey := showKey s;
     isAIUnlocked := v; isPasswordModalOpen := isPasswordModalOpen s;
     passwordInput := passwordInput s; passwordError := passwordError s |}.

Definition setIsPasswordModalOpen (v : bool) (s : State) : State :=
  {| currentView := currentView s; mobileMenuOpen := mobileMenuOpen s; apiKey := apiKey s;
     isKeyModalOpen := isKeyModalOpen s; tempKey := tempKey s; showKey := showKey s;
     isAIUnlocked := isAIUnlocked s; isPasswordModalOpen := v;
     passwordInput := passwordInput s; passwordError := passwordError s |}.

Definition setPasswordInput (v : jsstring) (s : State) : State :=
  {| currentView := currentView s; mobileMenuOpen := mobileMenuOpen s; apiKey := apiKey s;
     isKeyModalOpen := isKeyModalOpen s; tempKey := tempKey s; showKey := showKey s;
     isAIUnlocked := isAIUnlocked s; isPasswordModalOpen := isPasswordModalOpen s;
     passwordInput := v; passwordError := passwordError s |}.

Definition setPasswordError (v : bool) (s : State) : State :=
  {| currentView := currentView s; mobileMenuOpen := mobileMenuOpen s; apiKey := apiKey s;
     isKeyModalOpen := isKeyModalOpen s; tempKey := tempKey s; showKey := showKey s;
     isAIUnlocked := isAIUnlocked s; isPasswordModalOpen := isPasswordModalOpen s;
     passwordInput := passwordInput s; passwordError := v |}.

(** The effect run once on mount: [if (storedKey) setApiKey(storedKey)]. *)
Definition mount (w : World) : World :=
  match storage w with
  | Some storedKey =>
      if bool_decide (storedKey ≠ [])
      then {| ui := setApiKey storedKey (ui w); storage := storage w |}
      else w
  | None => w
  end.

Definition handleSaveKey (w : World) : World :=
  let s := ui w in
  if negb (blank (tempKey s)) then
    {| ui := setTempKey [] (setIsKeyModalOpen false (setApiKey (trim (tempKey s)) s));
       storage := Some (trim (tempKey s)) |}
  else w.

Definition handleClearKey (w : World) : World :=
  {| ui := setIsKeyModalOpen false (setApiKey [] (ui w)); storage := None |}.

Definition openSettings (w : World) : World :=
  let s := ui w in
  {| ui := setMobileMenuOpen false (setIsKeyModalOpen true (setTempKey (apiKey s) s));
     storage := storage w |}.

(** The click on a navigation item in the App without the password lock. *)
Definition navItemClick (mode : ViewMode) (w : World) : World :=
  {| ui := setMobileMenuOpen false (setCurrentView mode (ui w)); storage := storage w |}.

(** [handleNavClick] of the App with the password lock. *)
Definition handleNavClick (mode : ViewMode) (w : World) : World :=
  let s := ui w in
  if match mode with TOPICS => true | _ => false end && negb (isAIUnlocked s) then
    {| ui := setMobileMenuOpen false (setIsPasswordModalOpen true s); storage := storage w |}
  else
    {| ui := setMobileMenuOpen false (setCurrentView mode s); storage := storage w |}.

(** [handlePasswordSubmit] *)
Definition handlePasswordSubmit (w : World) : World :=
  let s := ui w in
  if bool_decide (passwordInput s = ADMIN_PASSWORD) then
    {| ui := setPasswordError false
               (setPasswordInput []
                  (setCurrentView TOPICS
                     (setIsPasswordModalOpen false (setIsAIUnlocked true s))));
       storage := storage w |}
  else {| ui := setPasswordError true s; storage := storage w |}.

(** What the user can do in the App with the password lock; each is one of
    its event handlers. *)
Inductive Event :=
  | NavClick (mode : ViewMode)
  | PasswordSubmit
  | PasswordChange (value : jsstring)
  | ClosePasswordModal
  | OpenSettings
  | TempKeyChange (value : jsstring)
  | ToggleShowKey
  | CloseKeyModal
  | SaveKey
  | ClearKey
  | ToggleMenu
  | CloseMenu.

Definition on_ui (f : State → State) (w : World) : World :=
  {| ui := f (ui w); storage := storage w |}.

Definition step (w : World) (e : Event) : World :=
  match e with
  | NavClick mode => handleNavClick mode w
  | PasswordSubmit => handlePasswordSubmit w
  | PasswordChange value =>
      on_ui (λ s, setPasswordError false (setPasswordInput value s)) w
  | ClosePasswordModal => on_ui (setIsPasswordModalOpen false) w
  | OpenSettings => openSettings w
  | TempKeyChange value => on_ui (setTempKey value) w
  | ToggleShowKey => on_ui (λ s, setShowKey (negb (showKey s)) s) w
  | CloseKeyModal => on_ui (setIsKeyModalOpen false) w
  | SaveKey => handleSaveKey w
  | ClearKey => handleClearKey w
  | ToggleMenu => on_ui (λ s, setMobileMenuOpen (negb (mobileMenuOpen s)) s) w
  | CloseMenu => on_ui (setMobileMenuOpen false) w
  end.

(** The App after mounting on a browser whose storage holds [stored] and
    then handling the events in turn. *)
Definition session (stored : option jsstring) (events : list Event) : World :=
  foldl step (mount {| ui := initial; storage := stored |}) events.

End App.

(** ** Vocabulary of the properties *)

(** Strictly ascending in code-unit order. *)
Definition string_lt (a b : jsstring) : Prop := compare_strings a b = Lt.

(** The order of the output of a stable sort whose input is ordered by [R]:
    [x] comes before [y] only if the comparator allows it, and where the
    comparator ties the two, the order [R] of the input decides. *)
Definition sorted_then {A} (before : A → A → bool) (R : relation A) (x y : A) : Prop :=
  before x y = true ∧ (before y x = true → R x y).

(** The integer a string of code units denotes as a decimal numeral with an
    optional minus sign. *)
Fixpoint to_string (s : jsstring) : string :=
  match s with
  | [] => EmptyString
  | c :: s' => String (ascii_of_N c) (to_string s')
  end.

Definition decimal_value (s : jsstring) : option Z :=
  Z.of_int <$> NilZero.int_of_string (to_string s).

(** A capital letter A..Z. *)
Definition is_upper (c : N) : Prop := (65 <= c <= 90)%N.

(** The value of a string of capital letters read in bijective base 26:
    A = 1, ..., Z = 26, AA = 27, ... *)
Definition bijective26 (label : jsstring) : Z :=
  foldl (λ acc c, 26 * acc + (Z.of_N c - 64)) 0 label.

(** How often [k] occurs among the lines. *)
Definition occurrences (k : jsstring) (lines : list jsstring) : Z :=
  Z.of_nat (length (filter (λ l, l = k) lines)).

(** The position of the first occurrence of [k]. *)
Fixpoint first_index (k : jsstring) (lines : list jsstring) : option nat :=
  match lines with
  | [] => None
  | l :: lines' => if bool_decide (l = k) then Some 0%nat else S <$> first_index k lines'
  end.

(** [k1] is first met before [k2] is. *)
Definition earlier (lines : list jsstring) (k1 k2 : jsstring) : Prop :=
  match first_index k1 lines, first_index k2 lines with
  | Some i, Some j => (i < j)%nat
  | _, _ => False
  end.

(** The order in which an object lists its keys: array indices in ascending
    numeric order, then the other keys in the order they were first met. *)
Definition key_precedes (lines : list jsstring) (k1 k2 : jsstring) : Prop :=
  match Analyzer.array_index k1, Analyzer.array_index k2 with
  | Some a, Some b => (a < b)%N
  | Some _, None => True
  | None, Some _ => False
  | None, None => earlier lines k1 k2
  end.

(** Two rows of a frequency table in order: the count decreases, or it
    stays and [tie] orders the titles. *)
Definition rows_ordered (tie : relation jsstring) (a b : Analyzer.FrequencyItem) : Prop :=
  ∃ ca cb, Analyzer.count a = Analyzer.Num ca ∧ Analyzer.count b = Analyzer.Num cb
    ∧ (cb < ca ∨ (ca = cb ∧ tie (Analyzer.title a) (Analyzer.title b))).

(** A line that is not the name of a property inherited from
    [Object.prototype]. *)
Definition plain_line (line : jsstring) : Prop := Analyzer.Object_prototype line = None.

(** The object that pairs each key, in the given order, with [f] of it. *)
Definition tabulate (f : jsstring → Analyzer.prim) (keys : list jsstring)
    : Analyzer.object :=
  (λ k, (k, f k)) <$> keys.

(** The row [Object.entries(...).map(([title, count]) => ({ title, count }))]
    makes of an entry. *)
Definition row (e : jsstring * Analyzer.prim) : Analyzer.FrequencyItem :=
  {| Analyzer.title := e.1; Analyzer.count := e.2 |}.

(** The sum of the counts of a table; a count that is not a number adds
    nothing. *)
Definition count_sum (table : list Analyzer.FrequencyItem) : Z :=
  foldr (λ item acc, match Analyzer.count item with
                     | Analyzer.Num n => n + acc
                     | _ => acc
                     end) 0 table.

(** What a slot of the frequency object holds: a count of at least one, or
    a text that begins with the word function. *)
Definition slot_ok (p : Analyzer.prim) : Prop :=
  match p with
  | Analyzer.Num n => 1 ≤ n
  | Analyzer.Str s => ∃ rest, s = js "function " ++ rest
  | Analyzer.NaN => False
  end.

(** A line as the normalizer leaves it: not empty, without line feed, and
    with nothing for [trim] to remove. *)
Definition normal_line (l : jsstring) : Prop := l ≠ [] ∧ (LF ∉ l) ∧ trim l = l.

(** The scanner of [JSON.parse] run from a given state, and its stack
    machine run from a given state. *)
Definition scan_from (state : option (JSON.scanning * list JSON.token))
    (text : jsstring) : option (JSON.scanning * list JSON.token) :=
  foldl (λ st c, st ≫= λ st, JSON.scan_step st c) state text.

Definition parse_from (state : option (list JSON.frame * JSON.expecting))
    (tokens : list JSON.token) : option (list JSON.frame * JSON.expecting) :=
  foldl (λ st t, st ≫= λ st, JSON.parse_step st t) state tokens.

(** The tokens between the brackets of an array of strings. *)
Fixpoint string_tokens (arr : list jsstring) : list JSON.token :=
  match arr with
  | [] => []
  | [s] => [JSON.TScalar (JSON.JString s)]
  | s :: rest => JSON.TScalar (JSON.JString s) :: JSON.TComma :: string_tokens rest
  end.

(** * Properties *)

(** ** Strings and their order *)

Section StringOrder.

Lemma compare_strings_refl a : compare_strings a a = Eq.
Proof. induction a as [|x a IH]; simpl; [done|]. by rewrite N.compare_refl. Qed.

Lemma compare_strings_eq a b : compare_strings a b = Eq → a = b.
Proof.
  revert b; induction a as [|x a IH]; intros [|y b]; simpl; try done.
  destruct (x ?= y)%N eqn:E; try done.
  apply N.compare_eq in E. intros ?%IH. by subst.
Qed.

Lemma compare_strings_antisym a b :
  compare_strings b a = CompOpp (compare_strings a b).
Proof.
  revert b; induction a as [|x a IH]; intros [|y b]; simpl; try done.
  rewrite (N.compare_antisym x y). destruct (x ?= y)%N; simpl; auto.
Qed.

Lemma compare_strings_lt_trans a b c :
  compare_strings a b = Lt → compare_strings b c = Lt → compare_strings a c = Lt.
Proof.
  revert b c; induction a as [|x a IH]; intros [|y b] [|z c]; simpl; try done.
  destruct (x ?= y)%N eqn:Exy; try done; destruct (y ?= z)%N eqn:Eyz; try done.
  - apply N.compare_eq in Exy, Eyz. subst. rewrite N.compare_refl. apply IH.
  - apply N.compare_eq in Exy. subst. by rewrite Eyz.
  - apply N.compare_eq in Eyz. subst. by rewrite Exy.
  - intros _ _. rewrite N.compare_lt_iff in Exy, Eyz.
    assert (x < z)%N as ->%N.compare_lt_iff by lia. done.
Qed.

Global Instance string_lt_trans : Transitive string_lt.
Proof. intros a b c. apply compare_strings_lt_trans. Qed.

Lemma string_lt_asym a b : string_lt a b → string_lt b a → False.
Proof.
  unfold string_lt. intros Hab Hba.
  rewrite (compare_strings_antisym a b), Hab in Hba. done.
Qed.

Lemma string_le_total a b : string_le a b = true ∨ string_le b a = true.
Proof.
  unfold string_le. rewrite (compare_strings_antisym a b).
  destruct (compare_strings a b); auto.
Qed.

Lemma string_le_trans a b c :
  string_le a b = true → string_le b c = true → string_le a c = true.
Proof.
  unfold string_le.
  destruct (compare_strings a b) eqn:Eab; try done;
    destruct (compare_strings b c) eqn:Ebc; try done; intros _ _.
  - apply compare_strings_eq in Eab, Ebc. subst. by rewrite compare_strings_refl.
  - apply compare_strings_eq in Eab. subst. by rewrite Ebc.
  - apply compare_strings_eq in Ebc. subst. by rewrite Eab.
  - by rewrite (compare_strings_lt_trans _ _ _ Eab Ebc).
Qed.

Lemma string_le_lt a b : string_le a b = true → a ≠ b → string_lt a b.
Proof.
  unfold string_le, string_lt. destruct (compare_strings a b) eqn:E; try done.
  apply compare_strings_eq in E. done.
Qed.

End StringOrder.

(** ** The normalizer *)

Section NormalizerFacts.

Lemma drop_white_nil s : drop_white s = [] ↔ Forall (λ c, is_white c = true) s.
Proof.
  induction s as [|c s IH]; simpl; [by split; [constructor|]|].
  destruct (is_white c) eqn:E.
  - rewrite IH, Forall_cons. tauto.
  - rewrite Forall_cons, E. split; [done|]. by intros [? _].
Qed.

Lemma drop_white_head s c r : drop_white s = c :: r → is_white c = false.
Proof.
  induction s as [|d s IH]; simpl; [done|].
  destruct (is_white d) eqn:E; [done|]. by intros [= <- _].
Qed.

Lemma trim_nil s : trim s = [] ↔ Forall (λ c, is_white c = true) s.
Proof.
  unfold trim. split.
  - intros H.
    assert (drop_white (reverse (drop_white s)) = []) as H'.
    { apply length_zero_iff_nil. by rewrite <-length_reverse, H. }
    rewrite drop_white_nil, Forall_reverse in H'.
    destruct (drop_white s) as [|c r] eqn:E; [by apply drop_white_nil|].
    apply drop_white_head in E. rewrite Forall_cons in H'. destruct H' as [Hc _].
    congruence.
  - intros H. apply drop_white_nil in H. by rewrite H.
Qed.

Lemma split_lf_white s :
  Forall (Forall (λ c, is_white c = true)) (split_lf s) ↔ Forall (λ c, is_white c = true) s.
Proof.
  induction s as [|c s IH]; simpl.
  { split; intros _; repeat constructor. }
  destruct (N.eqb_spec c LF) as [->|Hc].
  - rewrite !Forall_cons, IH. split; [intros [_ ?]; by split|intros [_ ?]; by split].
  - destruct (split_lf s) as [|piece pieces].
    + assert (Forall (λ c, is_white c = true) s) as Hs by (apply IH; constructor).
      rewrite !Forall_cons. split; [intros [[? _] _]; by split|].
      intros [? _]. repeat split; [done|constructor..].
    + rewrite !Forall_cons in *. rewrite <-IH. tauto.
Qed.

(** A text has no lines exactly when it is blank. *)
Lemma lines_of_nil text : lines_of text = [] ↔ blank text = true.
Proof.
  unfold blank, lines_of. rewrite bool_decide_eq_true, trim_nil, <-split_lf_white.
  induction (split_lf text) as [|piece pieces IH]; [by split; [constructor|]|].
  rewrite fmap_cons, Forall_cons, <-IH, <-trim_nil.
  destruct (decide (trim piece = [])) as [E|E].
  - rewrite filter_cons_False by (intros ?; done). tauto.
  - rewrite filter_cons_True by done. split; [done|]. by intros [? _].
Qed.

End NormalizerFacts.

(** ** [Array.prototype.sort] *)

Section SortFacts.
Context {A : Type} (before : A → A → bool).

Lemma insert_sorted_perm x l : insert_sorted before x l ≡ₚ x :: l.
Proof.
  induction l as [|y l IH]; simpl; [done|].
  destruct (before x y); [done|]. rewrite IH. apply Permutation_swap.
Qed.

Lemma Array_sort_perm l : Array_sort before l ≡ₚ l.
Proof.
  induction l as [|x l IH]; simpl; [done|].
  by rewrite insert_sorted_perm, IH.
Qed.

Lemma Array_sort_length l : length (Array_sort before l) = length l.
Proof. by rewrite Array_sort_perm. Qed.

Lemma Array_sort_elem_of x l : x ∈ Array_sort before l ↔ x ∈ l.
Proof. by rewrite Array_sort_perm. Qed.

(** Stability. On elements that satisfy [P] the comparator is total and
    transitive. If the input is ordered by [R], the output is ordered by
    [sorted_then before R]. *)
Context (P : A → Prop) (R : relation A).
Context (before_total : ∀ x y, P x → P y → before x y = true ∨ before y x = true).
Context (before_trans : ∀ x y z, P x → P y → P z →
  before x y = true → before y z = true → before x z = true).

Lemma insert_sorted_stable x l :
  P x → Forall P l → Forall (R x) l →
  StronglySorted (sorted_then before R) l →
  StronglySorted (sorted_then before R) (insert_sorted before x l).
Proof.
  intros Px HP HR Hl. induction Hl as [|y l Hl IH Hy]; simpl.
  { repeat constructor. }
  apply Forall_cons in HP as [Py HP]. apply Forall_cons in HR as [Rxy HR].
  destruct (before x y) eqn:Exy.
  - constructor; [by constructor|]. constructor; [by split|].
    rewrite Forall_forall in Hy, HR, HP |- *. intros z Hz.
    split; [|auto]. eapply (before_trans x y z); auto. by apply Hy.
  - constructor; [by apply IH|].
    rewrite (insert_sorted_perm x l). constructor; [|done].
    split; [|by rewrite Exy]. destruct (before_total x y); congruence.
Qed.

Lemma Array_sort_stable l :
  Forall P l → StronglySorted R l →
  StronglySorted (sorted_then before R) (Array_sort before l).
Proof.
  intros HP Hl. induction Hl as [|x l Hl IH Hx]; simpl; [constructor|].
  apply Forall_cons in HP as [Px HP].
  apply insert_sorted_stable; auto; by rewrite Array_sort_perm.
Qed.

End SortFacts.

Lemma sort_strings_perm l : sort_strings l ≡ₚ l.
Proof. apply Array_sort_perm. Qed.

(** Sorting distinct strings gives a strictly ascending list. *)
Lemma sort_strings_sorted l : NoDup l → StronglySorted string_lt (sort_strings l).
Proof.
  intros Hl.
  assert (StronglySorted (sorted_then string_le (λ _ _, True)) (sort_strings l)) as H.
  { apply (Array_sort_stable string_le (λ _, True)).
    - intros; apply string_le_total.
    - intros x y z _ _ _. apply string_le_trans.
    - by apply Forall_true.
    - clear Hl. induction l; constructor; [done|]. by apply Forall_true. }
  assert (NoDup (sort_strings l)) as Hnd by by rewrite sort_strings_perm.
  induction H as [|x k Hk IH Hx]; [constructor|].
  apply NoDup_cons in Hnd as [Hxk Hnd]. constructor; [by apply IH|].
  rewrite Forall_forall in Hx |- *. intros y Hy.
  apply string_le_lt; [apply Hx, Hy|]. intros ->. done.
Qed.

(** Two strictly ascending lists with the same elements are equal. *)
Lemma string_lt_sorted_unique l k :
  StronglySorted string_lt l → StronglySorted string_lt k → l ≡ₚ k → l = k.
Proof.
  apply StronglySorted_unique_strong. intros x y _ _ Hxy Hyx.
  destruct (string_lt_asym _ _ Hxy Hyx).
Qed.

(** ** [Set] *)

Section SetFacts.

Lemma foldl_Set_add_elem_of x s l :
  x ∈ foldl Set_add s l ↔ x ∈ s ∨ x ∈ l.
Proof.
  revert s; induction l as [|y l IH]; intros s; simpl.
  { rewrite elem_of_nil. tauto. }
  rewrite IH. unfold Set_add. case_bool_decide; set_solver.
Qed.

Lemma foldl_Set_add_NoDup s l : NoDup s → NoDup (foldl Set_add s l).
Proof.
  revert s; induction l as [|y l IH]; intros s Hs; simpl; [done|].
  apply IH. unfold Set_add. case_bool_decide; [done|].
  apply NoDup_app. split_and!; [done| |apply NoDup_singleton]. set_solver.
Qed.

Lemma new_Set_elem_of x l : x ∈ new_Set l ↔ x ∈ l.
Proof. unfold new_Set. rewrite foldl_Set_add_elem_of. set_solver. Qed.

Lemma new_Set_NoDup l : NoDup (new_Set l).
Proof. apply foldl_Set_add_NoDup. constructor. Qed.

Lemma new_Set_snoc l x : new_Set (l ++ [x]) = Set_add (new_Set l) x.
Proof. unfold new_Set. by rewrite foldl_snoc. Qed.

Lemma new_Set_nil_inv l : new_Set l = [] → l = [].
Proof.
  intros H. destruct l as [|x l]; [done|].
  assert (x ∈ new_Set (x :: l)) as Hx by (apply new_Set_elem_of; left).
  rewrite H in Hx. by apply elem_of_nil in Hx.
Qed.

End SetFacts.

(** ** Batcher: the partition *)

Section BatcherFacts.
Import Batcher.

Lemma slice_take_drop {A} (l : list A) (i s : Z) :
  0 ≤ i → 0 ≤ s → slice l i (i + s) = take (Z.to_nat s) (drop (Z.to_nat i) l).
Proof.
  intros Hi Hs. unfold slice, relative_index.
  destruct (Z.ltb_spec i 0), (Z.ltb_spec (i + s) 0); try lia.
  destruct (Z.le_gt_cases i (Z.of_nat (length l))) as [Hle|Hgt].
  - rewrite (Z.min_l i) by done.
    destruct (Z.le_gt_cases (i + s) (Z.of_nat (length l))).
    + rewrite Z.min_l by done. do 2 f_equal. lia.
    + rewrite Z.min_r by lia.
      rewrite !take_ge; [done|rewrite length_drop; lia..].
  - rewrite !Z.min_r by lia.
    rewrite !drop_ge by lia. by rewrite !take_nil.
Qed.

Lemma ceil_div_bounds (a b : Z) :
  0 < b → a ≤ b * ceil_div a b ∧ b * (ceil_div a b - 1) < a.
Proof.
  intros Hb. unfold ceil_div.
  pose proof (Z.div_mod (- a) b ltac:(lia)).
  pose proof (Z.mod_pos_bound (- a) b Hb). nia.
Qed.

(** What the loop appends when it runs from position [i] with enough fuel. *)
Lemma batch_loop_spec (lines : list jsstring) (s : Z) :
  1 ≤ s →
  ∀ (fuel : nat) (i : Z) (sets : list BatchSet),
    0 ≤ i → (Z.to_nat (Z.of_nat (length lines) - i) < fuel)%nat →
    ∃ out,
      batch_loop fuel lines s i sets = Some (sets ++ out)
      ∧ concat (items <$> out) = drop (Z.to_nat i) lines
      ∧ (∀ k b, out !! k = Some b →
           id b = Z.of_nat (length sets + k)
           ∧ items b ≠ []
           ∧ Z.of_nat (length (items b)) ≤ s
           ∧ ((S k < length out)%nat → Z.of_nat (length (items b)) = s))
      ∧ (out ≠ [] → i + (Z.of_nat (length out) - 1) * s < Z.of_nat (length lines))
      ∧ (Z.of_nat (length lines) ≤ i → out = []).
Proof.
  intros Hs. induction fuel as [|fuel IH]; intros i sets Hi Hfuel; [lia|].
  simpl. destruct (Z.ltb_spec i (Z.of_nat (length lines))) as [Hlt|Hge].
  - remember {| id := Z.of_nat (length sets); items := slice lines i (i + s) |}
      as b eqn:Eb.
    destruct (IH (i + s) (sets ++ [b])) as (out & Hrun & Hcat & Hall & Hlast & Hnone);
      [lia..|].
    assert (id b = Z.of_nat (length sets)) as Hidb by (by subst b).
    assert (items b = take (Z.to_nat s) (drop (Z.to_nat i) lines)) as Hb
      by (subst b; apply slice_take_drop; lia).
    clear Eb.
    assert (length (items b) = Z.to_nat s `min` (length lines - Z.to_nat i))%nat as Hlen
      by (by rewrite Hb, length_take, length_drop).
    exists (b :: out). split_and!.
    + rewrite Hrun. by rewrite <-(assoc_L (++)).
    + rewrite fmap_cons. simpl. rewrite Hcat, Hb.
      replace (Z.to_nat (i + s)) with (Z.to_nat i + Z.to_nat s)%nat by lia.
      rewrite <-drop_drop. apply take_drop.
    + intros [|k] b' Hk; simpl in Hk.
      * injection Hk as <-. split_and!.
        -- rewrite Hidb. f_equal. lia.
        -- intros Hnil. rewrite Hnil in Hlen. simpl in Hlen. lia.
        -- lia.
        -- simpl. intros Hout. destruct (Z.le_gt_cases (Z.of_nat (length lines)) (i + s)).
           { rewrite Hnone in Hout by done. simpl in Hout. lia. }
           lia.
      * destruct (Hall k b' Hk) as (Hid & Hne & Hle & Hfull). split_and!; try done.
        -- rewrite Hid, length_app. simpl. f_equal. lia.
        -- simpl. intros ?. apply Hfull. lia.
    + intros _. destruct out as [|b' out']; simpl; [lia|].
      specialize (Hlast ltac:(done)). simpl in Hlast. nia.
    + lia.
  - exists []. rewrite (right_id_L [] (++)). split_and!; try done.
    simpl. rewrite drop_ge; [done|lia].
Qed.

Lemma setSize_of_pos mode n lines :
  lines ≠ [] → 1 ≤ setSize_of mode n lines.
Proof.
  intros Hne. destruct mode; simpl; [lia|].
  assert (0 < length lines)%nat by (destruct lines; simpl; [done|lia]).
  pose proof (ceil_div_bounds (Z.of_nat (length lines)) (Z.max 1 n) ltac:(lia)). nia.
Qed.

(** The partition [processedData] returns on enough fuel, in one statement
    about the lines of the text. *)
Lemma processedData_spec (fuel : nat) (raw : jsstring) (mode : SplitMode) (n : Z) :
  (length (lines_of raw) < fuel)%nat →
  ∃ p, processedData fuel raw mode n = Some p
    ∧ totalItems p = Z.of_nat (length (lines_of raw))
    ∧ concat (items <$> sets p) = lines_of raw
    ∧ (∀ k b, sets p !! k = Some b →
         id b = Z.of_nat k ∧ items b ≠ []
         ∧ Z.of_nat (length (items b)) ≤ setSize_of mode n (lines_of raw)
         ∧ ((S k < length (sets p))%nat →
            Z.of_nat (length (items b)) = setSize_of mode n (lines_of raw)))
    ∧ (sets p ≠ [] →
       (Z.of_nat (length (sets p)) - 1) * setSize_of mode n (lines_of raw)
       < Z.of_nat (length (lines_of raw)))
    ∧ (lines_of raw = [] → sets p = []).
Proof.
  intros Hfuel. unfold processedData. case_bool_decide as Hlen.
  - apply length_zero_iff_nil in Hlen. rewrite Hlen. eexists. split; [done|].
    simpl. split_and!; done.
  - assert (lines_of raw ≠ []) as Hne by (by intros E; rewrite E in Hlen).
    pose proof (setSize_of_pos mode n _ Hne) as Hs.
    destruct (batch_loop_spec (lines_of raw) _ Hs fuel 0 [])
      as (out & Hrun & Hcat & Hall & Hlast & Hnone); [lia..|].
    simpl in Hrun. rewrite Hrun. simpl. eexists. split; [done|]. simpl.
    split_and!; try done.
Qed.

(** C1 (as amended). For every raw text, mode and number [n], with fuel
    beyond the number of lines, [processedData] returns a partition of the
    normalized lines: concatenating the items of the sets in order gives the
    lines back; the set at position [k] has id [k] and is not empty; under
    Capacity every set but the last has exactly [max 1 n] items; under
    FixedCount there are at most [max 1 n] sets; and no lines give no set. *)
Theorem C1_partition_complete (fuel : nat) (raw : jsstring) (mode : SplitMode) (n : Z) :
  (length (lines_of raw) < fuel)%nat →
  ∃ p, processedData fuel raw mode n = Some p
    ∧ concat (items <$> sets p) = lines_of raw
    ∧ (∀ k b, sets p !! k = Some b → id b = Z.of_nat k ∧ items b ≠ [])
    ∧ (mode = size → ∀ k b, sets p !! k = Some b → (S k < length (sets p))%nat →
         Z.of_nat (length (items b)) = Z.max 1 n)
    ∧ (mode = count → Z.of_nat (length (sets p)) ≤ Z.max 1 n)
    ∧ (lines_of raw = [] → sets p = []).
Proof.
  intros Hfuel.
  destruct (processedData_spec fuel raw mode n Hfuel)
    as (p & Hrun & _ & Hcat & Hall & Hlast & Hnone).
  exists p. split_and!; try done.
  - intros k b Hk. destruct (Hall k b Hk) as (? & ? & _). done.
  - intros -> k b Hk Hlt. destruct (Hall k b Hk) as (_ & _ & _ & Hfull). by apply Hfull.
  - intros ->. destruct (decide (sets p = [])) as [->|Hne]; [simpl; lia|].
    specialize (Hlast Hne). simpl in Hlast.
    assert (lines_of raw ≠ []) as Hlines by (intros E; by apply Hne, Hnone).
    assert (0 < length (lines_of raw))%nat
      by (destruct (lines_of raw); simpl; [done|lia]).
    pose proof (ceil_div_bounds (Z.of_nat (length (lines_of raw))) (Z.max 1 n) ltac:(lia)).
    nia.
Qed.

Lemma C1_partition_complete_witness :
  (length (lines_of (js "a" ++ [LF] ++ js "b" ++ [LF] ++ js "c")) < 4)%nat
  ∧ ∃ p, processedData 4 (js "a" ++ [LF] ++ js "b" ++ [LF] ++ js "c") size 2 = Some p
    ∧ concat (items <$> sets p) = lines_of (js "a" ++ [LF] ++ js "b" ++ [LF] ++ js "c")
    ∧ (∀ k b, sets p !! k = Some b → id b = Z.of_nat k ∧ items b ≠ [])
    ∧ (size = size → ∀ k b, sets p !! k = Some b → (S k < length (sets p))%nat →
         Z.of_nat (length (items b)) = Z.max 1 2)
    ∧ (size = count → Z.of_nat (length (sets p)) ≤ Z.max 1 2)
    ∧ (lines_of (js "a" ++ [LF] ++ js "b" ++ [LF] ++ js "c") = [] → sets p = []).
Proof.
  split; [vm_compute; lia|].
  apply (C1_partition_complete 4 (js "a" ++ [LF] ++ js "b" ++ [LF] ++ js "c") size 2).
  vm_compute; lia.
Defined.

(** C1 as stated fails under FixedCount(0): one line gives one set, and one
    is not at most zero. *)
Lemma C1_fixed_count_zero :
  ∃ p, processedData 2 (js "a") count 0 = Some p
     ∧ ¬ (Z.of_nat (length (sets p)) ≤ 0).
Proof. eexists. split; [vm_compute; reflexivity|]. simpl. lia. Qed.

(** *** Labels *)

Lemma bijective26_snoc ds c :
  bijective26 (ds ++ [c]) = 26 * bijective26 ds + (Z.of_N c - 64).
Proof. unfold bijective26. by rewrite foldl_snoc. Qed.

Lemma getAlphaLabel_loop_spec (fuel : nat) :
  ∀ (i : Z) (label : jsstring), 0 ≤ i → (Z.to_nat i < fuel)%nat →
    ∃ ds, getAlphaLabel_loop fuel i label = Some (ds ++ label)
        ∧ Forall is_upper ds ∧ bijective26 ds = i.
Proof.
  induction fuel as [|fuel IH]; intros i label Hi Hfuel; [lia|].
  cbn [getAlphaLabel_loop]. destruct (Z.gtb_spec i 0) as [Hpos|Hzero].
  - pose proof (Z.div_mod (i - 1) 26 ltac:(lia)) as Hdiv.
    pose proof (Z.mod_pos_bound (i - 1) 26 ltac:(lia)) as Hmod.
    rewrite Z.rem_mod_nonneg by lia.
    destruct (IH ((i - 1) / 26) (fromCharCode (65 + (i - 1) mod 26) ++ label))
      as (ds & Hrun & Hup & Hval); [lia..|].
    exists (ds ++ fromCharCode (65 + (i - 1) mod 26)). split_and!.
    + by rewrite Hrun, <-(assoc_L (++)).
    + apply Forall_app. split; [done|]. unfold fromCharCode.
      rewrite Z.mod_small by lia. apply Forall_singleton. unfold is_upper. lia.
    + unfold fromCharCode. rewrite Z.mod_small by lia.
      rewrite bijective26_snoc, Hval. lia.
  - exists []. split_and!; [done|constructor|]. unfold bijective26. simpl. lia.
Qed.

(** No two strings of capital letters have the same bijective base-26
    value: the label of an id is determined by [bijective26 label = id + 1]. *)
Lemma bijective26_inj l1 l2 :
  Forall is_upper l1 → Forall is_upper l2 →
  bijective26 l1 = bijective26 l2 → l1 = l2.
Proof.
  assert (∀ l, Forall is_upper l → 0 ≤ bijective26 l) as Hnonneg.
  { induction l as [|c l IH] using rev_ind; intros Hl; [done|].
    apply Forall_app in Hl as [Hl Hc]. rewrite Forall_singleton in Hc.
    rewrite bijective26_snoc. specialize (IH Hl). unfold is_upper in Hc. lia. }
  revert l2. induction l1 as [|c1 l1 IH] using rev_ind; intros l2 H1 H2 Heq.
  - destruct l2 as [|c2 l2 _] using rev_ind; [done|].
    apply Forall_app in H2 as [H2 Hc]. rewrite Forall_singleton in Hc.
    rewrite bijective26_snoc in Heq. specialize (Hnonneg _ H2).
    unfold is_upper, bijective26 in *. simpl in Heq. lia.
  - apply Forall_app in H1 as [H1 Hc1]. rewrite Forall_singleton in Hc1.
    destruct l2 as [|c2 l2 _] using rev_ind.
    + rewrite bijective26_snoc in Heq. specialize (Hnonneg _ H1).
      unfold is_upper, bijective26 in *. simpl in Heq. lia.
    + apply Forall_app in H2 as [H2 Hc2]. rewrite Forall_singleton in Hc2.
      rewrite !bijective26_snoc in Heq. unfold is_upper in *.
      assert (c1 = c2) as -> by lia.
      f_equal. apply IH; [done..|lia].
Qed.

Lemma to_string_js s : to_string (js s) = s.
Proof. induction s as [|a s IH]; simpl; [done|]. by rewrite ascii_N_embedding, IH. Qed.

(** [number_to_string n] is a decimal numeral of [n]. *)
Lemma decimal_value_number_to_string (n : Z) :
  decimal_value (number_to_string n) = Some n.
Proof.
  unfold decimal_value, number_to_string. rewrite to_string_js, NilZero.isi.
  - simpl. by rewrite DecimalZ.of_to.
  - destruct n; simpl; try done. intros [= E]. by apply DecimalPos.Unsigned.to_uint_nonnil in E.
  - destruct n; simpl; try done. intros [= E]. by apply DecimalPos.Unsigned.to_uint_nonnil in E.
Qed.

(** C8. For every set with id >= 0 (and fuel beyond the id): the numeric
    label is "Set " followed by the decimal numeral of id + 1; the alphabetic
    label is "Set " followed by the string of capital letters whose bijective
    base-26 value is id + 1; and the ids 0, 25, 26, 27, 701, 702 give A, Z,
    AA, AB, ZZ, AAA. *)
Theorem C8_labels (fuel : nat) (set : BatchSet) :
  0 ≤ id set → (Z.to_nat (id set) + 1 < fuel)%nat →
  (∃ digits, setLabel fuel numeric set = Some (js "Set " ++ digits)
        ∧ digits = number_to_string (id set + 1)
        ∧ decimal_value digits = Some (id set + 1))
  ∧ (∃ label, getAlphaLabel fuel (id set) = Some label
        ∧ setLabel fuel alpha set = Some (js "Set " ++ label)
        ∧ Forall is_upper label
        ∧ bijective26 label = id set + 1)
  ∧ getAlphaLabel 4 0 = Some (js "A")
  ∧ getAlphaLabel 4 25 = Some (js "Z")
  ∧ getAlphaLabel 4 26 = Some (js "AA")
  ∧ getAlphaLabel 4 27 = Some (js "AB")
  ∧ getAlphaLabel 4 701 = Some (js "ZZ")
  ∧ getAlphaLabel 4 702 = Some (js "AAA").
Proof.
  intros Hid Hfuel.
  split; [eexists; split_and!; [done..|apply decimal_value_number_to_string]|].
  split; [|by vm_compute].
  destruct (getAlphaLabel_loop_spec fuel (id set + 1) []) as (ds & Hrun & Hup & Hval);
    [lia..|].
  rewrite (right_id_L [] (++)) in Hrun.
  exists ds. unfold setLabel, getAlphaLabel. rewrite Hrun. done.
Qed.

Lemma C8_labels_witness :
  0 ≤ 27 ∧ (Z.to_nat 27 + 1 < 40)%nat
  ∧ setLabel 40 numeric {| id := 27; items := [] |} = Some (js "Set 28")
  ∧ setLabel 40 alpha {| id := 27; items := [] |} = Some (js "Set AB").
Proof.
  destruct (C8_labels 40 {| id := 27; items := [] |})
    as ((digits & Hnum & -> & _) & (label & Hrun & Halpha & _) & _);
    [simpl; lia|simpl; lia|].
  split; [lia|]. split; [simpl; lia|]. split; [exact Hnum|].
  vm_compute. reflexivity.
Defined.

(** *** Offsets and the copied text *)

Lemma getFormattedCount_spec (k : nat) (sets : list BatchSet) :
  (k ≤ length sets)%nat →
  getFormattedCount k sets = Some (Z.of_nat (length (concat (items <$> take k sets)))).
Proof.
  unfold getFormattedCount. induction k as [|k IH]; intros Hk; [done|].
  rewrite seq_S, foldl_snoc, IH by lia. simpl.
  destruct (lookup_lt_is_Some_2 sets k ltac:(lia)) as [b Hb].
  rewrite Hb. simpl. rewrite (take_S_r _ _ _ Hb), fmap_app, concat_app, length_app.
  simpl. rewrite (right_id_L [] (++)). f_equal. lia.
Qed.

Lemma lookup_concat_items (sets : list BatchSet) k b j :
  sets !! k = Some b →
  (j < length (items b))%nat →
  concat (items <$> sets) !! (length (concat (items <$> take k sets)) + j)%nat
  = items b !! j.
Proof.
  intros Hk Hj. pose proof (take_drop_middle _ _ _ Hk) as E.
  remember (take k sets) as pre. remember (drop (S k) sets) as post.
  rewrite <-E, fmap_app, concat_app, lookup_app_r by lia.
  replace (_ + j - _)%nat with j by lia.
  rewrite fmap_cons. simpl. by rewrite lookup_app_l.
Qed.

(** C9. For every set of the partition and every item in it: the offset
    [getFormattedCount] computes is the number of items in the preceding
    sets; the item is the line at position offset + j of the whole input, so
    offset + j + 1 is its 1-based running index; and the string [copySet]
    builds for it is the optional "index. ", then the optional "prefix ",
    then the item (the copied text joins these strings with line feeds). *)
Theorem C9_item_format (fuel : nat) (raw : jsstring) (mode : SplitMode) (n : Z)
    (useIndexing : bool) (prefix : jsstring)
    (p : Processed) (k : nat) (b : BatchSet) (j : nat) (item : jsstring) :
  (length (lines_of raw) < fuel)%nat →
  processedData fuel raw mode n = Some p →
  sets p !! k = Some b →
  items b !! j = Some item →
  ∃ offset,
    getFormattedCount k (sets p) = Some offset
    ∧ offset = Z.of_nat (sum_list ((λ s, length (items s)) <$> take k (sets p)))
    ∧ lines_of raw !! Z.to_nat (offset + Z.of_nat j) = Some item
    ∧ imap (formatItem useIndexing prefix offset) (items b) !! j
      = Some ((if useIndexing
               then number_to_string (offset + Z.of_nat j + 1) ++ js ". " else [])
              ++ (if bool_decide (prefix ≠ []) then prefix ++ js " " else [])
              ++ item)
    ∧ copySet useIndexing prefix (items b) offset
      = join_lf (imap (formatItem useIndexing prefix offset) (items b)).
Proof.
  intros Hfuel Hrun Hk Hj.
  destruct (processedData_spec fuel raw mode n Hfuel) as (p' & Hrun' & _ & Hcat & _).
  rewrite Hrun in Hrun'. injection Hrun' as <-.
  pose proof (lookup_lt_Some _ _ _ Hk) as Hklt.
  pose proof (lookup_lt_Some _ _ _ Hj) as Hjlt.
  eexists. split; [apply getFormattedCount_spec; lia|]. split_and!.
  - f_equal. generalize (take k (sets p)). intros l.
    induction l as [|s l IH]; csimpl; [done|]. rewrite length_app. by rewrite IH.
  - rewrite <-Hcat, <-Hj, <-(lookup_concat_items _ k b j Hk Hjlt). f_equal. lia.
  - rewrite list_lookup_imap, Hj. done.
  - done.
Qed.

Lemma C9_item_format_witness :
  ∃ offset,
    getFormattedCount 1 [ {| id := 0; items := [js "a"; js "b"] |};
                          {| id := 1; items := [js "c"] |} ] = Some offset
    ∧ offset = 2
    ∧ imap (formatItem true (js "Day") offset) [js "c"] !! 0%nat
      = Some (js "3. Day c").
Proof.
  destruct (C9_item_format 4 (js "a" ++ [LF] ++ js "b" ++ [LF] ++ js "c") size 2
              true (js "Day")
              {| sets := [ {| id := 0; items := [js "a"; js "b"] |};
                           {| id := 1; items := [js "c"] |} ];
                 totalItems := 3 |}
              1 {| id := 1; items := [js "c"] |} 0 (js "c"))
    as (offset & Hoff & Hsum & Hline & Hfmt & Hcopy).
  - vm_compute; lia.
  - vm_compute; reflexivity.
  - reflexivity.
  - reflexivity.
  - exists offset. split; [exact Hoff|]. split; [rewrite Hsum; reflexivity|].
    rewrite Hsum. vm_compute. reflexivity.
Defined.

End BatcherFacts.

(** ** Comparator *)

Section ComparatorFacts.
Import Comparator.

Lemma foldl_classifyA setB l i a :
  foldl (classifyA setB) (i, a) l
  = (i ++ filter (λ x, x ∈ setB) l, a ++ filter (λ x, x ∉ setB) l).
Proof.
  revert i a; induction l as [|x l IH]; intros i a; simpl.
  { by rewrite !filter_nil, !(right_id_L [] (++)). }
  unfold classifyA at 2, Set_has. simpl.
  case_bool_decide as Hx; rewrite IH.
  - rewrite filter_cons_True, filter_cons_False by auto.
    by rewrite <-(assoc_L (++)).
  - rewrite filter_cons_False, filter_cons_True by auto.
    by rewrite <-(assoc_L (++)).
Qed.

Lemma foldl_classifyB setA l b :
  foldl (classifyB setA) b l = b ++ filter (λ x, x ∉ setA) l.
Proof.
  revert b; induction l as [|x l IH]; intros b; simpl.
  { by rewrite filter_nil, (right_id_L [] (++)). }
  unfold classifyB at 2, Set_has.
  case_bool_decide as Hx; simpl; rewrite IH.
  - by rewrite filter_cons_False by auto.
  - rewrite filter_cons_True by auto. by rewrite <-(assoc_L (++)).
Qed.

(** The result of [handleCompare] in terms of the two sets. *)
Lemma handleCompare_unfold listA listB :
  let setA := new_Set (lines_of listA) in
  let setB := new_Set (lines_of listB) in
  handleCompare listA listB =
  {| intersection := sort_strings (filter (λ x, x ∈ setB) setA);
     aOnly := sort_strings (filter (λ x, x ∉ setB) setA);
     bOnly := sort_strings (filter (λ x, x ∉ setA) setB);
     stats := {| inBoth := Z.of_nat (length (filter (λ x, x ∈ setB) setA));
                 inAOnly := Z.of_nat (length (filter (λ x, x ∉ setB) setA));
                 inBOnly := Z.of_nat (length (filter (λ x, x ∉ setA) setB));
                 totalA := Z.of_nat (length setA);
                 totalB := Z.of_nat (length setB) |} |}.
Proof.
  intros setA setB. unfold handleCompare. fold setA setB.
  by rewrite foldl_classifyA, foldl_classifyB.
Qed.

Lemma filter_split_length {A} (P : A → Prop) `{∀ x, Decision (P x)} (l : list A) :
  (length (filter P l) + length (filter (λ x, ¬ P x) l) = length l)%nat.
Proof. by rewrite <-length_app, filter_app_complement. Qed.

Lemma filter_all {A} (P : A → Prop) `{∀ x, Decision (P x)} (l : list A) :
  Forall P l → filter P l = l.
Proof.
  induction 1 as [|x l Hx Hl IH]; [done|].
  rewrite filter_cons_True by done. by rewrite IH.
Qed.

(** The common elements, listed from either side. *)
Lemma filter_common_perm (s t : list jsstring) :
  NoDup s → NoDup t → filter (λ x, x ∈ t) s ≡ₚ filter (λ x, x ∈ s) t.
Proof.
  intros Hs Ht. apply NoDup_Permutation; [by apply NoDup_filter..|].
  intros x. rewrite !list_elem_of_filter. tauto.
Qed.

Lemma new_Set_length l : length (new_Set l) = length (remove_dups l).
Proof.
  apply Permutation_length, NoDup_Permutation;
    [apply new_Set_NoDup|apply NoDup_remove_dups|].
  intros x. by rewrite new_Set_elem_of, elem_of_remove_dups.
Qed.

(** What the three lists hold, and their order. *)
Lemma handleCompare_lists (listA listB : jsstring) :
  let r := handleCompare listA listB in
  let A := lines_of listA in
  let B := lines_of listB in
  ((∀ x, x ∈ intersection r ↔ x ∈ A ∧ x ∈ B)
   ∧ (∀ x, x ∈ aOnly r ↔ x ∈ A ∧ x ∉ B)
   ∧ (∀ x, x ∈ bOnly r ↔ x ∈ B ∧ x ∉ A))
  ∧ (StronglySorted string_lt (intersection r)
     ∧ StronglySorted string_lt (aOnly r)
     ∧ StronglySorted string_lt (bOnly r)).
Proof.
  intros r A B. subst r. rewrite handleCompare_unfold. fold A B. simpl.
  pose proof (new_Set_NoDup A) as HA. pose proof (new_Set_NoDup B) as HB.
  split; split_and!.
  - intros x. rewrite sort_strings_perm, list_elem_of_filter, !new_Set_elem_of. tauto.
  - intros x. rewrite sort_strings_perm, list_elem_of_filter, !new_Set_elem_of. tauto.
  - intros x. rewrite sort_strings_perm, list_elem_of_filter, !new_Set_elem_of. tauto.
  - by apply sort_strings_sorted, NoDup_filter.
  - by apply sort_strings_sorted, NoDup_filter.
  - by apply sort_strings_sorted, NoDup_filter.
Qed.

Lemma string_lt_irrefl a : ¬ string_lt a a.
Proof. unfold string_lt. by rewrite compare_strings_refl. Qed.

Lemma string_lt_sorted_NoDup l : StronglySorted string_lt l → NoDup l.
Proof.
  induction 1 as [|x l Hl IH Hx]; constructor; [|done].
  intros Hin. rewrite Forall_forall in Hx. by apply (string_lt_irrefl x), Hx.
Qed.

(** A strictly ascending list is determined by its elements. *)
Lemma string_lt_sorted_ext l k :
  StronglySorted string_lt l → StronglySorted string_lt k →
  (∀ x, x ∈ l ↔ x ∈ k) → l = k.
Proof.
  intros Hl Hk Hlk. apply string_lt_sorted_unique; [done..|].
  by apply NoDup_Permutation; [apply string_lt_sorted_NoDup..|].
Qed.

(** C4. For all inputs A and B: the intersection and the A-only list have
    together as many elements as A has distinct lines, the intersection and
    the B-only list as many as B has; the statistics are these sizes; an
    element is in the intersection iff it is a line of both, A-only iff a
    line of A and not of B, B-only iff a line of B and not of A, so the three
    lists are pairwise disjoint and cover exactly the lines of A and B; each
    list is strictly ascending in code-unit order; and the three lists do not
    depend on the order or the repetitions of the lines of the inputs. *)
Theorem C4_compare_partition (listA listB : jsstring) :
  let r := handleCompare listA listB in
  let A := lines_of listA in
  let B := lines_of listB in
  (Z.of_nat (length (intersection r)) + Z.of_nat (length (aOnly r)) = totalA (stats r)
   ∧ Z.of_nat (length (intersection r)) + Z.of_nat (length (bOnly r)) = totalB (stats r))
  ∧ (totalA (stats r) = Z.of_nat (length (remove_dups A))
     ∧ totalB (stats r) = Z.of_nat (length (remove_dups B))
     ∧ inBoth (stats r) = Z.of_nat (length (intersection r))
     ∧ inAOnly (stats r) = Z.of_nat (length (aOnly r))
     ∧ inBOnly (stats r) = Z.of_nat (length (bOnly r)))
  ∧ ((∀ x, x ∈ intersection r ↔ x ∈ A ∧ x ∈ B)
     ∧ (∀ x, x ∈ aOnly r ↔ x ∈ A ∧ x ∉ B)
     ∧ (∀ x, x ∈ bOnly r ↔ x ∈ B ∧ x ∉ A))
  ∧ ((∀ x, ¬ (x ∈ intersection r ∧ x ∈ aOnly r))
     ∧ (∀ x, ¬ (x ∈ intersection r ∧ x ∈ bOnly r))
     ∧ (∀ x, ¬ (x ∈ aOnly r ∧ x ∈ bOnly r))
     ∧ (∀ x, x ∈ A ∨ x ∈ B ↔ x ∈ intersection r ∨ x ∈ aOnly r ∨ x ∈ bOnly r))
  ∧ (StronglySorted string_lt (intersection r)
     ∧ StronglySorted string_lt (aOnly r)
     ∧ StronglySorted string_lt (bOnly r))
  ∧ (∀ listA' listB',
       (∀ x, x ∈ lines_of listA' ↔ x ∈ A) → (∀ x, x ∈ lines_of listB' ↔ x ∈ B) →
       intersection (handleCompare listA' listB') = intersection r
       ∧ aOnly (handleCompare listA' listB') = aOnly r
       ∧ bOnly (handleCompare listA' listB') = bOnly r).
Proof.
  intros r A B.
  destruct (handleCompare_lists listA listB) as ((Hi & Ha & Hb) & (Si & Sa & Sb)).
  fold r A B in Hi, Ha, Hb, Si, Sa, Sb.
  split_and!; try done.
  - subst r. rewrite handleCompare_unfold. simpl. rewrite !sort_strings_perm.
    pose proof (filter_split_length (λ x, x ∈ new_Set B) (new_Set A)). fold A B. lia.
  - subst r. rewrite handleCompare_unfold. simpl. fold A B.
    rewrite !sort_strings_perm,
      (filter_common_perm _ _ (new_Set_NoDup A) (new_Set_NoDup B)).
    pose proof (filter_split_length (λ x, x ∈ new_Set A) (new_Set B)). lia.
  - subst r. rewrite handleCompare_unfold. simpl. by rewrite new_Set_length.
  - subst r. rewrite handleCompare_unfold. simpl. by rewrite new_Set_length.
  - subst r. rewrite handleCompare_unfold. simpl. by rewrite sort_strings_perm.
  - subst r. rewrite handleCompare_unfold. simpl. by rewrite sort_strings_perm.
  - subst r. rewrite handleCompare_unfold. simpl. by rewrite sort_strings_perm.
  - intros x. rewrite Hi, Ha. tauto.
  - intros x. rewrite Hi, Hb. tauto.
  - intros x. rewrite Ha, Hb. tauto.
  - intros x. rewrite Hi, Ha, Hb.
    destruct (decide (x ∈ A)), (decide (x ∈ B)); tauto.
  - intros listA' listB' HA' HB'.
    destruct (handleCompare_lists listA' listB') as ((Hi' & Ha' & Hb') & (Si' & Sa' & Sb')).
    split_and!; apply string_lt_sorted_ext; try done; intros x.
    + rewrite Hi', Hi, HA', HB'. done.
    + rewrite Ha', Ha, HA', HB'. done.
    + rewrite Hb', Hb, HA', HB'. done.
Qed.

Lemma C4_compare_partition_witness :
  intersection (handleCompare (js "z" ++ [LF] ++ js "y" ++ [LF] ++ js "x" ++ [LF] ++ js "y")
                              (js "w" ++ [LF] ++ js "z" ++ [LF] ++ js "y"))
  = intersection (handleCompare (js "x" ++ [LF] ++ js "y" ++ [LF] ++ js "z")
                                (js "y" ++ [LF] ++ js "z" ++ [LF] ++ js "w")).
Proof.
  destruct (C4_compare_partition (js "x" ++ [LF] ++ js "y" ++ [LF] ++ js "z")
                                 (js "y" ++ [LF] ++ js "z" ++ [LF] ++ js "w"))
    as (_ & _ & _ & _ & _ & H).
  apply H; intros x;
    repeat match goal with
           | |- context [lines_of ?t] =>
               let v := eval vm_compute in (lines_of t) in change (lines_of t) with v
           end;
    rewrite !elem_of_cons; tauto.
Defined.

(** C10. Swapping the arguments of the comparison keeps the intersection,
    exchanges the A-only and B-only lists, keeps [inBoth], exchanges
    [totalA] with [totalB] and [inAOnly] with [inBOnly], and keeps the
    similarity. *)
Theorem C10_compare_symmetric (listA listB : jsstring) :
  let r := handleCompare listA listB in
  let r' := handleCompare listB listA in
  intersection r = intersection r'
  ∧ aOnly r = bOnly r'
  ∧ bOnly r = aOnly r'
  ∧ inBoth (stats r) = inBoth (stats r')
  ∧ totalA (stats r) = totalB (stats r')
  ∧ totalB (stats r) = totalA (stats r')
  ∧ inAOnly (stats r) = inBOnly (stats r')
  ∧ inBOnly (stats r) = inAOnly (stats r')
  ∧ similarity (stats r) = similarity (stats r').
Proof.
  intros r r'.
  destruct (handleCompare_lists listA listB) as ((Hi & _) & (Si & _)).
  destruct (handleCompare_lists listB listA) as ((Hi' & _) & (Si' & _)).
  fold r in Hi, Si. fold r' in Hi', Si'.
  assert (intersection r = intersection r') as Hinter.
  { apply string_lt_sorted_ext; [done..|]. intros x. rewrite Hi, Hi'. tauto. }
  subst r r'. rewrite !handleCompare_unfold in *. simpl in *.
  pose proof (new_Set_NoDup (lines_of listA)) as HA.
  pose proof (new_Set_NoDup (lines_of listB)) as HB.
  pose proof (Permutation_length (filter_common_perm _ _ HA HB)) as Hlen.
  split_and!; try done.
  - by rewrite Hlen.
  - unfold similarity. simpl. rewrite Hlen. do 3 f_equal. lia.
Qed.

(** *** Similarity *)





(** The sizes behind the statistics: [inBoth] counts the distinct common
    lines, and [totalA + totalB - inBoth] the distinct lines of both lists
    together. *)
Lemma compare_sizes (listA listB : jsstring) :
  let s := stats (handleCompare listA listB) in
  let A := lines_of listA in
  let B := lines_of listB in
  0 ≤ inBoth s ∧ inBoth s ≤ totalA s ∧ inBoth s ≤ totalB s
  ∧ totalA s = Z.of_nat (length (new_Set A))
  ∧ totalB s = Z.of_nat (length (new_Set B))
  ∧ inBoth s = Z.of_nat (length (filter (λ x, x ∈ B) (remove_dups A)))
  ∧ totalA s + totalB s - inBoth s = Z.of_nat (length (remove_dups (A ++ B)))
  ∧ (listA = listB → inBoth s = totalA s).
Proof.
  intros s A B. subst s. rewrite handleCompare_unfold. fold A B. simpl.
  pose proof (new_Set_NoDup A) as HA. pose proof (new_Set_NoDup B) as HB.
  pose proof (length_filter (λ x, x ∈ new_Set B) (new_Set A)) as H1.
  pose proof (length_filter (λ x, x ∈ new_Set A) (new_Set B)) as H2.
  pose proof (Permutation_length (filter_common_perm _ _ HA HB)) as H3.
  pose proof (filter_split_length (λ x, x ∈ new_Set A) (new_Set B)) as H4.
  assert (length (new_Set A ++ filter (λ x, ¬ x ∈ new_Set A) (new_Set B))
          = length (remove_dups (A ++ B))) as H5.
  { apply Permutation_length, NoDup_Permutation.
    - apply NoDup_app. split_and!; [done| |by apply NoDup_filter].
      intros x Hx [Hn _]%list_elem_of_filter. done.
    - apply NoDup_remove_dups.
    - intros x. rewrite elem_of_remove_dups, !elem_of_app, list_elem_of_filter,
        !new_Set_elem_of.
      destruct (decide (x ∈ A)); tauto. }
  rewrite length_app in H5.
  split_and!; try done; try lia.
  - f_equal. apply Permutation_length, NoDup_Permutation.
    + by apply NoDup_filter.
    + apply NoDup_filter, NoDup_remove_dups.
    + intros x. by rewrite !list_elem_of_filter, elem_of_remove_dups, !new_Set_elem_of.
  - subst A B. intros <-. do 2 f_equal. apply filter_all, Forall_forall. auto.
Qed.



End ComparatorFacts.

(** ** Sorted lists *)

Section SortedFacts.
Context {A : Type}.

Lemma StronglySorted_weaken (R R' : relation A) (l : list A) :
  (∀ x y, x ∈ l → y ∈ l → R x y → R' x y) →
  StronglySorted R l → StronglySorted R' l.
Proof.
  intros HR Hl. induction Hl as [|x l Hl IH Hx]; constructor.
  - apply IH. intros y z Hy Hz. apply HR; by right.
  - rewrite Forall_forall in Hx |- *. intros y Hy.
    apply HR; [by left|by right|by apply Hx].
Qed.

Lemma StronglySorted_filter (R : relation A) (P : A → Prop) `{∀ x, Decision (P x)}
    (l : list A) :
  StronglySorted R l → StronglySorted R (filter P l).
Proof.
  induction 1 as [|x l Hl IH Hx]; [constructor|].
  destruct (decide (P x)).
  - rewrite filter_cons_True by done. constructor; [done|].
    rewrite Forall_forall in Hx |- *. intros y [_ Hy]%list_elem_of_filter. auto.
  - by rewrite filter_cons_False.
Qed.

Lemma StronglySorted_distinct {B} (f : A → B) (R : relation A) (l : list A) :
  NoDup (f <$> l) → StronglySorted R l →
  StronglySorted (λ x y, R x y ∧ f x ≠ f y) l.
Proof.
  intros Hnd Hl. induction Hl as [|x l Hl IH Hx]; [constructor|].
  rewrite fmap_cons in Hnd. apply NoDup_cons in Hnd as [Hx' Hnd].
  constructor; [by apply IH|].
  rewrite Forall_forall in Hx |- *. intros y Hy. split; [by apply Hx|].
  intros E. apply Hx'. rewrite E. by apply list_elem_of_fmap_2.
Qed.

End SortedFacts.

(** ** Analyzer: the frequency map *)

Section AnalyzerFacts.
Import Analyzer.

Lemma first_index_Some_lt k l i : first_index k l = Some i → (i < length l)%nat.
Proof.
  revert i; induction l as [|x l IH]; intros i; simpl; [done|].
  case_bool_decide; [intros [= <-]; lia|].
  destruct (first_index k l) as [j|]; simpl; [|done].
  intros [= <-]. specialize (IH j eq_refl). lia.
Qed.

Lemma first_index_elem_of k l : k ∈ l → is_Some (first_index k l).
Proof.
  induction l as [|x l IH]; [by intros ?%elem_of_nil|].
  intros Hk. simpl. case_bool_decide; [eauto|].
  apply elem_of_cons in Hk as [->|Hk]; [done|].
  destruct (IH Hk) as [j ->]. simpl. eauto.
Qed.

Lemma first_index_app_l k l l' : k ∈ l → first_index k (l ++ l') = first_index k l.
Proof.
  induction l as [|x l IH]; [by intros ?%elem_of_nil|].
  intros Hk. simpl. case_bool_decide; [done|].
  apply elem_of_cons in Hk as [->|Hk]; [done|]. by rewrite IH.
Qed.

Lemma first_index_fresh k l : k ∉ l → first_index k (l ++ [k]) = Some (length l).
Proof.
  induction l as [|x l IH]; intros Hk; simpl.
  { by rewrite bool_decide_eq_true_2. }
  apply not_elem_of_cons in Hk as [Hne Hk].
  rewrite bool_decide_eq_false_2 by done. by rewrite IH.
Qed.

(** [new Set(lines)] lists the lines in the order they are first met. *)
Lemma new_Set_earlier lines : StronglySorted (earlier lines) (new_Set lines).
Proof.
  induction lines as [|x l IH] using rev_ind; [constructor|].
  assert (∀ k1 k2, k1 ∈ new_Set l → k2 ∈ new_Set l →
            earlier l k1 k2 → earlier (l ++ [x]) k1 k2) as Hkeep.
  { intros k1 k2 H1 H2. rewrite new_Set_elem_of in H1, H2. unfold earlier.
    by rewrite !first_index_app_l. }
  rewrite new_Set_snoc. unfold Set_add. case_bool_decide as Hx.
  - by apply (StronglySorted_weaken (earlier l)).
  - apply StronglySorted_app_2.
    + intros k1 k2 H1 ->%list_elem_of_singleton. unfold earlier.
      rewrite new_Set_elem_of in H1, Hx.
      rewrite first_index_app_l, first_index_fresh by done.
      destruct (first_index_elem_of k1 l H1) as [i Hi]. rewrite Hi.
      by apply first_index_Some_lt in Hi.
    + by apply (StronglySorted_weaken (earlier l)).
    + repeat constructor.
Qed.

(** *** Reading and writing the map *)

Lemma own_get_tabulate f keys x :
  own_get (tabulate f keys) x = if decide (x ∈ keys) then Some (f x) else None.
Proof.
  induction keys as [|k keys IH]; simpl; [done|].
  case_bool_decide as Hk.
  - subst. rewrite decide_True; [done|by left].
  - rewrite IH. destruct (decide (x ∈ keys)) as [Hin|Hout].
    + rewrite decide_True; [done|by right].
    + rewrite decide_False; [done|]. intros [->|?]%elem_of_cons; done.
Qed.

Lemma own_put_tabulate_old f keys x v :
  NoDup keys → x ∈ keys →
  own_put (tabulate f keys) x v = tabulate (λ k, if decide (k = x) then v else f k) keys.
Proof.
  intros Hnd. induction Hnd as [|k keys Hk Hnd IH]; [by intros ?%elem_of_nil|].
  intros Hx. unfold tabulate. rewrite !fmap_cons. simpl. case_bool_decide as E.
  - subst. rewrite decide_True by done. f_equal.
    apply list_fmap_ext. intros i k Hi.
    rewrite decide_False; [done|]. intros ->. by apply list_elem_of_lookup_2 in Hi.
  - rewrite decide_False by done. f_equal. apply IH.
    apply elem_of_cons in Hx as [->|Hx]; done.
Qed.

Lemma own_put_tabulate_new f keys x v :
  x ∉ keys → own_put (tabulate f keys) x v = tabulate f keys ++ [(x, v)].
Proof.
  induction keys as [|k keys IH]; intros Hx; [done|].
  apply not_elem_of_cons in Hx as [Hne Hx]. unfold tabulate. rewrite fmap_cons. simpl.
  rewrite bool_decide_eq_false_2 by done. f_equal. by apply IH.
Qed.

Lemma occurrences_snoc k l x :
  occurrences k (l ++ [x]) = occurrences k l + (if decide (x = k) then 1 else 0).
Proof.
  unfold occurrences. rewrite filter_app, length_app.
  destruct (decide (x = k)).
  - rewrite (filter_cons_True _ x) by done. simpl. lia.
  - rewrite (filter_cons_False _ x) by done. simpl. lia.
Qed.

Lemma occurrences_pos k l : k ∈ l → 1 ≤ occurrences k l.
Proof.
  intros Hk. unfold occurrences.
  assert (k ∈ filter (λ l0, l0 = k) l) as Hin by by apply list_elem_of_filter.
  destruct (filter (λ l0, l0 = k) l); [by apply elem_of_nil in Hin|]. simpl. lia.
Qed.

Lemma occurrences_zero k l : k ∉ l → occurrences k l = 0.
Proof.
  intros Hk. unfold occurrences.
  destruct (filter (λ l0, l0 = k) l) as [|y ys] eqn:E; [done|].
  assert (y ∈ filter (λ l0, l0 = k) l) as [-> ?]%list_elem_of_filter
    by (rewrite E; left). done.
Qed.

Lemma plain_line_not_proto line : plain_line line → line ≠ js "__proto__".
Proof. intros H ->. by vm_compute in H. Qed.

(** One step of the counting loop on a line that is not an inherited name. *)
Lemma increment_tally (l : list jsstring) (x : jsstring) :
  plain_line x →
  increment (tabulate (λ k, Num (occurrences k l)) (new_Set l)) x
  = tabulate (λ k, Num (occurrences k (l ++ [x]))) (new_Set (l ++ [x])).
Proof.
  intros Hx. unfold increment, Get, Put.
  rewrite bool_decide_eq_false_2 by by apply plain_line_not_proto.
  rewrite own_get_tabulate, new_Set_snoc. unfold Set_add.
  destruct (decide (x ∈ new_Set l)) as [Hin|Hout].
  - rewrite bool_decide_eq_true_2 by done.
    pose proof (occurrences_pos x l ltac:(by apply new_Set_elem_of)) as Hpos.
    unfold or_else, truthy.
    destruct (Z.eqb_spec (occurrences x l) 0); [lia|]. simpl.
    rewrite own_put_tabulate_old by auto using new_Set_NoDup.
    apply list_fmap_ext. intros i k _. rewrite occurrences_snoc.
    destruct (decide (k = x)) as [->|Hne].
    + by rewrite decide_True.
    + rewrite decide_False by done. do 2 f_equal. lia.
  - rewrite bool_decide_eq_false_2 by done.
    rewrite Hx. simpl. rewrite own_put_tabulate_new by done.
    unfold tabulate. rewrite fmap_app. simpl. f_equal.
    + apply list_fmap_ext. intros i k Hi. rewrite occurrences_snoc.
      rewrite decide_False; [do 2 f_equal; lia|].
      intros ->. by apply list_elem_of_lookup_2 in Hi.
    + rewrite occurrences_snoc, decide_True by done.
      rewrite occurrences_zero; [done|]. by rewrite <-new_Set_elem_of.
Qed.

(** The map after the loop, when no line is an inherited name: each distinct
    line, in order of first occurrence, with the number of its occurrences. *)
Lemma freqMap_tally (lines : list jsstring) :
  Forall plain_line lines →
  foldl increment [] lines
  = tabulate (λ k, Num (occurrences k lines)) (new_Set lines).
Proof.
  induction lines as [|x l IH] using rev_ind; intros Hl; [done|].
  apply Forall_app in Hl as [Hl Hx]. rewrite Forall_singleton in Hx.
  by rewrite foldl_snoc, IH, increment_tally.
Qed.

(** *** The slots, on any lines *)

Lemma own_get_elem_of o x p : own_get o x = Some p → (x, p) ∈ o.
Proof.
  induction o as [|[k v] o IH]; simpl; [done|].
  case_bool_decide as E; [intros [= ->]; subst; left|right; auto].
Qed.

Lemma own_put_Forall (Q : jsstring * prim → Prop) o x v :
  Forall Q o → Q (x, v) → Forall Q (own_put o x v).
Proof.
  intros Ho Hv. induction Ho as [|[k w] o Hk Ho IH]; simpl; [by repeat constructor|].
  case_bool_decide; constructor; done.
Qed.

Lemma Object_prototype_accessor x :
  Object_prototype x = Some ObjectPrototype → x = js "__proto__".
Proof.
  unfold Object_prototype. repeat case_bool_decide; done.
Qed.

(** Whatever the lines are, a slot that is not a count holds a text that is
    no numeric literal: [ToNumber] of it is NaN. *)
Lemma freqMap_slots (lines : list jsstring) :
  Forall (λ e, slot_ok e.2) (foldl increment [] lines).
Proof.
  induction lines as [|x l IH] using rev_ind; [constructor|].
  rewrite foldl_snoc. set (o := foldl increment [] l) in *. clearbody o.
  unfold increment, Put. case_bool_decide as Hproto; [done|].
  apply own_put_Forall; [done|]. simpl. unfold Get.
  destruct (own_get o x) as [p|] eqn:Eget.
  - apply own_get_elem_of in Eget. rewrite Forall_forall in IH.
    specialize (IH _ Eget).
    unfold or_else, truthy. destruct p as [n| |s]; cbn [snd slot_ok] in IH; [| done |].
    + destruct (Z.eqb_spec n 0); cbn [negb plus_one slot_ok]; lia.
    + destruct IH as [rest ->]. rewrite bool_decide_eq_true_2 by done.
      cbn [plus_one slot_ok]. eexists. by rewrite <-(assoc_L (++)).
  - destruct (Object_prototype x) as [[| |name|]|] eqn:Eproto;
      cbn [default or_else truthy plus_one slot_ok]; try done.
    + unfold Object_prototype in Eproto. repeat case_bool_decide; done.
    + eexists. unfold native_source. by rewrite <-!(assoc_L (++)).
    + by apply Object_prototype_accessor in Eproto.
Qed.

(** *** The order of [Object.entries] *)

Lemma array_index_canonical k n :
  array_index k = Some n → number_to_string (Z.of_N n) = k.
Proof.
  unfold array_index. destruct k as [|c k]; [done|].
  destruct (digits_value 0 (c :: k)) as [m|]; simpl; [|done].
  case_bool_decide as E; simpl; [|done].
  destruct (m <? 4294967295)%N; [|done]. by intros [= <-].
Qed.

Lemma array_index_inj k1 k2 n :
  array_index k1 = Some n → array_index k2 = Some n → k1 = k2.
Proof. intros <-%array_index_canonical <-%array_index_canonical. done. Qed.

Lemma filter_tabulate (P : jsstring * prim → Prop) `{∀ e, Decision (P e)} f keys :
  filter P (tabulate f keys) = tabulate f (filter (λ k, P (k, f k)) keys).
Proof.
  unfold tabulate. induction keys as [|k keys IH]; [done|].
  rewrite fmap_cons. destruct (decide (P (k, f k))).
  - rewrite !filter_cons_True by done. by rewrite fmap_cons, IH.
  - by rewrite !filter_cons_False.
Qed.

Lemma fst_tabulate f keys : (tabulate f keys).*1 = keys.
Proof.
  unfold tabulate. induction keys as [|k keys IH]; [done|].
  rewrite !fmap_cons. simpl. by rewrite IH.
Qed.

Lemma Object_entries_perm o : Object_entries o ≡ₚ o.
Proof.
  unfold Object_entries. rewrite Array_sort_perm.
  rewrite <-(filter_app_complement (λ e, is_Some (array_index e.1)) o) at 3.
  f_equiv. apply reflexive_eq, list_filter_iff.
  intros e. by rewrite eq_None_not_Some.
Qed.

Lemma StronglySorted_any {A} (l : list A) : StronglySorted (λ _ _, True) l.
Proof. induction l; constructor; [done|]. by apply Forall_true. Qed.

(** The entries of the map of distinct lines come in the order
    [key_precedes]. *)
Lemma Object_entries_order (lines : list jsstring) (f : jsstring → prim) :
  StronglySorted (λ e1 e2, key_precedes lines e1.1 e2.1)
    (Object_entries (tabulate f (new_Set lines))).
Proof.
  unfold Object_entries. rewrite !filter_tabulate. simpl.
  apply StronglySorted_app_2.
  - intros e1 e2 H1 H2. rewrite Array_sort_elem_of in H1.
    apply list_elem_of_fmap in H1 as (k1 & -> & [[a Ha] _]%list_elem_of_filter).
    apply list_elem_of_fmap in H2 as (k2 & -> & [Hb _]%list_elem_of_filter).
    unfold key_precedes. simpl. by rewrite Ha, Hb.
  - set (idx := tabulate f (filter (λ k, is_Some (array_index k)) (new_Set lines))).
    assert (Forall (λ e, is_Some (array_index e.1)) idx) as Hidx.
    { apply Forall_forall. intros e (k & -> & [Hk _]%list_elem_of_filter)%list_elem_of_fmap.
      done. }
    assert (NoDup (Array_sort index_before idx).*1) as Hnd.
    { rewrite Array_sort_perm. unfold idx. rewrite fst_tabulate.
      apply NoDup_filter, new_Set_NoDup. }
    pose proof (Array_sort_stable index_before
                  (λ e, is_Some (array_index e.1)) (λ _ _, True)) as Hsort.
    apply (StronglySorted_distinct fst _ _ Hnd) in Hsort; [| | |done|apply StronglySorted_any].
    + eapply StronglySorted_weaken; [|exact Hsort].
      intros e1 e2 H1 H2 [[Hle _] Hne]. simpl in Hle, Hne.
      rewrite Array_sort_elem_of in H1, H2.
      rewrite Forall_forall in Hidx.
      destruct (Hidx _ H1) as [a Ha], (Hidx _ H2) as [b Hb].
      unfold key_precedes, index_before in *. rewrite Ha, Hb in *.
      apply N.leb_le in Hle.
      assert (a ≠ b) by (intros ->; eauto using array_index_inj). lia.
    + intros e1 e2 [a Ha] [b Hb]. unfold index_before. rewrite Ha, Hb.
      destruct (N.leb_spec a b), (N.leb_spec b a); auto; lia.
    + intros e1 e2 e3 [a Ha] [b Hb] [c Hc]. unfold index_before. rewrite Ha, Hb, Hc.
      rewrite !N.leb_le. lia.
  - apply (StronglySorted_fmap _ (key_precedes lines)); [done|].
    eapply StronglySorted_weaken; [|apply StronglySorted_filter, new_Set_earlier].
    intros k1 k2 [H1 _]%list_elem_of_filter [H2 _]%list_elem_of_filter.
    unfold key_precedes. by rewrite H1, H2.
Qed.

(** *** The frequency table *)

Lemma handleAnalyze_Some now text r :
  handleAnalyze now text = Some r →
  let lines := lines_of text in
  stats r = {| total := Z.of_nat (length lines);
               unique := Z.of_nat (length (new_Set lines));
               duplicates := Z.of_nat (length lines) - Z.of_nat (length (new_Set lines));
               processedAt := now |}
  ∧ uniqueList r = sort_strings (new_Set lines)
  ∧ frequencyMap r = Array_sort count_before (row <$> Object_entries (foldl increment [] lines))
  ∧ duplicateList r = title <$> filter (λ item, more_than_once item = true) (frequencyMap r).
Proof.
  unfold handleAnalyze. destruct (blank text); [done|]. by intros [= <-].
Qed.

(** The analysis accepts exactly the texts that have a line. *)
Lemma handleAnalyze_accepts now text :
  is_Some (handleAnalyze now text) ↔ lines_of text ≠ [].
Proof.
  rewrite lines_of_nil. unfold handleAnalyze.
  destruct (blank text); split; done.
Qed.

Lemma count_before_numbers a b ca cb :
  count a = Num ca → count b = Num cb → count_before a b = true ↔ cb ≤ ca.
Proof.
  intros Ha Hb. unfold count_before, by_count. rewrite Ha, Hb. simpl.
  rewrite Z.leb_le. lia.
Qed.

(** The table on lines none of which is an inherited name. *)
Lemma frequency_table_plain (lines : list jsstring) :
  Forall plain_line lines →
  let table := Array_sort count_before (row <$> Object_entries (foldl increment [] lines)) in
  table ≡ₚ (λ k, {| title := k; count := Num (occurrences k lines) |}) <$> new_Set lines
  ∧ StronglySorted (rows_ordered (key_precedes lines)) table.
Proof.
  intros Hplain table. subst table. rewrite freqMap_tally by done.
  set (o := tabulate (λ k, Num (occurrences k lines)) (new_Set lines)).
  assert (row <$> Object_entries o
          ≡ₚ (λ k, {| title := k; count := Num (occurrences k lines) |}) <$> new_Set lines)
    as Hperm.
  { rewrite Object_entries_perm. unfold o, tabulate. by rewrite <-list_fmap_compose. }
  split; [by rewrite Array_sort_perm|].
  assert (∀ a, a ∈ row <$> Object_entries o → ∃ n, count a = Num n) as Hnum.
  { intros a. rewrite Hperm. intros (k & -> & _)%list_elem_of_fmap. simpl. eauto. }
  eapply StronglySorted_weaken;
    [|apply (Array_sort_stable count_before (λ a, ∃ n, count a = Num n)
               (λ a b, key_precedes lines (title a) (title b)))].
  - intros a b Ha Hb [Hab Htie]. rewrite Array_sort_elem_of in Ha, Hb.
    destruct (Hnum a Ha) as [ca Hca], (Hnum b Hb) as [cb Hcb].
    exists ca, cb. split_and!; [done..|].
    rewrite (count_before_numbers a b ca cb) in Hab by done.
    rewrite (count_before_numbers b a cb ca) in Htie by done.
    destruct (decide (ca = cb)) as [->|]; [right|left; lia].
    split; [done|]. apply Htie. lia.
  - intros a b [ca Hca] [cb Hcb].
    rewrite (count_before_numbers a b ca cb), (count_before_numbers b a cb ca) by done. lia.
  - intros a b c [ca Hca] [cb Hcb] [cc Hcc].
    rewrite (count_before_numbers a b ca cb), (count_before_numbers b c cb cc),
      (count_before_numbers a c ca cc) by done. lia.
  - apply Forall_forall. exact Hnum.
  - apply (StronglySorted_fmap _ (λ e1 e2, key_precedes lines e1.1 e2.1)); [done|].
    apply Object_entries_order.
Qed.

Lemma more_than_once_number item n :
  count item = Num n → more_than_once item = true ↔ 1 < n.
Proof. intros H. unfold more_than_once. rewrite H. simpl. rewrite Z.gtb_gt. lia. Qed.

(** C6 (as amended). For every text the analysis accepts, none of whose
    lines is the name of a property inherited from Object.prototype: the
    frequency table has one row per distinct line, with the number of its
    occurrences as count; the rows are sorted by count, descending, and rows
    with equal counts come in the key order of the frequency object, that is
    lines that are array indices first, in ascending numeric order, then the
    other lines in the order of their first occurrence; the duplicate list is
    the titles of the rows with count > 1, in the order of the table, and
    holds exactly the lines that occur more than once. *)
Theorem C6_frequency_table (now text : jsstring) (r : AnalysisResult) :
  handleAnalyze now text = Some r →
  Forall plain_line (lines_of text) →
  let lines := lines_of text in
  NoDup (title <$> frequencyMap r)
  ∧ (∀ item, item ∈ frequencyMap r ↔
       title item ∈ lines ∧ count item = Num (occurrences (title item) lines))
  ∧ StronglySorted (rows_ordered (key_precedes lines)) (frequencyMap r)
  ∧ duplicateList r = title <$> filter (λ item, more_than_once item = true) (frequencyMap r)
  ∧ (∀ item, item ∈ frequencyMap r →
       more_than_once item = true ↔ 1 < occurrences (title item) lines)
  ∧ (∀ k, k ∈ duplicateList r ↔ 1 < occurrences k lines).
Proof.
  intros Hrun Hplain lines.
  destruct (handleAnalyze_Some _ _ _ Hrun) as (_ & _ & Hfm & Hdup). fold lines in Hfm.
  destruct (frequency_table_plain lines Hplain) as [Hperm Hsorted].
  rewrite <-Hfm in Hperm, Hsorted.
  assert (∀ item, item ∈ frequencyMap r ↔
            title item ∈ lines ∧ count item = Num (occurrences (title item) lines)) as Hrows.
  { intros item. rewrite Hperm, list_elem_of_fmap. split.
    - intros (k & -> & Hk). simpl. by rewrite new_Set_elem_of in Hk.
    - intros [Hk Hc]. exists (title item). rewrite new_Set_elem_of. split; [|done].
      destruct item as [t c]. simpl in *. by rewrite Hc. }
  assert (∀ item, item ∈ frequencyMap r →
            more_than_once item = true ↔ 1 < occurrences (title item) lines) as Hmore.
  { intros item [_ Hc]%Hrows. by apply more_than_once_number. }
  split_and!; try done.
  - rewrite Hperm, <-list_fmap_compose.
    rewrite (list_fmap_ext _ id (new_Set lines)) by done.
    rewrite list_fmap_id. apply new_Set_NoDup.
  - intros k. rewrite Hdup, list_elem_of_fmap. split.
    + intros (item & -> & [Hm Hin]%list_elem_of_filter). by apply Hmore.
    + intros Hk. exists {| title := k; count := Num (occurrences k lines) |}.
      split; [done|]. apply list_elem_of_filter.
      assert (k ∈ lines) as Hin.
      { destruct (decide (k ∈ lines)) as [|Hout]; [done|].
        rewrite occurrences_zero in Hk by done. lia. }
      split; [by apply (more_than_once_number _ (occurrences k lines))|].
      by apply Hrows.
Qed.

Lemma C6_frequency_table_witness :
  ∃ r, handleAnalyze [] (js "b" ++ [LF] ++ js "2" ++ [LF] ++ js "1" ++ [LF] ++ js "b") = Some r
     ∧ (title <$> frequencyMap r) = [js "b"; js "1"; js "2"]
     ∧ StronglySorted
         (rows_ordered
            (key_precedes (lines_of (js "b" ++ [LF] ++ js "2" ++ [LF] ++ js "1" ++ [LF] ++ js "b"))))
         (frequencyMap r)
     ∧ duplicateList r = [js "b"].
Proof.
  eexists. split; [vm_compute; reflexivity|].
  split; [vm_compute; reflexivity|]. split; [|vm_compute; reflexivity].
  eapply (C6_frequency_table []
            (js "b" ++ [LF] ++ js "2" ++ [LF] ++ js "1" ++ [LF] ++ js "b")).
  - vm_compute. reflexivity.
  - vm_compute. repeat constructor.
Defined.

(** C6 as stated fails on the lines b, 2, 1: each occurs once, and the table
    lists them as 1, 2, b, so the tie between 1 and b is not resolved by the
    order of first occurrence. None of the three lines is an inherited
    name. *)
Lemma C6_ties_not_in_encounter_order :
  ∃ r, handleAnalyze [] (js "b" ++ [LF] ++ js "2" ++ [LF] ++ js "1") = Some r
     ∧ Forall plain_line (lines_of (js "b" ++ [LF] ++ js "2" ++ [LF] ++ js "1"))
     ∧ (title <$> frequencyMap r) = [js "1"; js "2"; js "b"]
     ∧ ¬ StronglySorted
           (rows_ordered (earlier (lines_of (js "b" ++ [LF] ++ js "2" ++ [LF] ++ js "1"))))
           (frequencyMap r).
Proof.
  eexists. split; [vm_compute; reflexivity|].
  split; [vm_compute; repeat constructor|].
  split; [vm_compute; reflexivity|].
  intros Hsorted.
  match type of Hsorted with
  | StronglySorted _ ?table =>
      assert (table = [row (js "1", Num 1); row (js "2", Num 1); row (js "b", Num 1)])
        as E by (vm_compute; reflexivity);
      rewrite E in Hsorted; clear E
  end.
  apply StronglySorted_inv in Hsorted as [_ Hfirst].
  apply Forall_cons in Hfirst as [_ Hfirst]. apply Forall_cons in Hfirst as [Hrow _].
  destruct Hrow as (ca & cb & Ha & Hb & Hord). simpl in Ha, Hb.
  injection Ha as <-. injection Hb as <-.
  destruct Hord as [Hlt|[_ Hearlier]]; [lia|].
  vm_compute in Hearlier. lia.
Qed.

(** *** The counts *)

Lemma count_sum_perm t1 t2 : t1 ≡ₚ t2 → count_sum t1 = count_sum t2.
Proof.
  unfold count_sum. induction 1 as [|x l1 l2 _ IH|x y l|l1 l2 l3 _ IH1 _ IH2]; simpl.
  - done.
  - by rewrite IH.
  - destruct (count x), (count y); lia.
  - congruence.
Qed.

Lemma count_sum_tally (lines keys : list jsstring) :
  NoDup keys →
  count_sum ((λ k, {| title := k; count := Num (occurrences k lines) |}) <$> keys)
  = Z.of_nat (length (filter (λ l, l ∈ keys) lines)).
Proof.
  intros Hnd. induction Hnd as [|k keys Hk Hnd IH].
  { assert (filter (λ l, l ∈ []) lines = []) as ->; [|done].
    apply elem_of_nil_inv. intros x [Hx _]%list_elem_of_filter.
    by apply elem_of_nil in Hx. }
  rewrite fmap_cons. cbn [count_sum foldr count]. fold (count_sum
    ((λ k, {| title := k; count := Num (occurrences k lines) |}) <$> keys)).
  rewrite IH. unfold occurrences. clear IH.
  induction lines as [|l lines IHl]; [done|].
  destruct (decide (l = k)) as [->|Hne].
  - rewrite (filter_cons_True (λ l0, l0 = k)) by done.
    rewrite (filter_cons_False (λ l0, l0 ∈ keys)) by done.
    rewrite (filter_cons_True (λ l0, l0 ∈ k :: keys)) by left. simpl. lia.
  - rewrite (filter_cons_False (λ l0, l0 = k)) by done.
    destruct (decide (l ∈ keys)).
    + rewrite (filter_cons_True (λ l0, l0 ∈ keys)) by done.
      rewrite (filter_cons_True (λ l0, l0 ∈ k :: keys)) by by right. simpl. lia.
    + rewrite (filter_cons_False (λ l0, l0 ∈ keys)) by done.
      rewrite (filter_cons_False (λ l0, l0 ∈ k :: keys)); [done|].
      intros [?|?]%elem_of_cons; done.
Qed.

(** Away from the inherited names the invariants of the analysis hold. *)
Lemma frequency_invariants_plain (now text : jsstring) (r : AnalysisResult) :
  handleAnalyze now text = Some r →
  Forall plain_line (lines_of text) →
  duplicates (stats r) = total (stats r) - unique (stats r)
  ∧ total (stats r) = Z.of_nat (length (lines_of text))
  ∧ count_sum (frequencyMap r) = total (stats r)
  ∧ unique (stats r) = Z.of_nat (length (uniqueList r))
  ∧ unique (stats r) = Z.of_nat (length (frequencyMap r))
  ∧ NoDup (title <$> frequencyMap r)
  ∧ (∀ item, item ∈ frequencyMap r → ∃ n, count item = Num n ∧ 1 ≤ n).
Proof.
  intros Hrun Hplain.
  destruct (handleAnalyze_Some _ _ _ Hrun) as (Hstats & Huniq & Hfm & _).
  destruct (frequency_table_plain _ Hplain) as [Hperm _]. rewrite <-Hfm in Hperm.
  rewrite Hstats, Huniq. simpl. split_and!; try done.
  - rewrite (count_sum_perm _ _ Hperm), count_sum_tally by apply new_Set_NoDup.
    do 2 f_equal. apply filter_all, Forall_forall. intros x. by rewrite new_Set_elem_of.
  - by rewrite sort_strings_perm.
  - by rewrite Hperm, length_fmap.
  - rewrite Hperm, <-list_fmap_compose.
    rewrite (list_fmap_ext _ id (new_Set (lines_of text))) by done.
    rewrite list_fmap_id. apply new_Set_NoDup.
  - intros item. rewrite Hperm. intros (k & -> & Hk)%list_elem_of_fmap.
    simpl. eexists. split; [done|]. apply occurrences_pos. by rewrite <-new_Set_elem_of.
Qed.

(** C3 at the failing inputs. The line __proto__ is counted in [total] and
    [unique] and gets no row in the frequency table, so the table has fewer
    rows than [unique] and its counts do not add up to [total]. The line
    constructor gets a row whose count is not a number. *)
Theorem C3_inherited_names_break_the_counts :
  (∃ r, handleAnalyze [] (js "__proto__") = Some r
      ∧ total (stats r) = 1 ∧ unique (stats r) = 1
      ∧ frequencyMap r = []
      ∧ Z.of_nat (length (frequencyMap r)) ≠ unique (stats r)
      ∧ count_sum (frequencyMap r) ≠ total (stats r))
  ∧ (∃ r, handleAnalyze [] (js "constructor") = Some r
      ∧ total (stats r) = 1 ∧ unique (stats r) = 1
      ∧ frequencyMap r
        = [ {| title := js "constructor";
               count := Str (js "function Object() { [native code] }1") |} ]
      ∧ count_sum (frequencyMap r) ≠ total (stats r)).
Proof.
  split; eexists; (split; [vm_compute; reflexivity|]); simpl; split_and!; done.
Qed.

End AnalyzerFacts.

(** ** The AI categorization gateway *)

Section GatewayFacts.
Import JSON GeminiService.

Lemma slice_first_500 (titles : list jsstring) : slice titles 0 500 = take 500 titles.
Proof. exact (slice_take_drop titles 0 500 ltac:(lia) ltac:(lia)). Qed.

(** A call with a credential and at least one title: one request, built
    from the first 500 titles, and what follows from the reply. *)
Lemma categorizeTitles_run (backend : Request → settled) (titles : list jsstring)
    (apiKey : jsstring) :
  apiKey ≠ [] → titles ≠ [] →
  let request := request_of (prompt_of (take 500 titles)) in
  run backend (categorizeTitles titles apiKey) =
  match backend request with
  | Rejected reason =>
      {| sent := [request]; logged := [reason]; outcome := inr reason |}
  | Fulfilled None | Fulfilled (Some []) =>
      {| sent := [request]; logged := [Error (js "No response from AI")];
         outcome := inr (Error (js "No response from AI")) |}
  | Fulfilled (Some text) =>
      match parse text with
      | Some result => {| sent := [request]; logged := []; outcome := inl result |}
      | None => {| sent := [request]; logged := [SyntaxError]; outcome := inr SyntaxError |}
      end
  end.
Proof.
  intros Hkey Htitles request. unfold categorizeTitles.
  rewrite bool_decide_eq_false_2 by done.
  rewrite bool_decide_eq_false_2 by (by destruct titles).
  rewrite slice_first_500. fold request. cbn [try_catch run].
  destruct (backend request) as [[[|c text]|]|reason]; cbn [try_catch run]; try done.
  destruct (parse (c :: text)); done.
Qed.

(** C2. In a call of [categorizeTitles]: an empty credential makes the call
    throw the missing-key error, whatever the titles, and nothing is sent;
    otherwise an empty list of titles makes it return the empty category
    list, and nothing is sent; otherwise exactly one request is sent, built
    from the first 500 titles only, and the call behaves as the call on these
    first 500 titles. *)
Theorem C2_validation_order (backend : Request → settled) (titles : list jsstring)
    (apiKey : jsstring) :
  (apiKey = [] →
     categorizeTitles titles apiKey
     = Throw (Error (js "API Key is missing. Please configure it in the settings."))
     ∧ sent (run backend (categorizeTitles titles apiKey)) = [])
  ∧ (apiKey ≠ [] → titles = [] →
     categorizeTitles titles apiKey = Return no_categories
     ∧ sent (run backend (categorizeTitles titles apiKey)) = [])
  ∧ (apiKey ≠ [] → titles ≠ [] →
     sent (run backend (categorizeTitles titles apiKey))
     = [request_of (prompt_of (take 500 titles))]
     ∧ categorizeTitles titles apiKey = categorizeTitles (take 500 titles) apiKey
     ∧ ((length titles ≤ 500)%nat → take 500 titles = titles)).
Proof.
  split_and!.
  - intros ->. done.
  - intros Hkey ->. unfold categorizeTitles. by rewrite bool_decide_eq_false_2.
  - intros Hkey Htitles. split_and!.
    + rewrite categorizeTitles_run by done.
      destruct (backend _) as [[[|c text]|]|reason]; try done.
      by destruct (parse (c :: text)).
    + unfold categorizeTitles. rewrite !slice_first_500, take_take.
      destruct titles; done.
    + apply take_ge.
Qed.

Lemma C2_validation_order_witness :
  sent (run (λ _, Fulfilled None) (categorizeTitles [js "a"; js "b"] (js "key")))
  = [request_of (prompt_of [js "a"; js "b"])].
Proof.
  destruct (C2_validation_order (λ _, Fulfilled None) [js "a"; js "b"] (js "key"))
    as (_ & _ & H).
  destruct H as (Hsent & _); [done|done|]. exact Hsent.
Defined.

(** C7 (as amended). In a call with a credential and at least one title: a
    rejected request makes the call fail with the reason of the rejection; a
    reply without text, or with the empty text, makes it fail with the
    no-response error; a text that [JSON.parse] rejects makes it fail with
    the SyntaxError of the parser; and a text that parses makes it return
    the parsed value as it is, whether or not the value has the shape of the
    response schema or covers the titles. Every failure is logged once. *)
Theorem C7_response_handling (backend : Request → settled) (titles : list jsstring)
    (apiKey : jsstring) :
  apiKey ≠ [] → titles ≠ [] →
  let request := request_of (prompt_of (take 500 titles)) in
  let r := run backend (categorizeTitles titles apiKey) in
  (∀ reason, backend request = Rejected reason →
     outcome r = inr reason ∧ logged r = [reason])
  ∧ (backend request = Fulfilled None ∨ backend request = Fulfilled (Some []) →
     outcome r = inr (Error (js "No response from AI"))
     ∧ logged r = [Error (js "No response from AI")])
  ∧ (∀ text, text ≠ [] → backend request = Fulfilled (Some text) → parse text = None →
     outcome r = inr SyntaxError ∧ logged r = [SyntaxError])
  ∧ (∀ text result, text ≠ [] → backend request = Fulfilled (Some text) →
     parse text = Some result →
     outcome r = inl result ∧ logged r = []).
Proof.
  intros Hkey Htitles request r. subst r.
  rewrite categorizeTitles_run by done. fold request.
  split_and!.
  - by intros reason ->.
  - by intros [-> | ->].
  - intros [|c text] Htext -> Hparse; [done|]. by rewrite Hparse.
  - intros [|c text] result Htext -> Hparse; [done|]. by rewrite Hparse.
Qed.

Lemma C7_response_handling_witness :
  outcome (run (λ _, Fulfilled (Some (js "[1, 2]")))
               (categorizeTitles [js "a"; js "b"] (js "key")))
  = inl (JArray [JNumber (js "1"); JNumber (js "2")]).
Proof.
  destruct (C7_response_handling (λ _, Fulfilled (Some (js "[1, 2]")))
              [js "a"; js "b"] (js "key")) as (_ & _ & _ & H); [done|done|].
  destruct (H (js "[1, 2]") (JArray [JNumber (js "1"); JNumber (js "2")])) as [Hout _];
    [done|done|vm_compute; reflexivity|].
  exact Hout.
Defined.

(** C7 as stated fails on the reply {}: the text is JSON, it does not have
    the shape of the response schema, and the call returns it. *)
Lemma C7_schema_violation_is_returned :
  parse (js "{}") = Some (JObject [])
  ∧ matches_schema (JObject []) = false
  ∧ outcome (run (λ _, Fulfilled (Some (js "{}"))) (categorizeTitles [js "a"] (js "key")))
    = inl (JObject []).
Proof. split_and!; vm_compute; reflexivity. Qed.

End GatewayFacts.

(** ** The scenarios of the design document *)

Section Scenarios.

Example normalizer_scenario :
  lines_of (js "  a " ++ [LF; LF] ++ js " b" ++ [13%N; LF] ++ js "c  ") = [js "a"; js "b"; js "c"]
  ∧ lines_of (js "   " ++ [LF] ++ js " ") = [].
Proof. split; vm_compute; reflexivity. Qed.

Example frequency_scenario :
  ∃ r, Analyzer.handleAnalyze (js "10:00")
         (join_lf (js <$> ["a"; "b"; "a"; "c"; "b"; "a"]%string)) = Some r
     ∧ Analyzer.stats r
       = {| Analyzer.total := 6; Analyzer.unique := 3; Analyzer.duplicates := 3;
            Analyzer.processedAt := js "10:00" |}
     ∧ Analyzer.frequencyMap r
       = [ {| Analyzer.title := js "a"; Analyzer.count := Analyzer.Num 3 |};
           {| Analyzer.title := js "b"; Analyzer.count := Analyzer.Num 2 |};
           {| Analyzer.title := js "c"; Analyzer.count := Analyzer.Num 1 |} ]
     ∧ Analyzer.uniqueList r = [js "a"; js "b"; js "c"]
     ∧ Analyzer.duplicateList r = [js "a"; js "b"].
Proof. eexists. split; [vm_compute; reflexivity|]. split_and!; vm_compute; reflexivity. Qed.

Example comparator_scenario :
  Comparator.handleCompare (join_lf (js <$> ["x"; "y"; "z"]%string))
                           (join_lf (js <$> ["y"; "z"; "w"]%string))
  = {| Comparator.intersection := [js "y"; js "z"];
       Comparator.aOnly := [js "x"];
       Comparator.bOnly := [js "w"];
       Comparator.stats :=
         {| Comparator.inBoth := 2; Comparator.inAOnly := 1; Comparator.inBOnly := 1;
            Comparator.totalA := 3; Comparator.totalB := 3 |} |}.
Proof. vm_compute. reflexivity. Qed.

Example batcher_scenario :
  let text := join_lf (number_to_string <$> seqZ 1 25) in
  let sizes p := (λ s, length (Batcher.items s)) <$> Batcher.sets p in
  sizes <$> Batcher.processedData 26 text Batcher.size 10 = Some [10; 10; 5]%nat
  ∧ sizes <$> Batcher.processedData 26 text Batcher.count 4 = Some [7; 7; 7; 4]%nat.
Proof. split; vm_compute; reflexivity. Qed.

Example copy_scenario :
  Batcher.copySet true (js "Video -") [js "intro"; js "outro"] 10
  = js "11. Video - intro" ++ [LF] ++ js "12. Video - outro"
  ∧ Batcher.copySet false [] [js "intro"; js "outro"] 10
    = js "intro" ++ [LF] ++ js "outro".
Proof. split; vm_compute; reflexivity. Qed.

End Scenarios.

(** * Further properties of the code *)

(** ** The normalizer, again *)

Section NormalizerMore.

Lemma drop_white_split s :
  ∃ w, s = w ++ drop_white s ∧ Forall (λ c, is_white c = true) w.
Proof.
  induction s as [|c s (w & Hs & Hw)]; simpl; [by exists []|].
  destruct (is_white c) eqn:E.
  - exists (c :: w). split; [simpl; by f_equal|by constructor].
  - by exists [].
Qed.

Lemma drop_white_id s :
  (∀ c r, s = c :: r → is_white c = false) → drop_white s = s.
Proof. destruct s as [|c r]; simpl; [done|]. intros H. by rewrite (H c r). Qed.

Lemma drop_white_idem s : drop_white (drop_white s) = drop_white s.
Proof. apply drop_white_id. intros c r. apply drop_white_head. Qed.

(** What [trim] returns has nothing more to trim at either end. *)
Lemma trim_ends s :
  drop_white (trim s) = trim s ∧ drop_white (reverse (trim s)) = reverse (trim s).
Proof.
  unfold trim. set (u := drop_white s). set (v := drop_white (reverse u)).
  rewrite reverse_involutive. split; [|apply drop_white_idem].
  destruct (drop_white_split (reverse u)) as (w & Hu & Hw). fold v in Hu.
  apply (f_equal reverse) in Hu. rewrite reverse_involutive, reverse_app in Hu.
  apply drop_white_id. intros c r Hv.
  rewrite Hv in Hu. simpl in Hu. by apply (drop_white_head s c (r ++ reverse w)).
Qed.

Lemma trim_idem s : trim (trim s) = trim s.
Proof.
  destruct (trim_ends s) as [H1 H2]. unfold trim at 1.
  by rewrite H1, H2, reverse_involutive.
Qed.

Lemma drop_white_elem_of x s : x ∈ drop_white s → x ∈ s.
Proof.
  destruct (drop_white_split s) as (w & Hs & _). rewrite Hs at 2.
  rewrite elem_of_app. auto.
Qed.

Lemma trim_elem_of x s : x ∈ trim s → x ∈ s.
Proof.
  unfold trim. rewrite elem_of_reverse. intros H%drop_white_elem_of.
  rewrite elem_of_reverse in H. by apply drop_white_elem_of.
Qed.

Lemma split_lf_no_LF s p : p ∈ split_lf s → LF ∉ p.
Proof.
  revert p; induction s as [|c s IH]; intros p; simpl.
  { intros ->%list_elem_of_singleton. apply not_elem_of_nil. }
  destruct (N.eqb_spec c LF) as [->|Hc].
  - intros [->|Hp]%elem_of_cons; [apply not_elem_of_nil|by apply IH].
  - destruct (split_lf s) as [|piece pieces].
    + intros ->%list_elem_of_singleton. rewrite not_elem_of_cons.
      split; [done|apply not_elem_of_nil].
    + intros [->|Hp]%elem_of_cons.
      * rewrite not_elem_of_cons. split; [done|]. apply IH. by left.
      * apply IH. by right.
Qed.

Lemma lines_of_normal_line text l : l ∈ lines_of text → normal_line l.
Proof.
  unfold lines_of. intros [Hne (p & -> & Hp)%list_elem_of_fmap]%list_elem_of_filter.
  split_and!; [done| |apply trim_idem].
  intros H%trim_elem_of. by apply (split_lf_no_LF text p).
Qed.

Lemma normal_line_ends l :
  normal_line l →
  (∀ c r, l = c :: r → is_white c = false) ∧ (∀ c r, l = r ++ [c] → is_white c = false).
Proof.
  intros (_ & _ & Htrim). destruct (trim_ends l) as [H1 H2]. rewrite Htrim in H1, H2.
  split; intros c r ->.
  - by apply (drop_white_head _ c r) in H1.
  - rewrite reverse_app, reverse_singleton in H2.
    by apply (drop_white_head _ c (reverse r)) in H2.
Qed.

(** X1. Every line the normalizer returns is not empty, holds no line feed,
    and neither begins nor ends with a white-space unit: trimming it again
    changes nothing. *)
Theorem lines_of_lines_are_normal (text l : jsstring) :
  l ∈ lines_of text →
  l ≠ [] ∧ (LF ∉ l) ∧ trim l = l
  ∧ (∀ c r, l = c :: r → is_white c = false)
  ∧ (∀ c r, l = r ++ [c] → is_white c = false).
Proof.
  intros Hl%lines_of_normal_line. destruct (normal_line_ends l Hl) as [Hh Ht].
  destruct Hl as (? & ? & ?). done.
Qed.

Lemma lines_of_lines_are_normal_witness :
  js "b c" ∈ lines_of (js " a " ++ [LF; 9%N] ++ js "b c" ++ [13%N; LF])
  ∧ trim (js "b c") = js "b c".
Proof.
  assert (js "b c" ∈ lines_of (js " a " ++ [LF; 9%N] ++ js "b c" ++ [13%N; LF])) as H.
  { vm_compute. right. left. }
  split; [exact H|].
  exact (proj1 (proj2 (proj2 (lines_of_lines_are_normal _ _ H)))).
Defined.

Lemma split_lf_line l rest :
  LF ∉ l → split_lf (l ++ LF :: rest) = l :: split_lf rest.
Proof.
  induction l as [|c l IH]; intros Hl; simpl; [done|].
  apply not_elem_of_cons in Hl as [Hc Hl].
  destruct (N.eqb_spec c LF); [done|]. by rewrite IH.
Qed.

Lemma split_lf_single l : LF ∉ l → split_lf l = [l].
Proof.
  induction l as [|c l IH]; intros Hl; simpl; [done|].
  apply not_elem_of_cons in Hl as [Hc Hl].
  destruct (N.eqb_spec c LF); [done|]. by rewrite IH.
Qed.

Lemma split_lf_join ls :
  ls ≠ [] → Forall (λ l, LF ∉ l) ls → split_lf (join_lf ls) = ls.
Proof.
  intros Hne Hls. induction Hls as [|l ls Hl Hls IH]; [done|].
  destruct ls as [|l' ls']; simpl.
  - by apply split_lf_single.
  - rewrite split_lf_line by done. f_equal. by apply IH.
Qed.

(** Joining normal lines with line feeds and normalizing gives the lines
    back. *)
Lemma lines_of_join ls : Forall normal_line ls → lines_of (join_lf ls) = ls.
Proof.
  intros Hls. destruct ls as [|l ls]; [done|].
  unfold lines_of. rewrite split_lf_join; [|done|].
  - induction Hls as [|k ks (Hne & _ & Htrim) _ IH]; [done|].
    rewrite fmap_cons, Htrim, filter_cons_True by done. by rewrite IH.
  - eapply Forall_impl; [exact Hls|]. by intros k (_ & ? & _).
Qed.

(** X2. Normalizing is idempotent through the export format: the lines of a
    text, joined by line feeds and normalized again, are the same lines. *)
Theorem lines_of_join_lines_of (text : jsstring) :
  lines_of (join_lf (lines_of text)) = lines_of text.
Proof. apply lines_of_join, Forall_forall. apply lines_of_normal_line. Qed.

End NormalizerMore.

(** ** The Analyzer, again *)

Section AnalyzerMore.
Import Analyzer.

Lemma new_Set_id l : NoDup l → new_Set l = l.
Proof.
  induction l as [|x l IH] using rev_ind; [done|].
  rewrite NoDup_app. intros (Hl & Hx & _).
  rewrite new_Set_snoc, IH by done. unfold Set_add.
  rewrite bool_decide_eq_false_2; [done|].
  intros Hin. apply (Hx x Hin). by left.
Qed.

Lemma new_Set_length_le l : (length (new_Set l) ≤ length l)%nat.
Proof.
  induction l as [|x l IH] using rev_ind; [done|].
  rewrite new_Set_snoc. unfold Set_add.
  case_bool_decide; rewrite !length_app; simpl; lia.
Qed.

Lemma new_Set_length_eq l : length (new_Set l) = length l → NoDup l.
Proof.
  induction l as [|x l IH] using rev_ind; [constructor|].
  rewrite new_Set_snoc. unfold Set_add.
  pose proof (new_Set_length_le l).
  case_bool_decide as Hx; rewrite !length_app; simpl; [lia|].
  intros Hlen. rewrite new_Set_elem_of in Hx.
  apply NoDup_app. split_and!; [apply IH; lia| |apply NoDup_singleton].
  intros y Hy ->%list_elem_of_singleton. done.
Qed.

Lemma sort_strings_id l : StronglySorted string_lt l → sort_strings l = l.
Proof.
  intros Hl. apply string_lt_sorted_ext; [|done|].
  - by apply sort_strings_sorted, string_lt_sorted_NoDup.
  - intros x. by rewrite sort_strings_perm.
Qed.

Lemma analysis_statistics_aux (now text : jsstring) (r : AnalysisResult) :
  handleAnalyze now text = Some r →
  StronglySorted string_lt (uniqueList r)
  ∧ (∀ x, x ∈ uniqueList r ↔ x ∈ lines_of text)
  ∧ Z.of_nat (length (uniqueList r)) = unique (stats r)
  ∧ 1 ≤ unique (stats r).
Proof.
  intros Hrun.
  assert (lines_of text ≠ []) as Hne by (apply (handleAnalyze_accepts now); by rewrite Hrun).
  destruct (handleAnalyze_Some _ _ _ Hrun) as (Hstats & Huniq & _).
  rewrite Hstats, Huniq. simpl. split_and!.
  - apply sort_strings_sorted, new_Set_NoDup.
  - intros x. by rewrite sort_strings_perm, new_Set_elem_of.
  - by rewrite sort_strings_perm.
  - destruct (new_Set (lines_of text)) eqn:E; simpl; [|lia]. by apply new_Set_nil_inv in E.
Qed.

(** X3. In every result of the analysis, whatever the lines are: [total] is
    the number of lines and at least 1; [unique] is between 1 and [total];
    [duplicates] is their difference, never negative, and zero exactly when
    no line is repeated; the unique list is strictly ascending, holds
    exactly the lines of the text and has [unique] entries; the two bars of
    the chart add up to [total]. *)
Theorem analysis_statistics (now text : jsstring) (r : AnalysisResult) :
  handleAnalyze now text = Some r →
  let lines := lines_of text in
  (total (stats r) = Z.of_nat (length lines) ∧ 1 ≤ total (stats r))
  ∧ (1 ≤ unique (stats r) ∧ unique (stats r) ≤ total (stats r))
  ∧ (duplicates (stats r) = total (stats r) - unique (stats r)
     ∧ 0 ≤ duplicates (stats r)
     ∧ (duplicates (stats r) = 0 ↔ NoDup lines))
  ∧ (StronglySorted string_lt (uniqueList r)
     ∧ (∀ x, x ∈ uniqueList r ↔ x ∈ lines)
     ∧ Z.of_nat (length (uniqueList r)) = unique (stats r))
  ∧ (∃ u d, chartData (Some r) = [(js "Unique", u, js "#0d9488");
                                   (js "Duplicates", d, js "#64748b")]
            ∧ u + d = total (stats r))
  ∧ processedAt (stats r) = now.
Proof.
  intros Hrun lines.
  assert (lines ≠ []) as Hne by (apply (handleAnalyze_accepts now); by rewrite Hrun).
  destruct (handleAnalyze_Some _ _ _ Hrun) as (Hstats & Huniq & _). fold lines in Hstats, Huniq.
  pose proof (new_Set_length_le lines) as Hle.
  assert (0 < length lines)%nat by (destruct lines; simpl; [done|lia]).
  assert (0 < length (new_Set lines))%nat.
  { destruct (new_Set lines) eqn:E; simpl; [|lia]. by apply new_Set_nil_inv in E. }
  unfold chartData. rewrite Hstats, Huniq. simpl. split_and!; try done; try lia.
  - split.
    + intros Hz. apply new_Set_length_eq. lia.
    + intros Hnd. rewrite new_Set_id by done. lia.
  - apply sort_strings_sorted, new_Set_NoDup.
  - intros x. by rewrite sort_strings_perm, new_Set_elem_of.
  - by rewrite sort_strings_perm.
  - eexists _, _. split; [done|]. lia.
Qed.

Lemma analysis_statistics_witness :
  ∃ r, handleAnalyze [] (js "b" ++ [LF] ++ js "a" ++ [LF] ++ js "b") = Some r
     ∧ total (stats r) = 3 ∧ 1 ≤ unique (stats r) ∧ unique (stats r) ≤ 3.
Proof.
  eexists. split; [vm_compute; reflexivity|].
  match goal with
  | |- context [stats ?r] =>
      destruct (analysis_statistics [] (js "b" ++ [LF] ++ js "a" ++ [LF] ++ js "b") r)
        as ((Ht & _) & (Hu1 & Hu2) & _); [vm_compute; reflexivity|]
  end.
  split; [vm_compute; reflexivity|]. split; [exact Hu1|].
  etransitivity; [exact Hu2|]. vm_compute. discriminate.
Defined.

(** X4. The analysis produces a result exactly when the text has a line:
    the guard on the whole text agrees with the normalizer, and a text of
    white space only gives none. A click on such a text leaves the result of
    the click before on the screen, with its chart and its download; a click
    on any other text replaces it. *)
Theorem analysis_accepts_texts_with_a_line
    (previous : option AnalysisResult) (now text : jsstring) :
  (is_Some (handleAnalyze now text) ↔ lines_of text ≠ [])
  ∧ (handleAnalyze now text = None ↔ Forall (λ c, is_white c = true) text)
  ∧ (lines_of text = [] →
       result_after_click previous now text = previous
       ∧ downloadUnique (result_after_click previous now text) = downloadUnique previous
       ∧ chartData (result_after_click previous now text) = chartData previous)
  ∧ (lines_of text ≠ [] →
       ∃ r, result_after_click previous now text = Some r
          ∧ handleAnalyze now text = Some r
          ∧ total (stats r) = Z.of_nat (length (lines_of text))).
Proof.
  pose proof (handleAnalyze_accepts now text) as Hacc.
  assert (handleAnalyze now text = None ↔ lines_of text = []) as Hnone.
  { rewrite <-not_eq_None_Some in Hacc.
    destruct (decide (lines_of text = [])), (handleAnalyze now text); naive_solver. }
  unfold result_after_click. split_and!; [done| | |].
  - rewrite Hnone, lines_of_nil. unfold blank. by rewrite bool_decide_eq_true, trim_nil.
  - intros E. apply Hnone in E. by rewrite E.
  - intros Hne. apply Hacc in Hne as [r Hr]. rewrite Hr. exists r.
    split; [done|]. split; [done|].
    destruct (handleAnalyze_Some _ _ _ Hr) as (Hstats & _). by rewrite Hstats.
Qed.

(** X5. Re-analysing the downloaded unique list: the downloaded text has
    exactly the unique list as its lines; analysing it gives the same unique
    list, as many total lines as there were unique ones, and no
    duplicates. *)
Theorem downloadUnique_reanalysed (now now' text : jsstring) (r : AnalysisResult) :
  handleAnalyze now text = Some r →
  ∃ blob r',
    downloadUnique (Some r) = Some blob
    ∧ lines_of blob = uniqueList r
    ∧ handleAnalyze now' blob = Some r'
    ∧ uniqueList r' = uniqueList r
    ∧ total (stats r') = unique (stats r)
    ∧ unique (stats r') = unique (stats r)
    ∧ duplicates (stats r') = 0.
Proof.
  intros Hrun.
  destruct (analysis_statistics_aux now text r Hrun) as (Hsorted & Hmem & Hlen & Hpos).
  assert (lines_of (join_lf (uniqueList r)) = uniqueList r) as Hlines.
  { apply lines_of_join, Forall_forall. intros l Hl.
    apply (lines_of_normal_line text). by apply Hmem. }
  assert (is_Some (handleAnalyze now' (join_lf (uniqueList r)))) as [r' Hrun'].
  { apply handleAnalyze_accepts. rewrite Hlines. intros E. rewrite E in Hlen.
    simpl in Hlen. lia. }
  exists (join_lf (uniqueList r)), r'. split; [done|]. split; [done|]. split; [done|].
  destruct (handleAnalyze_Some _ _ _ Hrun') as (Hstats' & Huniq' & _).
  rewrite Hlines in Hstats', Huniq'.
  rewrite new_Set_id in Hstats', Huniq' by by apply string_lt_sorted_NoDup.
  rewrite Hstats', Huniq'. simpl.
  split_and!; [by apply sort_strings_id|done|done|lia].
Qed.

Lemma downloadUnique_reanalysed_witness :
  ∃ blob r',
    downloadUnique (handleAnalyze [] (js "b" ++ [LF] ++ js "a" ++ [LF] ++ js "b")) = Some blob
    ∧ blob = js "a" ++ [LF] ++ js "b"
    ∧ handleAnalyze [] blob = Some r'
    ∧ total (stats r') = 2 ∧ duplicates (stats r') = 0.
Proof.
  pose (text := js "b" ++ [LF] ++ js "a" ++ [LF] ++ js "b").
  destruct (handleAnalyze [] text) as [r|] eqn:Hrun; [|vm_compute in Hrun; discriminate].
  destruct (downloadUnique_reanalysed [] [] text r Hrun)
    as (blob & r' & Hblob & _ & Hrun' & _ & Htotal & _ & Hdup).
  exists blob, r'. fold text. rewrite Hrun.
  assert (Some r = Some r) as _ by done.
  vm_compute in Hrun. injection Hrun as <-.
  split; [exact Hblob|]. split.
  { vm_compute in Hblob. injection Hblob as <-. vm_compute. reflexivity. }
  split; [exact Hrun'|]. split; [rewrite Htotal; vm_compute; reflexivity|exact Hdup].
Defined.

Lemma occurrences_cons k x l :
  occurrences k (x :: l) = occurrences k l + (if decide (x = k) then 1 else 0).
Proof.
  unfold occurrences. destruct (decide (x = k)).
  - rewrite (filter_cons_True _ x) by done. simpl. lia.
  - rewrite (filter_cons_False _ x) by done. simpl. lia.
Qed.

Lemma occurrences_nonneg k l : 0 ≤ occurrences k l.
Proof. unfold occurrences. lia. Qed.

Lemma NoDup_occurrences l : NoDup l ↔ ∀ k, occurrences k l ≤ 1.
Proof.
  induction l as [|x l IH].
  - split; [intros _ k; by vm_compute|constructor].
  - rewrite NoDup_cons, IH. split.
    + intros [Hx Hl] k. rewrite occurrences_cons. destruct (decide (x = k)) as [->|].
      * rewrite occurrences_zero by done. lia.
      * specialize (Hl k). lia.
    + intros H. split.
      * intros Hx%occurrences_pos. specialize (H x). rewrite occurrences_cons in H.
        rewrite decide_True in H by done. lia.
      * intros k. specialize (H k). rewrite occurrences_cons in H.
        destruct (decide (x = k)); lia.
Qed.

Lemma table_duplicates_bound (table : list FrequencyItem) :
  (∀ item, item ∈ table → ∃ n, count item = Num n ∧ 1 ≤ n) →
  Z.of_nat (length (filter (λ item, more_than_once item = true) table))
  ≤ count_sum table - Z.of_nat (length table).
Proof.
  induction table as [|item table IH]; intros Hrows; [by vm_compute|].
  destruct (Hrows item) as (n & Hn & Hpos); [left|].
  assert (count_sum (item :: table) = n + count_sum table) as ->
    by (unfold count_sum; simpl; by rewrite Hn).
  specialize (IH (λ i Hi, Hrows i (list_elem_of_further _ _ _ Hi))).
  pose proof (more_than_once_number item n Hn) as Hmore.
  destruct (decide (more_than_once item = true)) as [Hm|Hm].
  - rewrite filter_cons_True by done. apply Hmore in Hm. simpl length. lia.
  - rewrite filter_cons_False by done. simpl length. lia.
Qed.

Lemma duplicateList_plain (now text : jsstring) (r : AnalysisResult) :
  handleAnalyze now text = Some r →
  Forall plain_line (lines_of text) →
  title <$> frequencyMap r ≡ₚ new_Set (lines_of text)
  ∧ ∀ k, k ∈ duplicateList r ↔ 1 < occurrences k (lines_of text).
Proof.
  intros Hrun Hplain.
  destruct (handleAnalyze_Some _ _ _ Hrun) as (_ & _ & Hfm & Hdup).
  destruct (frequency_table_plain _ Hplain) as [Hperm _]. rewrite <-Hfm in Hperm.
  set (lines := lines_of text) in *.
  assert (title <$> frequencyMap r ≡ₚ new_Set lines) as Htitles.
  { rewrite Hperm, <-list_fmap_compose.
    rewrite (list_fmap_ext _ id (new_Set lines)) by done. by rewrite list_fmap_id. }
  split; [done|].
  intros k. rewrite Hdup, list_elem_of_fmap. split.
  - intros (item & -> & [Hm Hin]%list_elem_of_filter).
    rewrite Hperm, list_elem_of_fmap in Hin. destruct Hin as (k & -> & _).
    simpl. by apply (more_than_once_number _ (occurrences k lines)) in Hm.
  - intros Hk. exists {| title := k; count := Num (occurrences k lines) |}.
    split; [done|]. apply list_elem_of_filter.
    split; [by apply (more_than_once_number _ (occurrences k lines))|].
    rewrite Hperm, list_elem_of_fmap. exists k. split; [done|].
    apply new_Set_elem_of. destruct (decide (k ∈ lines)) as [|Hout]; [done|].
    rewrite occurrences_zero in Hk by done. lia.
Qed.

(** X6. When no line is the name of a property of [Object.prototype]: the
    counts of the frequency table add up to [total]; the table has one row
    for each entry of the unique list; the duplicate list has no repetition,
    every entry of it is in the unique list, it has at most [duplicates]
    entries, and it is empty exactly when [duplicates] is zero. *)
Theorem frequency_table_accounts_for_every_line (now text : jsstring) (r : AnalysisResult) :
  handleAnalyze now text = Some r →
  Forall plain_line (lines_of text) →
  count_sum (frequencyMap r) = total (stats r)
  ∧ title <$> frequencyMap r ≡ₚ uniqueList r
  ∧ NoDup (duplicateList r)
  ∧ duplicateList r ⊆ uniqueList r
  ∧ Z.of_nat (length (duplicateList r)) ≤ duplicates (stats r)
  ∧ (duplicateList r = [] ↔ duplicates (stats r) = 0).
Proof.
  intros Hrun Hplain.
  destruct (frequency_invariants_plain _ _ _ Hrun Hplain)
    as (Hd & Ht & Hsum & Hu & Hu' & Hnd & Hrows).
  destruct (duplicateList_plain _ _ _ Hrun Hplain) as [Htitles Hmem].
  destruct (handleAnalyze_Some _ _ _ Hrun) as (Hstats & Huniq & _ & Hdup).
  split_and!.
  - done.
  - by rewrite Htitles, Huniq, sort_strings_perm.
  - rewrite Hdup. apply (sublist_NoDup _ (title <$> frequencyMap r)); [exact Hnd|apply fmap_sublist, sublist_filter].
  - intros k Hk. rewrite Huniq, sort_strings_perm, new_Set_elem_of.
    apply Hmem in Hk. destruct (decide (k ∈ lines_of text)) as [|Hout]; [done|].
    rewrite occurrences_zero in Hk by done. lia.
  - rewrite Hdup, length_fmap, Hd, <-Hsum, Hu'. by apply table_duplicates_bound.
  - split.
    + intros Hnil. rewrite Hstats. simpl.
      assert (NoDup (lines_of text)) as Hnodup.
      { apply NoDup_occurrences. intros k.
        destruct (decide (1 < occurrences k (lines_of text))) as [Hk|]; [|lia].
        apply Hmem in Hk. rewrite Hnil in Hk. by apply elem_of_nil in Hk. }
      rewrite new_Set_id by done. lia.
    + intros Hz. rewrite Hstats in Hz. simpl in Hz.
      assert (NoDup (lines_of text)) as Hnodup by (apply new_Set_length_eq; lia).
      destruct (duplicateList r) as [|k ks] eqn:E; [done|].
      assert (1 < occurrences k (lines_of text)) as Hk by (apply Hmem; left).
      rewrite NoDup_occurrences in Hnodup. specialize (Hnodup k). lia.
Qed.

Lemma frequency_table_accounts_for_every_line_witness :
  ∃ r, handleAnalyze [] (js "b" ++ [LF] ++ js "a" ++ [LF] ++ js "b") = Some r
     ∧ count_sum (frequencyMap r) = 3
     ∧ NoDup (duplicateList r).
Proof.
  pose (text := js "b" ++ [LF] ++ js "a" ++ [LF] ++ js "b").
  destruct (handleAnalyze [] text) as [r|] eqn:Hrun; [|vm_compute in Hrun; discriminate].
  exists r. fold text. rewrite Hrun. split; [done|].
  destruct (frequency_table_accounts_for_every_line [] text r Hrun)
    as (Hsum & _ & Hnd & _).
  { repeat constructor. }
  split; [|exact Hnd]. rewrite Hsum.
  vm_compute in Hrun. injection Hrun as <-. vm_compute. reflexivity.
Defined.

Lemma new_Set_perm l1 l2 : l1 ≡ₚ l2 → new_Set l1 ≡ₚ new_Set l2.
Proof.
  intros Hperm. apply NoDup_Permutation; [apply new_Set_NoDup..|].
  intros x. by rewrite !new_Set_elem_of, Hperm.
Qed.

(** X7. The order of the lines does not matter to the numbers: two texts
    whose lines are the same up to order get the same statistics and the
    same unique list, and, away from the names inherited from
    [Object.prototype], the same frequency rows and the same duplicates up
    to order. *)
Theorem analysis_independent_of_line_order
    (now text1 text2 : jsstring) (r1 r2 : AnalysisResult) :
  lines_of text1 ≡ₚ lines_of text2 →
  handleAnalyze now text1 = Some r1 →
  handleAnalyze now text2 = Some r2 →
  stats r1 = stats r2
  ∧ uniqueList r1 = uniqueList r2
  ∧ (Forall plain_line (lines_of text1) →
     frequencyMap r1 ≡ₚ frequencyMap r2 ∧ duplicateList r1 ≡ₚ duplicateList r2).
Proof.
  intros Hperm Hrun1 Hrun2.
  destruct (handleAnalyze_Some _ _ _ Hrun1) as (Hs1 & Hu1 & Hf1 & Hd1).
  destruct (handleAnalyze_Some _ _ _ Hrun2) as (Hs2 & Hu2 & Hf2 & Hd2).
  pose proof (new_Set_perm _ _ Hperm) as Hset.
  split_and!.
  - rewrite Hs1, Hs2.
    by rewrite (Permutation_length Hperm), (Permutation_length Hset).
  - rewrite Hu1, Hu2. apply string_lt_sorted_ext.
    + apply sort_strings_sorted, new_Set_NoDup.
    + apply sort_strings_sorted, new_Set_NoDup.
    + intros x. by rewrite !sort_strings_perm, Hset.
  - intros Hplain1.
    assert (Forall plain_line (lines_of text2)) as Hplain2 by by rewrite <-Hperm.
    destruct (frequency_table_plain _ Hplain1) as [Hp1 _]. rewrite <-Hf1 in Hp1.
    destruct (frequency_table_plain _ Hplain2) as [Hp2 _]. rewrite <-Hf2 in Hp2.
    assert (frequencyMap r1 ≡ₚ frequencyMap r2) as Hrows.
    { rewrite Hp1, Hp2, Hset.
      rewrite (list_fmap_ext _
        (λ k, {| title := k; count := Num (occurrences k (lines_of text2)) |})
        (new_Set (lines_of text2))); [done|].
      intros _ k _. unfold occurrences. do 3 f_equal.
      apply Permutation_length. by rewrite Hperm. }
    split; [done|]. rewrite Hd1, Hd2. by rewrite Hrows.
Qed.

Lemma analysis_independent_of_line_order_witness :
  ∃ r1 r2,
    handleAnalyze [] (js "b" ++ [LF] ++ js "a" ++ [LF] ++ js "b") = Some r1
    ∧ handleAnalyze [] (js "a" ++ [LF] ++ js "b" ++ [LF] ++ js "b") = Some r2
    ∧ stats r1 = stats r2 ∧ uniqueList r1 = uniqueList r2.
Proof.
  pose (text1 := js "b" ++ [LF] ++ js "a" ++ [LF] ++ js "b").
  pose (text2 := js "a" ++ [LF] ++ js "b" ++ [LF] ++ js "b").
  destruct (handleAnalyze [] text1) as [r1|] eqn:Hrun1; [|vm_compute in Hrun1; discriminate].
  destruct (handleAnalyze [] text2) as [r2|] eqn:Hrun2; [|vm_compute in Hrun2; discriminate].
  exists r1, r2. fold text1 text2. rewrite Hrun1, Hrun2. split; [done|]. split; [done|].
  destruct (analysis_independent_of_line_order [] text1 text2 r1 r2) as (Hs & Hu & _);
    [|exact Hrun1|exact Hrun2|by split].
  assert (lines_of text1 = [js "b"; js "a"; js "b"]) as -> by (vm_compute; reflexivity).
  assert (lines_of text2 = [js "a"; js "b"; js "b"]) as -> by (vm_compute; reflexivity).
  apply perm_swap.
Defined.

End AnalyzerMore.

(** ** The Batcher, again *)

Section BatcherMore.
Import Batcher.

Lemma concat_uniform_length {A} (ls : list (list A)) (s : nat) :
  (∀ k b, ls !! k = Some b → (S k < length ls)%nat → length b = s) →
  ∀ b, last ls = Some b →
  length (concat ls) = ((length ls - 1) * s + length b)%nat.
Proof.
  induction ls as [|x ls IH]; intros Hall b Hlast; [done|].
  destruct ls as [|y ls].
  { injection Hlast as <-. simpl. rewrite length_app. simpl. lia. }
  assert (length x = s) as Hx by (apply (Hall 0%nat); simpl; [done|lia]).
  specialize (IH (λ k c Hk Hlt, Hall (S k) c Hk ltac:(simpl in *; lia)) b Hlast).
  change (concat (x :: y :: ls)) with (x ++ concat (y :: ls)).
  rewrite length_app, IH, Hx. simpl. lia.
Qed.

Lemma ceil_div_unique (a b m : Z) :
  0 < b → b * (m - 1) < a → a ≤ b * m → ceil_div a b = m.
Proof.
  intros Hb Hlo Hhi. destruct (ceil_div_bounds a b Hb) as [Hc1 Hc2].
  destruct (Z.lt_trichotomy (ceil_div a b) m) as [Hlt|[Heq|Hgt]]; [|done|].
  - assert (b * ceil_div a b ≤ b * (m - 1)) by (apply Z.mul_le_mono_nonneg_l; lia). lia.
  - assert (b * m ≤ b * (ceil_div a b - 1)) by (apply Z.mul_le_mono_nonneg_l; lia). lia.
Qed.

(** X8. How many sets the Batcher makes of a text with at least one line:
    the ceiling of the number of lines over the set size, between 1 and the
    number of lines, the last set taking what is left. Split by count gives
    exactly the requested number of sets only when the requested number
    less one, times the set size, is below the number of lines, and one
    line per set when at least as many sets as lines are requested; split
    by size gives a single set when the size is at least the number of
    lines. *)
Theorem number_of_sets (fuel : nat) (raw : jsstring) (mode : SplitMode) (n : Z) :
  (length (lines_of raw) < fuel)%nat →
  lines_of raw ≠ [] →
  let len := Z.of_nat (length (lines_of raw)) in
  let s := setSize_of mode n (lines_of raw) in
  ∃ p, processedData fuel raw mode n = Some p
    ∧ Z.of_nat (length (sets p)) = ceil_div len s
    ∧ 1 ≤ Z.of_nat (length (sets p)) ≤ len
    ∧ (∃ b, last (sets p) = Some b
          ∧ Z.of_nat (length (items b)) = len - (Z.of_nat (length (sets p)) - 1) * s)
    ∧ (mode = count →
         (Z.of_nat (length (sets p)) = Z.max 1 n ↔ (Z.max 1 n - 1) * s < len)
         ∧ (len ≤ Z.max 1 n →
              Z.of_nat (length (sets p)) = len
              ∧ ∀ b, b ∈ sets p → length (items b) = 1%nat))
    ∧ (mode = size → len ≤ Z.max 1 n → length (sets p) = 1%nat).
Proof.
  intros Hfuel Hne len s.
  destruct (processedData_spec fuel raw mode n Hfuel)
    as (p & Hrun & _ & Hconcat & Hsets & Hlast & _).
  fold s len in Hsets, Hlast.
  pose proof (setSize_of_pos mode n _ Hne) as Hs. fold s in Hs.
  assert (sets p ≠ []) as Hsne.
  { intros E. rewrite E in Hconcat. simpl in Hconcat. by rewrite <-Hconcat in Hne. }
  specialize (Hlast Hsne).
  assert (0 < len) as Hlen by (subst len; destruct (lines_of raw); simpl; [done|lia]).
  destruct (last (sets p)) as [b|] eqn:Hb; [|by apply last_None in Hb].
  assert (sets p !! (length (sets p) - 1)%nat = Some b) as Hbk.
  { rewrite last_lookup in Hb. by rewrite Nat.sub_1_r. }
  destruct (Hsets _ _ Hbk) as (_ & Hbne & Hble & _).
  assert (0 < length (items b))%nat by (destruct (items b); simpl; [done|lia]).
  assert (0 < length (sets p))%nat by (destruct (sets p); simpl; [done|lia]).
  pose proof (concat_uniform_length (items <$> sets p) (Z.to_nat s)) as Hsum.
  rewrite Hconcat, length_fmap, fmap_last, Hb in Hsum.
  assert (∀ k c, (items <$> sets p) !! k = Some c →
            (S k < length (sets p))%nat → length c = Z.to_nat s) as Hfull.
  { intros k c Hk Hlt. rewrite list_lookup_fmap in Hk.
    destruct (sets p !! k) as [c'|] eqn:Hc; [|done]. injection Hk as <-.
    destruct (Hsets _ _ Hc) as (_ & _ & _ & Hfull). specialize (Hfull Hlt). lia. }
  specialize (Hsum Hfull (items b) eq_refl). clear Hfull.
  assert (len = (Z.of_nat (length (sets p)) - 1) * s + Z.of_nat (length (items b)))
    as Hlen_eq.
  { subst len. rewrite Hsum. rewrite Nat2Z.inj_add, Nat2Z.inj_mul, Nat2Z.inj_sub by lia.
    rewrite Z2Nat.id by lia. done. }
  set (m := Z.of_nat (length (sets p))) in *.
  assert (m ≤ len) as Hmlen by nia.
  assert (ceil_div len s = m) as Hm by (apply ceil_div_unique; nia).
  exists p. fold m. split; [done|]. split; [done|]. split; [lia|].
  split; [exists b; split; [done|lia]|]. split.
  - intros ->. assert (s = ceil_div len (Z.max 1 n)) as Hs_eq by reflexivity.
    destruct (ceil_div_bounds len (Z.max 1 n) ltac:(lia)) as [Hc1 Hc2].
    rewrite <-Hs_eq in Hc1, Hc2.
    split; [split|].
    + intros Heq. rewrite <-Heq. exact Hlast.
    + intros Hlo. rewrite <-Hm. clearbody s m len.
      set (t := Z.max 1 n) in *. assert (1 ≤ t) by lia. clearbody t.
      apply ceil_div_unique; nia.
    + intros Hbig. assert (s = 1) as Hs1 by nia.
      split; [nia|]. intros c [k Hk]%list_elem_of_lookup.
      destruct (Hsets _ _ Hk) as (_ & Hcne & Hcle & _).
      destruct (items c); simpl in *; [done|lia].
  - intros -> Hbig. assert (s = Z.max 1 n) as Hs_eq by reflexivity.
    assert (m = 1) by nia. lia.
Qed.

Lemma number_of_sets_witness :
  ∃ p, processedData 6 (js "a" ++ [LF] ++ js "b" ++ [LF] ++ js "c") size 2 = Some p
     ∧ Z.of_nat (length (sets p)) = 2.
Proof.
  destruct (number_of_sets 6 (js "a" ++ [LF] ++ js "b" ++ [LF] ++ js "c") size 2)
    as (p & Hrun & Hm & _).
  - vm_compute. lia.
  - vm_compute. discriminate.
  - exists p. split; [exact Hrun|]. rewrite Hm. vm_compute. reflexivity.
Defined.

(** X9. Two sets with different identifiers never get the same label, under
    either naming scheme: the decimal label and the letter label both
    determine the identifier. *)
Theorem set_labels_distinct (fuel : nat) (namingScheme : NamingScheme)
    (a b : BatchSet) (label : jsstring) :
  0 ≤ id a → 0 ≤ id b →
  (Z.to_nat (id a) + 1 < fuel)%nat → (Z.to_nat (id b) + 1 < fuel)%nat →
  setLabel fuel namingScheme a = Some label →
  setLabel fuel namingScheme b = Some label →
  id a = id b.
Proof.
  intros Ha Hb Hfa Hfb Hla Hlb. destruct namingScheme; unfold setLabel in Hla, Hlb.
  - rewrite <-Hlb in Hla. apply (inj Some), app_inv_head in Hla.
    pose proof (decimal_value_number_to_string (id a + 1)) as Hda.
    rewrite Hla, decimal_value_number_to_string in Hda. injection Hda. lia.
  - unfold getAlphaLabel in Hla, Hlb.
    destruct (getAlphaLabel_loop_spec fuel (id a + 1) []) as (da & Hra & Hua & Hva);
      [lia..|].
    destruct (getAlphaLabel_loop_spec fuel (id b + 1) []) as (db & Hrb & Hub & Hvb);
      [lia..|].
    rewrite Hra in Hla. rewrite Hrb in Hlb. cbn [mbind option_bind] in Hla, Hlb.
    rewrite <-Hlb in Hla. apply (inj Some), app_inv_head in Hla.
    rewrite !(right_id_L [] (++)) in Hla.
    rewrite Hla in Hva. lia.
Qed.

Lemma set_labels_distinct_witness :
  setLabel 30 alpha {| id := 27; items := [] |} = Some (js "Set AB")
  ∧ id {| id := 27; items := [js "x"] |} = id {| id := 27; items := [] |}.
Proof.
  split; [vm_compute; reflexivity|].
  apply (set_labels_distinct 30 alpha _ _ (js "Set AB")); simpl; try lia;
    vm_compute; reflexivity.
Defined.

Lemma foldl_offset_None (sets : list BatchSet) (indices : list nat) :
  foldl (λ acc i, prevCount ← acc; s ← sets !! i;
                  Some (prevCount + Z.of_nat (length (items s)))) None indices = None.
Proof. induction indices as [|i indices IH]; simpl; [done|apply IH]. Qed.

(** X10. The offsets [getFormattedCount] gives to the sets: 0 for the first
    set; for each set, the offset of the next one is its own plus its number
    of items, so the numbering runs on from set to set; past the last set
    the offset is the number of all items; one step further, reading the
    set that is not there fails. *)
Theorem getFormattedCount_offsets (sets : list BatchSet) (k : nat) :
  getFormattedCount 0 sets = Some 0
  ∧ (∀ b, sets !! k = Some b →
       ∃ offset, getFormattedCount k sets = Some offset
         ∧ 0 ≤ offset
         ∧ getFormattedCount (S k) sets
           = Some (offset + Z.of_nat (length (items b))))
  ∧ getFormattedCount (length sets) sets
    = Some (Z.of_nat (length (concat (items <$> sets))))
  ∧ ((length sets < k)%nat → getFormattedCount k sets = None).
Proof.
  split; [done|]. split; [|split].
  - intros b Hb. pose proof (lookup_lt_Some _ _ _ Hb) as Hlt.
    eexists. split; [apply getFormattedCount_spec; lia|]. split; [lia|].
    rewrite getFormattedCount_spec by lia.
    rewrite (take_S_r _ _ _ Hb), fmap_app, concat_app, length_app. simpl.
    rewrite (right_id_L [] (++)). f_equal. lia.
  - rewrite getFormattedCount_spec by lia. by rewrite firstn_all.
  - intros Hk. unfold getFormattedCount.
    replace k with (length sets + S (k - length sets - 1))%nat by lia.
    rewrite seq_app, foldl_app.
    change (foldl _ (Some 0) (seq 0 (length sets)))
      with (getFormattedCount (length sets) sets).
    rewrite getFormattedCount_spec by lia. simpl.
    rewrite (lookup_ge_None_2 sets (length sets)) by lia. simpl.
    apply foldl_offset_None.
Qed.

Lemma string_of_uint_digits d :
  Forall (λ c, (48 ≤ c ≤ 57)%N) (js (NilEmpty.string_of_uint d)).
Proof. induction d; simpl; constructor; try done; lia. Qed.

Lemma number_to_string_digits (n : Z) :
  0 ≤ n →
  number_to_string n ≠ [] ∧ Forall (λ c, (48 ≤ c ≤ 57)%N) (number_to_string n).
Proof.
  intros Hn. unfold number_to_string. destruct n as [|p|p]; [| |lia].
  { split; [done|]. apply Forall_singleton. vm_compute. split; discriminate. }
  simpl. pose proof (DecimalPos.Unsigned.to_uint_nonnil p) as Hp.
  destruct (Pos.to_uint p) eqn:E; try done; split; try done;
    apply (string_of_uint_digits (_ _)).
Qed.

Lemma normal_line_intro l :
  l ≠ [] → LF ∉ l →
  (∀ c r, l = c :: r → is_white c = false) →
  (∀ c r, l = r ++ [c] → is_white c = false) →
  normal_line l.
Proof.
  intros Hne Hlf Hfirst Hlast. split_and!; [done..|].
  unfold trim. rewrite (drop_white_id l) by done.
  rewrite drop_white_id; [apply reverse_involutive|].
  intros c r E. apply (Hlast c (reverse r)).
  by rewrite <-(reverse_involutive l), E, reverse_cons.
Qed.

Lemma normal_line_prepend a b :
  LF ∉ a → (∀ c r, a = c :: r → is_white c = false) →
  normal_line b → normal_line (a ++ b).
Proof.
  intros Ha Hfirst Hb. destruct (normal_line_ends b Hb) as [Hb1 Hb2].
  destruct Hb as (Hne & Hlf & _). apply normal_line_intro.
  - intros [_ ?]%app_eq_nil. done.
  - rewrite elem_of_app. tauto.
  - intros c r E. destruct a as [|c' a']; simpl in E.
    + by apply (Hb1 c r).
    + injection E as <- _. by apply (Hfirst c' a').
  - intros c r E. destruct b as [|x b' _] using rev_ind; [done|].
    rewrite (assoc_L (++)) in E. apply app_inj_tail in E as [_ <-].
    by apply (Hb2 x b').
Qed.

Lemma elem_of_concat {A} (x : A) (ls : list (list A)) (l : list A) :
  l ∈ ls → x ∈ l → x ∈ concat ls.
Proof.
  intros Hl Hx. induction Hl as [l ls|l l' ls _ IH]; simpl; rewrite elem_of_app; auto.
Qed.

(** X11. What [copySet] writes to the clipboard, read back through the
    normalizer, is line by line what was written: one line for each item of
    the set, none lost, merged or changed, for any offset from zero on and
    any prefix without a line feed (and, when the lines are not numbered, not
    beginning with white space). Without numbering and prefix the lines read
    back are the items of the set. *)
Theorem copySet_read_back (fuel : nat) (raw : jsstring) (mode : SplitMode) (n : Z)
    (p : Processed) (b : BatchSet)
    (useIndexing : bool) (prefix : jsstring) (offset : Z) :
  (length (lines_of raw) < fuel)%nat →
  processedData fuel raw mode n = Some p →
  b ∈ sets p →
  0 ≤ offset →
  LF ∉ prefix →
  (useIndexing = false → ∀ c r, prefix = c :: r → is_white c = false) →
  lines_of (copySet useIndexing prefix (items b) offset)
  = imap (formatItem useIndexing prefix offset) (items b)
  ∧ length (lines_of (copySet useIndexing prefix (items b) offset)) = length (items b)
  ∧ (useIndexing = false → prefix = [] →
     lines_of (copySet useIndexing prefix (items b) offset) = items b).
Proof.
  intros Hfuel Hrun Hb Hoff Hlf Hprefix.
  destruct (processedData_spec fuel raw mode n Hfuel) as (p' & Hrun' & _ & Hconcat & _).
  rewrite Hrun in Hrun'. injection Hrun' as <-.
  assert (Forall normal_line (items b)) as Hitems.
  { apply Forall_forall. intros item Hitem. apply (lines_of_normal_line raw).
    rewrite <-Hconcat. apply (elem_of_concat item (items <$> sets p) (items b)); [|done].
    by apply list_elem_of_fmap_2. }
  assert (lines_of (copySet useIndexing prefix (items b) offset)
          = imap (formatItem useIndexing prefix offset) (items b)) as Hlines.
  { unfold copySet. apply lines_of_join, Forall_forall.
    intros l (idx & item & -> & Hitem)%elem_of_lookup_imap.
    assert (normal_line item) as Hnormal
      by (eapply Forall_forall; [exact Hitems|by eapply list_elem_of_lookup_2]).
    unfold formatItem. rewrite (assoc_L (++)). apply normal_line_prepend; [| |done].
    - rewrite elem_of_app. intros [Hin|Hin].
      + destruct useIndexing; [|by apply elem_of_nil in Hin].
        apply elem_of_app in Hin as [Hin|Hin].
        * destruct (number_to_string_digits (offset + Z.of_nat idx + 1)) as [_ Hd]; [lia|].
          rewrite Forall_forall in Hd. specialize (Hd _ Hin). unfold LF in Hd. lia.
        * vm_compute in Hin. set_solver.
      + case_bool_decide; [|by apply elem_of_nil in Hin].
        apply elem_of_app in Hin as [Hin|Hin]; [done|].
        vm_compute in Hin. set_solver.
    - intros c r E. destruct useIndexing.
      + destruct (number_to_string_digits (offset + Z.of_nat idx + 1)) as [Hne Hd]; [lia|].
        destruct (number_to_string (offset + Z.of_nat idx + 1)) as [|d ds]; [done|].
        simpl in E. injection E as <- _. apply Forall_cons in Hd as [Hd _].
        unfold is_white. repeat (apply orb_false_intro); try (apply N.eqb_neq; lia);
          apply andb_false_iff; rewrite !N.leb_gt; lia.
      + simpl in E. case_bool_decide as Hp; [|done].
        destruct prefix as [|c' r']; [done|]. simpl in E. injection E as <- _.
        by apply (Hprefix eq_refl c' r'). }
  split; [done|]. split; [by rewrite Hlines, length_imap|].
  intros -> ->. rewrite Hlines. unfold formatItem. simpl.
  change (imap (const (@Datatypes.id jsstring)) (items b) = items b).
  by rewrite imap_const, list_fmap_id.
Qed.

Lemma copySet_read_back_witness :
  lines_of (copySet true (js "Day") [js "a"; js "b"] 0)
  = [js "1. Day a"; js "2. Day b"].
Proof.
  pose (raw := js "a" ++ [LF] ++ js "b" ++ [LF] ++ js "c").
  destruct (copySet_read_back 6 raw size 2
              {| sets := [ {| id := 0; items := [js "a"; js "b"] |};
                           {| id := 1; items := [js "c"] |} ]; totalItems := 3 |}
              {| id := 0; items := [js "a"; js "b"] |} true (js "Day") 0)
    as (Hlines & _).
  - vm_compute. lia.
  - vm_compute. reflexivity.
  - left.
  - lia.
  - vm_compute. set_solver.
  - discriminate.
  - etransitivity; [exact Hlines|]. vm_compute. reflexivity.
Defined.

End BatcherMore.

(** ** The Comparator, again *)

Section ComparatorMore.
Import Comparator.



Lemma filter_length_all {A} (P : A → Prop) `{∀ x, Decision (P x)} (l : list A) :
  length (filter P l) = length l ↔ Forall P l.
Proof.
  split; [|intros Hl; by rewrite filter_all].
  induction l as [|x l IH]; [constructor|].
  pose proof (length_filter P l) as Hle.
  destruct (decide (P x)).
  - rewrite filter_cons_True by done. simpl. intros [= E]. constructor; auto.
  - rewrite filter_cons_False by done. simpl. lia.
Qed.

Lemma filter_length_none {A} (P : A → Prop) `{∀ x, Decision (P x)} (l : list A) :
  length (filter P l) = 0%nat ↔ Forall (λ x, ¬ P x) l.
Proof.
  rewrite length_zero_iff_nil. induction l as [|x l IH]; [by split; [constructor|]|].
  rewrite Forall_cons, <-IH. destruct (decide (P x)).
  - rewrite filter_cons_True by done. naive_solver.
  - rewrite filter_cons_False by done. naive_solver.
Qed.

(** What the numbers of a comparison count, in terms of the two sets. *)
Lemma compare_counts (listA listB : jsstring) :
  let s := stats (handleCompare listA listB) in
  let A := lines_of listA in
  let B := lines_of listB in
  (0 ≤ inBoth s ∧ inBoth s ≤ totalA s ∧ inBoth s ≤ totalB s)
  ∧ (inBoth s + inAOnly s = totalA s ∧ inBoth s + inBOnly s = totalB s)
  ∧ (totalA s = 0 ↔ A = []) ∧ (totalB s = 0 ↔ B = [])
  ∧ (inBoth s = totalA s ↔ ∀ x, x ∈ A → x ∈ B)
  ∧ (inBoth s = totalB s ↔ ∀ x, x ∈ B → x ∈ A)
  ∧ (inBoth s = 0 ↔ ∀ x, x ∈ A → x ∉ B).
Proof.
  intros s A B. subst s. rewrite handleCompare_unfold. fold A B. simpl.
  pose proof (new_Set_NoDup A) as HA. pose proof (new_Set_NoDup B) as HB.
  pose proof (length_filter (λ x, x ∈ new_Set B) (new_Set A)) as H1.
  pose proof (length_filter (λ x, x ∈ new_Set A) (new_Set B)) as H2.
  pose proof (Permutation_length (filter_common_perm _ _ HA HB)) as H3.
  pose proof (filter_split_length (λ x, x ∈ new_Set A) (new_Set B)) as H4.
  pose proof (filter_split_length (λ x, x ∈ new_Set B) (new_Set A)) as H5.
  assert (∀ l, Z.of_nat (length (new_Set l)) = 0 ↔ l = []) as Hnil.
  { intros l. split; [|by intros ->].
    intros E. apply new_Set_nil_inv, length_zero_iff_nil. lia. }
  split_and!; try lia; try apply Hnil.
  - rewrite Nat2Z.inj_iff, filter_length_all, Forall_forall.
    by setoid_rewrite new_Set_elem_of.
  - rewrite H3, Nat2Z.inj_iff, filter_length_all, Forall_forall.
    by setoid_rewrite new_Set_elem_of.
  - change 0 with (Z.of_nat 0). rewrite Nat2Z.inj_iff, filter_length_none, Forall_forall.
    by setoid_rewrite new_Set_elem_of.
Qed.


Lemma filter_trim_length (pieces : list jsstring) :
  length (filter (λ l, trim l ≠ []) pieces)
  = length (filter (λ l, l ≠ []) (trim <$> pieces)).
Proof.
  induction pieces as [|l pieces IH]; [done|]. csimpl.
  destruct (decide (trim l = [])) as [E|E].
  - rewrite !filter_cons_False by naive_solver. done.
  - rewrite !filter_cons_True by done. simpl. by rewrite IH.
Qed.

(** X13. The counters, the button and the chart of the Comparator. The
    counter under a text area shows the number of lines the comparison
    reads from it; the total of a list is at most that, and equal to it
    exactly when no line of the list is repeated. The Compare button is
    disabled exactly when one of the counters shows 0. The three slices of
    the chart add up to the number of different lines of both lists
    together. *)
Theorem counters_button_and_chart (listA listB : jsstring) :
  let r := handleCompare listA listB in
  (lineCount listA = Z.of_nat (length (lines_of listA))
   ∧ totalA (stats r) ≤ lineCount listA
   ∧ (totalA (stats r) = lineCount listA ↔ NoDup (lines_of listA)))
  ∧ (lineCount listB = Z.of_nat (length (lines_of listB))
     ∧ totalB (stats r) ≤ lineCount listB
     ∧ (totalB (stats r) = lineCount listB ↔ NoDup (lines_of listB)))
  ∧ (compareDisabled listA listB = true ↔ lineCount listA = 0 ∨ lineCount listB = 0)
  ∧ (compareDisabled listA listB = false → 1 ≤ totalA (stats r) ∧ 1 ≤ totalB (stats r))
  ∧ (∃ a c b, data (Some r) = [ (js "Only in List A", a, js "#0d9488");
                                 (js "Common", c, js "#64748b");
                                 (js "Only in List B", b, js "#e11d48") ]
       ∧ 0 ≤ a ∧ 0 ≤ c ∧ 0 ≤ b
       ∧ a + c + b = Z.of_nat (length (remove_dups (lines_of listA ++ lines_of listB)))).
Proof.
  intros r.
  assert (∀ text, lineCount text = Z.of_nat (length (lines_of text))) as Hcount.
  { intros text. unfold lineCount, lines_of. by rewrite filter_trim_length. }
  assert (∀ text, lineCount text = 0 ↔ blank text = true) as Hblank.
  { intros text. rewrite Hcount, <-lines_of_nil.
    split; [intros E; apply length_zero_iff_nil; lia|by intros ->]. }
  destruct (compare_sizes listA listB) as (H0 & _ & _ & EA & EB & _ & EU & _).
  destruct (compare_counts listA listB) as (_ & (HsA & HsB) & HnA & HnB & _).
  fold r in H0, EA, EB, EU, HsA, HsB, HnA, HnB.
  assert (∀ l, Z.of_nat (length (new_Set l)) = Z.of_nat (length l) ↔ NoDup l) as Hnd.
  { intros l. split.
    - intros E. apply new_Set_length_eq. lia.
    - intros E. by rewrite new_Set_id. }
  pose proof (new_Set_length_le (lines_of listA)).
  pose proof (new_Set_length_le (lines_of listB)).
  split_and!.
  - apply Hcount.
  - rewrite Hcount, EA. lia.
  - rewrite Hcount, EA. apply Hnd.
  - apply Hcount.
  - rewrite Hcount, EB. lia.
  - rewrite Hcount, EB. apply Hnd.
  - unfold compareDisabled. by rewrite orb_true_iff, !Hblank.
  - unfold compareDisabled. rewrite orb_false_iff, <-!not_true_iff_false, <-!lines_of_nil.
    intros [HA HB]. rewrite <-HnA in HA. rewrite <-HnB in HB. lia.
  - eexists _, _, _. split; [done|]. rewrite <-EU.
    assert (0 ≤ inAOnly (stats r)) by (unfold r; rewrite handleCompare_unfold; simpl; lia).
    assert (0 ≤ inBOnly (stats r)) by (unfold r; rewrite handleCompare_unfold; simpl; lia).
    lia.
Qed.

(** X14. The Comparator agrees with the Analyzer. Compared with a blank
    list, every line of a text is on its own side and nothing is common:
    that side is the Analyzer's unique list. Compared with itself, a text has
    its unique list in common and nothing on either side, and the total of
    each list is the Analyzer's unique count. *)
Theorem comparison_agrees_with_analysis
    (now text nothing : jsstring) (r : Analyzer.AnalysisResult) :
  Analyzer.handleAnalyze now text = Some r →
  blank nothing = true →
  (aOnly (handleCompare text nothing) = Analyzer.uniqueList r
   ∧ intersection (handleCompare text nothing) = []
   ∧ bOnly (handleCompare text nothing) = [])
  ∧ (bOnly (handleCompare nothing text) = Analyzer.uniqueList r
     ∧ intersection (handleCompare nothing text) = []
     ∧ aOnly (handleCompare nothing text) = [])
  ∧ (intersection (handleCompare text text) = Analyzer.uniqueList r
     ∧ aOnly (handleCompare text text) = []
     ∧ bOnly (handleCompare text text) = []
     ∧ totalA (stats (handleCompare text text)) = Analyzer.unique (Analyzer.stats r)
     ∧ totalB (stats (handleCompare text text)) = Analyzer.unique (Analyzer.stats r)).
Proof.
  intros Hrun Hblank. apply lines_of_nil in Hblank.
  destruct (handleAnalyze_Some _ _ _ Hrun) as (Hstats & Huniq & _).
  rewrite Hstats, Huniq, !handleCompare_unfold, Hblank.
  cbn [aOnly bOnly intersection stats totalA totalB Analyzer.unique].
  set (S := new_Set (lines_of text)).
  assert (filter (λ x, x ∉ []) S = S) as E1
    by (apply filter_all, Forall_forall; intros x _; apply not_elem_of_nil).
  assert (filter (λ x, x ∈ []) S = []) as E2.
  { apply length_zero_iff_nil, filter_length_none, Forall_forall.
    intros x _. apply not_elem_of_nil. }
  assert (filter (λ x, x ∈ S) S = S) as E3 by (apply filter_all, Forall_forall; auto).
  assert (filter (λ x, x ∉ S) S = []) as E4.
  { apply length_zero_iff_nil, filter_length_none, Forall_forall. auto. }
  change (new_Set []) with (@nil jsstring).
  rewrite ?filter_nil, E1, E2, E3, E4. done.
Qed.

Lemma comparison_agrees_with_analysis_witness :
  aOnly (handleCompare (js "b" ++ [LF] ++ js "a" ++ [LF] ++ js "b") (js " "))
  = [js "a"; js "b"].
Proof.
  pose (text := js "b" ++ [LF] ++ js "a" ++ [LF] ++ js "b").
  destruct (Analyzer.handleAnalyze [] text) as [r|] eqn:Hrun;
    [|vm_compute in Hrun; discriminate].
  destruct (comparison_agrees_with_analysis [] text (js " ") r Hrun) as ((Ha & _) & _).
  - vm_compute. reflexivity.
  - fold text. rewrite Ha. vm_compute in Hrun. injection Hrun as <-.
    vm_compute. reflexivity.
Defined.

End ComparatorMore.

(** ** The Topic Sorter *)

Section TopicSorterMore.
Import JSON GeminiService TopicSorter.

Lemma attempt_few (backend : Request → settled) (apiKey : jsstring)
    (titles : list jsstring) :
  (length titles < 2)%nat →
  attempt backend apiKey titles
  = ([], [], inl (Thrown (Error (js "Please enter at least 2 titles to categorize.")))).
Proof. intros H. unfold attempt. by rewrite bool_decide_eq_true_2. Qed.

Lemma attempt_enough (backend : Request → settled) (apiKey : jsstring)
    (titles : list jsstring) :
  apiKey ≠ [] → (2 ≤ length titles)%nat →
  let request := request_of (prompt_of (take 500 titles)) in
  (attempt backend apiKey titles).1.1 = [request]
  ∧ (length (attempt backend apiKey titles).1.2 ≤ 1)%nat
  ∧ (∀ text result,
       backend request = Fulfilled (Some text) → text ≠ [] → parse text = Some result →
       (attempt backend apiKey titles).1.2 = []
       ∧ (attempt backend apiKey titles).2 = get_categories result).
Proof.
  intros Hkey Hlen request. unfold attempt.
  rewrite bool_decide_eq_false_2 by lia.
  assert (titles ≠ []) as Hne by (intros ->; simpl in Hlen; lia).
  rewrite (categorizeTitles_run backend titles apiKey Hkey Hne). fold request.
  destruct (backend request) as [[[|c text]|]|reason] eqn:Hb; simpl.
  - split_and!; [done|lia|]. intros ? ? [=]. subst. done.
  - destruct (parse (c :: text)) as [result|] eqn:Hp; simpl.
    + split_and!; [done|lia|]. intros ? ? [= <-] _ Hp'.
      rewrite Hp in Hp'. by injection Hp' as <-.
    + split_and!; [done|lia|]. intros ? ? [= <-] _ Hp'. by rewrite Hp in Hp'.
  - split_and!; [done|lia|]. intros ? ? [=].
  - split_and!; [done|lia|]. intros ? ? [=].
Qed.

(** X15. What a click on Sort sends. At most one request leaves the
    browser, and one does exactly when the key is not empty and the text has
    at least two titles; it is the request for the first 500 titles. While
    it is awaited the component shows the loading state with the previous
    results and error cleared. The settings are opened exactly when the text
    has a title and the key is empty. At most one error is logged. *)
Theorem handleSort_requests (engine : Engine) (backend : Request → settled)
    (apiKey : jsstring) (st : State) :
  let e := handleSort engine backend apiKey st in
  let titles := lines_of (inputText st) in
  (requests e = [] ∨ requests e = [request_of (prompt_of (take 500 titles))])
  ∧ (requests e ≠ [] ↔ apiKey ≠ [] ∧ (2 ≤ length titles)%nat)
  ∧ (waiting e = None ↔ requests e = [])
  ∧ (∀ w, waiting e = Some w →
       w = {| inputText := inputText st; categories := Value (JArray []);
              loading := true; error := None |})
  ∧ (settingsOpened e = true ↔ titles ≠ [] ∧ apiKey = [])
  ∧ (length (console e) ≤ 1)%nat.
Proof.
  intros e titles. subst e. unfold handleSort.
  destruct (blank (inputText st)) eqn:Hblank.
  { apply lines_of_nil in Hblank. fold titles in Hblank. rewrite Hblank. simpl.
    split_and!; try done; [by left|naive_solver lia|naive_solver|lia]. }
  assert (titles ≠ []) as Hne.
  { intros E. apply lines_of_nil in E. congruence. }
  case_bool_decide as Hkey.
  { simpl. split_and!; try done; [by left|naive_solver|lia]. }
  fold titles. cbn [requests waiting settingsOpened console].
  destruct (decide (length titles < 2)%nat) as [Hfew|Hmany].
  - rewrite (attempt_few _ _ _ Hfew). simpl.
    split_and!; try done; [by left|naive_solver lia|naive_solver|lia].
  - destruct (attempt_enough backend apiKey titles Hkey ltac:(lia)) as (Hsent & Hlog & _).
    rewrite Hsent. split_and!; try done.
    + by right.
    + split; [intros _; split; [done|lia]|done].
    + intros w [= <-]. done.
    + naive_solver.
Qed.

(** X16. What a click on Sort leaves on the screen. The text is never
    changed. On a blank text nothing changes at all. With a title but no key
    only the error changes, to the request to add a key. Otherwise loading
    is off at the end, and either there is no error, or there is one, it is
    not empty, and the results are cleared. With a key and a single title
    the error asks for at least two titles. When the answer parses to an
    object, what is stored as the results is its member [categories]: the
    value [undefined] when it has none. *)
Theorem handleSort_outcome (engine : Engine) (backend : Request → settled)
    (apiKey : jsstring) (st : State) :
  let e := handleSort engine backend apiKey st in
  let titles := lines_of (inputText st) in
  inputText (final e) = inputText st
  ∧ (titles = [] → final e = st)
  ∧ (titles ≠ [] → apiKey = [] →
       final e = {| inputText := inputText st; categories := categories st;
                    loading := loading st;
                    error := Some (js "Please add your Gemini API Key in settings first.") |})
  ∧ (titles ≠ [] → apiKey ≠ [] →
       loading (final e) = false
       ∧ (error (final e) = None
          ∨ ∃ m, error (final e) = Some m ∧ m ≠ []
                 ∧ categories (final e) = Value (JArray [])))
  ∧ (length titles = 1%nat → apiKey ≠ [] →
       error (final e) = Some (js "Please enter at least 2 titles to categorize."))
  ∧ (∀ text members,
       (2 ≤ length titles)%nat → apiKey ≠ [] →
       backend (request_of (prompt_of (take 500 titles))) = Fulfilled (Some text) →
       text ≠ [] → parse text = Some (JObject members) →
       error (final e) = None
       ∧ console e = []
       ∧ categories (final e)
         = match member (js "categories") members with
           | Some v => Value v
           | None => Undefined
           end).
Proof.
  intros e titles. subst e. unfold handleSort.
  destruct (blank (inputText st)) eqn:Hblank.
  { apply lines_of_nil in Hblank. fold titles in Hblank. rewrite Hblank. simpl.
    split_and!; try done. intros ? ? ?. lia. }
  assert (titles ≠ []) as Hne.
  { intros E. apply lines_of_nil in E. congruence. }
  case_bool_decide as Hkey.
  { simpl. split_and!; try done. }
  fold titles. cbn [final console].
  split; [by destruct (attempt backend apiKey titles).2|].
  split; [done|]. split; [done|]. split; [|split].
  - intros _ _. destruct (attempt backend apiKey titles).2 as [err|found]; simpl.
    + split; [done|]. right. eexists. split; [done|]. split; [|done].
      case_bool_decide; [done|]. by vm_compute.
    + split; [done|]. by left.
  - intros Hone _. rewrite attempt_few by lia. cbn [snd error message].
    rewrite bool_decide_eq_true_2; [done|]. by vm_compute.
  - intros text members Hmany _ Hb Htext Hparse.
    destruct (attempt_enough backend apiKey titles Hkey Hmany) as (_ & _ & Hok).
    destruct (Hok text _ Hb Htext Hparse) as [Hlog Hres].
    rewrite Hlog, Hres. done.
Qed.

End TopicSorterMore.

(** ** The App *)

Section AppMore.
Import App.

Lemma session_snoc stored events e :
  session stored (events ++ [e]) = step (session stored events) e.
Proof. unfold session. by rewrite foldl_snoc. Qed.

Lemma session_app stored events more :
  session stored (events ++ more) = foldl step (session stored events) more.
Proof. unfold session. by rewrite foldl_app. Qed.

Lemma mount_ui (w : World) :
  storage (mount w) = storage w
  ∧ ui (mount w) = setApiKey (default (apiKey (ui w)) (storage w ≫= λ k,
                                 if bool_decide (k ≠ []) then Some k else None)) (ui w).
Proof.
  unfold mount. destruct w as [s [k|]]; simpl; [|by destruct s].
  case_bool_decide; simpl; [done|by destruct s].
Qed.

Ltac handlers :=
  unfold step, handleNavClick, handlePasswordSubmit, handleSaveKey, handleClearKey,
    openSettings, on_ui.

Lemma gate_invariant stored events :
  let s := ui (session stored events) in
  (currentView s = TOPICS → isAIUnlocked s = true)
  ∧ (isAIUnlocked s = true →
       PasswordChange ADMIN_PASSWORD ∈ events ∧ PasswordSubmit ∈ events)
  ∧ (passwordInput s = ADMIN_PASSWORD → PasswordChange ADMIN_PASSWORD ∈ events).
Proof.
  induction events as [|e events IH] using rev_ind.
  { unfold session. simpl. destruct (mount_ui {| ui := initial; storage := stored |}) as [_ ->].
    simpl. split_and!; [done|done|]. by vm_compute. }
  rewrite session_snoc. simpl in IH. destruct IH as (Hview & Hunlocked & Hinput).
  set (w := session stored events) in *. clearbody w. cbv zeta.
  setoid_rewrite elem_of_app. setoid_rewrite list_elem_of_singleton.
  destruct e as [mode| |value| | |value| | | | | |]; handlers;
    repeat (case_bool_decide || case_match); simpl in *; subst;
    split_and!; intros; simplify_eq; try tauto; try (split; tauto); try done.
  all: try (destruct (isAIUnlocked (ui w)); simpl in *; done).
Qed.

Lemma unlocked_step (w : World) (e : Event) :
  isAIUnlocked (ui w) = true → isAIUnlocked (ui (step w e)) = true.
Proof.
  intros H. destruct e; handlers; repeat (case_bool_decide || case_match); simpl; done.
Qed.

(** X17. The password lock. In every session, whatever is in the storage
    and whatever the user does: the AI view is shown only when the module is
    unlocked; the module is unlocked only after the password has been typed
    into the password field and the form has been submitted; once unlocked
    it stays unlocked for the rest of the session; and every session starts
    locked, on the Analyzer. *)
Theorem password_gate (stored : option jsstring) (events : list Event) :
  let s := ui (session stored events) in
  (currentView s = TOPICS → isAIUnlocked s = true)
  ∧ (isAIUnlocked s = true →
       PasswordChange ADMIN_PASSWORD ∈ events ∧ PasswordSubmit ∈ events)
  ∧ (∀ more, isAIUnlocked s = true →
       isAIUnlocked (ui (session stored (events ++ more))) = true)
  ∧ (isAIUnlocked (ui (session stored [])) = false
     ∧ currentView (ui (session stored [])) = ANALYZER).
Proof.
  intros s. destruct (gate_invariant stored events) as (Hview & Hunlocked & _).
  split; [done|]. split; [done|]. split.
  - intros more. rewrite session_app. subst s.
    generalize (session stored events). induction more as [|e more IH]; intros w Hw; [done|].
    simpl. by apply IH, unlocked_step.
  - unfold session. simpl.
    by destruct (mount_ui {| ui := initial; storage := stored |}) as [_ ->].
Qed.

Lemma key_invariant stored events :
  let w := session stored events in
  apiKey (ui w) = default [] (storage w)
  ∧ (SaveKey ∉ events → ClearKey ∉ events → storage w = stored)
  ∧ ((∀ k, stored = Some k → k ≠ [] ∧ trim k = k) →
     ∀ k, storage w = Some k → k ≠ [] ∧ trim k = k).
Proof.
  induction events as [|e events IH] using rev_ind.
  { unfold session. simpl.
    destruct (mount_ui {| ui := initial; storage := stored |}) as [-> ->]. simpl.
    split_and!; [|done|done]. destruct stored as [k|]; simpl; [|done].
    destruct k; [done|]. by rewrite bool_decide_eq_true_2. }
  rewrite session_snoc. simpl in IH. destruct IH as (Hkey & Hframe & Htrim).
  set (w := session stored events) in *. clearbody w. cbv zeta.
  setoid_rewrite not_elem_of_app. setoid_rewrite list_elem_of_singleton.
  destruct e as [mode| |value| | |value| | | | | |]; handlers;
    repeat (case_bool_decide || case_match); simpl in *;
    split_and!; try done; try (intros [? ?] [? ?]; by auto);
    try (intros ? ? [= <-]); try by auto.
  all: try (intros [? ?]; done).
  all: try (intros [? ?] [? ?]; done).
  match goal with H : negb (blank ?t) = true |- _ =>
    apply negb_true_iff in H; split; [|apply trim_idem];
    intros E; apply (f_equal (λ x, bool_decide (x = []))) in E;
    unfold blank in H; rewrite H in E; done
  end.
Qed.

(** X18. The key and the storage. In every session the key in use is the
    one kept in the storage (the empty key when there is none); the storage
    changes only by Save and Clear; a reload keeps the key and nothing else
    of the state. When the stored key was not blank and trimmed at the start,
    it stays so, and opening the settings and saving without typing changes
    neither the key nor the storage. *)
Theorem key_follows_storage (stored : option jsstring) (events : list Event) :
  let w := session stored events in
  apiKey (ui w) = default [] (storage w)
  ∧ (SaveKey ∉ events → ClearKey ∉ events → storage w = stored)
  ∧ ui (session (storage w) []) = setApiKey (apiKey (ui w)) initial
  ∧ ((∀ k, stored = Some k → k ≠ [] ∧ trim k = k) →
     (∀ k, storage w = Some k → k ≠ [] ∧ trim k = k)
     ∧ trim (apiKey (ui w)) = apiKey (ui w)
     ∧ apiKey (ui (session stored (events ++ [OpenSettings; SaveKey]))) = apiKey (ui w)
     ∧ storage (session stored (events ++ [OpenSettings; SaveKey])) = storage w).
Proof.
  intros w. destruct (key_invariant stored events) as (Hkey & Hframe & Htrim).
  fold w in Hkey, Hframe, Htrim.
  split; [done|]. split; [done|]. split.
  - destruct (key_invariant (storage w) []) as (Hkey' & _). unfold session in *. simpl in *.
    destruct (mount_ui {| ui := initial; storage := storage w |}) as [Hs Hu].
    rewrite Hs in Hkey'. simpl in Hkey'. rewrite Hu. simpl.
    rewrite Hu in Hkey'. simpl in Hkey'. by rewrite Hkey', Hkey.
  - intros Hstored. specialize (Htrim Hstored). split; [done|].
    assert (trim (apiKey (ui w)) = apiKey (ui w)) as Hfix.
    { rewrite Hkey. destruct (storage w) as [k|]; simpl; [by apply Htrim|done]. }
    split; [done|]. rewrite session_app. fold w. simpl.
    unfold handleSaveKey, openSettings. simpl. unfold blank. rewrite Hfix.
    case_bool_decide as Hempty; simpl; [done|].
    split; [done|]. rewrite Hkey in Hempty |- *.
    by destruct (storage w).
Qed.

Lemma key_follows_storage_witness :
  apiKey (ui (session None [TempKeyChange (js " k "); SaveKey; OpenSettings; SaveKey]))
  = js "k".
Proof.
  destruct (key_follows_storage None [TempKeyChange (js " k "); SaveKey])
    as (_ & _ & _ & Hclean).
  destruct Hclean as (_ & _ & Hsame & _); [done|].
  etransitivity; [exact Hsame|]. vm_compute. reflexivity.
Defined.

End AppMore.

(** ** The titles in the request *)

Section RequestMore.
Import JSON GeminiService.

Lemma scan_from_app st a b : scan_from st (a ++ b) = scan_from (scan_from st a) b.
Proof. unfold scan_from. by rewrite foldl_app. Qed.

Lemma scan_from_cons st c text :
  scan_from (Some st) (c :: text) = scan_from (scan_step st c) text.
Proof. done. Qed.

Lemma hex_value_hex_digit (n : N) : (n < 16)%N → hex_value (hex_digit n) = Some n.
Proof.
  intros Hn. unfold hex_digit, hex_value, is_digit.
  destruct (N.ltb_spec n 10).
  - rewrite (proj2 (N.leb_le _ _)), (proj2 (N.leb_le _ _)) by lia. simpl. f_equal. lia.
  - rewrite (proj2 (N.leb_le 48 _)), (proj2 (N.leb_gt _ 57)) by lia. simpl.
    rewrite (proj2 (N.leb_le _ _)), (proj2 (N.leb_le _ _)) by lia. simpl. f_equal. lia.
Qed.

Lemma scan_step_unicode acc seen code out c h :
  hex_value c = Some h →
  scan_step (InUnicode acc seen code, out) c
  = if bool_decide (seen = 3%nat) then Some (InString ((16 * code + h)%N :: acc), out)
    else Some (InUnicode acc (S seen) (16 * code + h)%N, out).
Proof. intros H. unfold scan_step. simpl. by rewrite H. Qed.

Lemma scan_unicode_escape acc out (c : N) :
  (c < 65536)%N →
  scan_from (Some (InString acc, out)) (unicode_escape c) = Some (InString (c :: acc), out).
Proof.
  intros Hc. unfold unicode_escape.
  change (js "\u") with [92%N; 117%N]. cbn [app].
  rewrite scan_from_cons. change (scan_step (InString acc, out) 92) with (Some (InEscape acc, out)).
  rewrite scan_from_cons. change (scan_step (InEscape acc, out) 117) with (Some (InUnicode acc 0 0, out)).
  assert (∀ n, (n mod 16 < 16)%N) as Hmod by (intros n; apply N.mod_lt; lia).
  rewrite scan_from_cons, (scan_step_unicode _ _ _ _ _ _ (hex_value_hex_digit _ (Hmod _))).
  rewrite bool_decide_eq_false_2 by lia.
  rewrite scan_from_cons, (scan_step_unicode _ _ _ _ _ _ (hex_value_hex_digit _ (Hmod _))).
  rewrite bool_decide_eq_false_2 by lia.
  rewrite scan_from_cons, (scan_step_unicode _ _ _ _ _ _ (hex_value_hex_digit _ (Hmod _))).
  rewrite bool_decide_eq_false_2 by lia.
  rewrite scan_from_cons, (scan_step_unicode _ _ _ _ _ _ (hex_value_hex_digit _ (Hmod _))).
  rewrite bool_decide_eq_true_2 by lia.
  cbn [scan_from foldl]. do 4 f_equal. clear -Hc. zify. Z.to_euclidean_division_equations. lia.
Qed.

Lemma scan_step_plain acc out (c : N) :
  c ≠ 34%N → c ≠ 92%N → (32 ≤ c)%N →
  scan_step (InString acc, out) c = Some (InString (c :: acc), out).
Proof.
  intros H34 H92 H32. unfold scan_step. simpl.
  rewrite (proj2 (N.eqb_neq _ _) H34), (proj2 (N.eqb_neq _ _) H92).
  by rewrite (proj2 (N.ltb_ge _ _) H32).
Qed.

Lemma scan_quote_units (n : nat) :
  ∀ (s acc : jsstring) (out : list token), (length s ≤ n)%nat →
    scan_from (Some (InString acc, out)) (quote_units s)
    = Some (InString (reverse s ++ acc), out).
Proof.
  induction n as [|n IH]; intros s acc out Hlen.
  { destruct s; [done|simpl in Hlen; lia]. }
  destruct s as [|c s]; [done|]. simpl in Hlen.
  assert (∀ esc acc', scan_from (Some (InString acc, out)) esc = Some (InString acc', out) →
            acc' = c :: acc →
            scan_from (Some (InString acc, out)) (esc ++ quote_units s)
            = Some (InString (reverse (c :: s) ++ acc), out)) as Hesc.
  { intros esc acc' Hscan ->. rewrite scan_from_app, Hscan, IH by lia.
    by rewrite reverse_cons, <-(assoc_L (++)). }
  cbn [quote_units].
  destruct (N.eqb_spec c 8) as [->|H8]; [by apply (Hesc _ (8%N :: acc))|].
  destruct (N.eqb_spec c 9) as [->|H9]; [by apply (Hesc _ (9%N :: acc))|].
  destruct (N.eqb_spec c 10) as [->|H10]; [by apply (Hesc _ (10%N :: acc))|].
  destruct (N.eqb_spec c 12) as [->|H12]; [by apply (Hesc _ (12%N :: acc))|].
  destruct (N.eqb_spec c 13) as [->|H13]; [by apply (Hesc _ (13%N :: acc))|].
  destruct (N.eqb_spec c 34) as [->|H34]; [by apply (Hesc _ (34%N :: acc))|].
  destruct (N.eqb_spec c 92) as [->|H92]; [by apply (Hesc _ (92%N :: acc))|].
  destruct (N.ltb_spec c 32) as [H32|H32].
  { apply (Hesc _ (c :: acc)); [|done]. apply scan_unicode_escape. lia. }
  assert (∀ text, scan_from (Some (InString acc, out)) (c :: text)
                  = scan_from (Some (InString (c :: acc), out)) text) as Hplain.
  { intros text. by rewrite scan_from_cons, scan_step_plain. }
  destruct (high_surrogate c) eqn:Hhigh.
  { unfold high_surrogate in Hhigh. apply andb_true_iff in Hhigh as [Hh1 Hh2].
    apply N.leb_le in Hh1, Hh2.
    destruct s as [|d s'].
    { rewrite <-(right_id_L [] (++) (unicode_escape c)).
      apply (Hesc _ (c :: acc)); [|done]. apply scan_unicode_escape. lia. }
    destruct (low_surrogate d) eqn:Hlow.
    - unfold low_surrogate in Hlow. apply andb_true_iff in Hlow as [Hl1 Hl2].
      apply N.leb_le in Hl1, Hl2. simpl in Hlen.
      rewrite Hplain, scan_from_cons, scan_step_plain by lia.
      rewrite IH by lia. by rewrite !reverse_cons, <-!(assoc_L (++)).
    - apply (Hesc _ (c :: acc)); [|done]. apply scan_unicode_escape. lia. }
  destruct (low_surrogate c) eqn:Hlow.
  { unfold low_surrogate in Hlow. apply andb_true_iff in Hlow as [Hl1 Hl2].
    apply N.leb_le in Hl1, Hl2.
    apply (Hesc _ (c :: acc)); [|done]. apply scan_unicode_escape. lia. }
  rewrite Hplain, IH by lia. by rewrite reverse_cons, <-(assoc_L (++)).
Qed.

Lemma scan_quote (s : jsstring) (out : list token) :
  scan_from (Some (Idle, out)) (quote s) = Some (Idle, TScalar (JString s) :: out).
Proof.
  unfold quote. cbn [app]. rewrite scan_from_cons.
  change (scan_step (Idle, out) 34) with (Some (InString [], out)).
  rewrite scan_from_app, (scan_quote_units (length s)) by done.
  rewrite (right_id_L [] (++)). cbn [scan_from foldl mbind option_bind].
  unfold scan_step. simpl. by rewrite reverse_involutive.
Qed.

Lemma scan_join_comma (arr : list jsstring) (out : list token) :
  scan_from (Some (Idle, out)) (join_comma (quote <$> arr))
  = Some (Idle, reverse (string_tokens arr) ++ out).
Proof.
  revert out. induction arr as [|s arr IH]; intros out; [done|].
  destruct arr as [|s' arr].
  { change (join_comma (quote <$> [s])) with (quote s). by rewrite scan_quote. }
  change (join_comma (quote <$> s :: s' :: arr))
    with (quote s ++ 44%N :: join_comma (quote <$> s' :: arr)).
  rewrite scan_from_app, scan_quote, scan_from_cons.
  change (scan_step (Idle, TScalar (JString s) :: out) 44)
    with (Some (Idle, TComma :: TScalar (JString s) :: out)).
  rewrite IH. change (string_tokens (s :: s' :: arr))
    with (TScalar (JString s) :: TComma :: string_tokens (s' :: arr)).
  by rewrite !reverse_cons, <-!(assoc_L (++)).
Qed.

Lemma scan_stringify (arr : list jsstring) :
  scan (stringify arr) = Some (TBeginArray :: string_tokens arr ++ [TEndArray]).
Proof.
  unfold scan, stringify. change (js "[") with [91%N]. change (js "]") with [93%N].
  change (foldl _ (Some (Idle, [])) ?text) with (scan_from (Some (Idle, [])) text).
  cbn [app]. rewrite scan_from_cons.
  change (scan_step (Idle, []) 91) with (Some (Idle, [TBeginArray])).
  rewrite scan_from_app, scan_join_comma. simpl.
  by rewrite reverse_cons, reverse_app, reverse_involutive.
Qed.

Lemma parse_from_cons st t tokens :
  parse_from (Some st) (t :: tokens) = parse_from (parse_step st t) tokens.
Proof. done. Qed.

Lemma parse_strings (s : jsstring) (rest : list jsstring) (els : list json) :
  parse_from (Some ([FArray els], Value)) (string_tokens (s :: rest) ++ [TEndArray])
  = Some ([], Finished (JArray (reverse els ++ (JString <$> s :: rest)))).
Proof.
  revert s els. induction rest as [|s' rest IH]; intros s els.
  { change (parse_from _ _)
      with (Some ([] : list frame, Finished (JArray (reverse (JString s :: els))))).
    by rewrite reverse_cons. }
  change (string_tokens (s :: s' :: rest))
    with (TScalar (JString s) :: TComma :: string_tokens (s' :: rest)).
  cbn [app]. rewrite !parse_from_cons.
  change (parse_step ([FArray els], Value) (TScalar (JString s)))
    with (Some ([FArray (JString s :: els)], Next)).
  rewrite parse_from_cons.
  change (parse_step ([FArray (JString s :: els)], Next) TComma)
    with (Some ([FArray (JString s :: els)], Value)).
  rewrite IH. by rewrite reverse_cons, <-(assoc_L (++)).
Qed.

(** [JSON.parse] reads back what [JSON.stringify] wrote of an array of
    strings. *)
Lemma parse_stringify (arr : list jsstring) :
  parse (stringify arr) = Some (JArray (JString <$> arr)).
Proof.
  unfold parse. rewrite scan_stringify. cbn [mbind option_bind].
  change (foldl _ (Some ([], Value)) ?tokens) with (parse_from (Some ([], Value)) tokens).
  rewrite parse_from_cons.
  change (parse_step ([], Value) TBeginArray) with (Some ([FArray []], ValueOrEnd)).
  destruct arr as [|s rest]; [done|].
  assert (parse_from (Some ([FArray []], ValueOrEnd)) (string_tokens (s :: rest) ++ [TEndArray])
          = parse_from (Some ([FArray []], Value)) (string_tokens (s :: rest) ++ [TEndArray]))
    as -> by (by destruct rest).
  by rewrite parse_strings.
Qed.

Lemma stringify_inj (a b : list jsstring) : stringify a = stringify b → a = b.
Proof.
  intros E. pose proof (parse_stringify a) as Ha. rewrite E, parse_stringify in Ha.
  injection Ha as Ha. clear E. revert b Ha.
  induction a as [|x a IH]; intros [|y b]; csimpl; intros [=]; [done|].
  subst. f_equal. by apply IH.
Qed.


(** X19. The request carries the titles. The prompt of the one request
    [categorizeTitles] sends is a fixed text around the JSON text of the
    first 500 titles; [JSON.parse] reads that JSON text back as the array of
    exactly those titles, whatever code units they hold; so two lists of
    titles that lead to the same request agree on their first 500 titles. *)
Theorem request_carries_the_titles (backend : Request → settled)
    (titles : list jsstring) (apiKey : jsstring) :
  apiKey ≠ [] → titles ≠ [] →
  ∃ request head tail,
    sent (run backend (categorizeTitles titles apiKey)) = [request]
    ∧ (∀ l, prompt_of l = head ++ stringify l ++ tail)
    ∧ contents request = head ++ stringify (take 500 titles) ++ tail
    ∧ parse (stringify (take 500 titles)) = Some (JArray (JString <$> take 500 titles))
    ∧ (∀ titles', titles' ≠ [] →
         sent (run backend (categorizeTitles titles' apiKey)) = [request] →
         take 500 titles' = take 500 titles).
Proof.
  intros Hkey Hne.
  assert (∀ l, titles ≠ [] → l ≠ [] →
            sent (run backend (categorizeTitles l apiKey))
            = [request_of (prompt_of (take 500 l))]) as Hsent.
  { intros l _ Hl. rewrite (categorizeTitles_run backend l apiKey Hkey Hl).
    destruct (backend _) as [[[|c text]|]|reason]; try done.
    by destruct (parse (c :: text)). }
  set (head := [LF] ++ js "    You are an expert content organizer. " ++
    [LF] ++ js "    Analyze the following list of titles and group them into distinct, logical topics or categories." ++
    [LF] ++ js "    " ++
    [LF] ++ js "    Titles to categorize:" ++
    [LF] ++ js "    ").
  assert (∀ l, prompt_of l = head ++ stringify l ++ [LF] ++ js "  ") as Hprompt.
  { intros l. unfold prompt_of, head. by rewrite <-!(assoc_L (++)). }
  exists (request_of (prompt_of (take 500 titles))), head, ([LF] ++ js "  ").
  split; [by apply Hsent|]. split; [done|]. split; [apply Hprompt|].
  split; [apply parse_stringify|].
  intros titles' Hne'. rewrite Hsent by done. intros E.
  apply (f_equal (λ rs, match rs with [r] => contents r | _ => [] end)) in E.
  change (prompt_of (take 500 titles') = prompt_of (take 500 titles)) in E.
  rewrite !Hprompt in E. apply app_inv_head, app_inv_tail in E.
  by apply stringify_inj.
Qed.

Lemma request_carries_the_titles_witness :
  ∃ request,
    sent (run (λ _, Fulfilled None) (categorizeTitles [js "a"; [34%N; 92%N; 10%N]] (js "k")))
    = [request].
Proof.
  destruct (request_carries_the_titles (λ _, Fulfilled None) [js "a"; [34%N; 92%N; 10%N]]
              (js "k")) as (request & head & tail & Hsent & _); [done|done|].
  by exists request.
Defined.

End RequestMore.

(** ** Answers that match the schema *)

Section SchemaMore.
Import JSON GeminiService TopicSorter.



End SchemaMore.
